(** * Controllers: currency-rate polling, address book, wasm endowment

    A shallow embedding of three source files of the controllers repository:

    - [CurrencyRateController]: an asynchronous controller.  Every [await]
      of the source cuts an [async] method into segments that run to
      completion; the embedding has one function per segment and a
      labelled step function [step] that lets the environment (the caller,
      the JavaScript event loop, the timer, the rate source) pick which
      segment runs next.  A run is a list of labels.
    - [AddressBookController]: a key/value store over [gmap].
    - [webAssemblyEndowmentBuilder]: a static permission specification. *)

From Stdlib Require Import ZArith QArith_base.
From stdpp Require Import base option list strings gmap.

Local Open Scope Z_scope.
Local Open Scope string_scope.
Local Open Scope list_scope.

(** ** JavaScript values the code relies on *)

(** A JavaScript [number].  The controllers only store and copy numbers
    (rates, time stamps, chain ids); no arithmetic is done on them. *)
Definition number : Type := Q.

(** Truthiness of a string: only the empty string is falsy. *)
Definition truthy (s : string) : bool :=
  match s with
  | EmptyString => false
  | String _ _ => true
  end.

(** [a || b] where [a : string | null] and [b : string]. *)
Definition js_or (a : option string) (b : string) : string :=
  match a with
  | Some s => if truthy s then s else b
  | None => b
  end.

(** A default parameter [x = d]: the default is taken when the argument
    is omitted ([undefined]). *)
Definition default_param {A : Type} (d : A) (x : option A) : A :=
  match x with
  | Some v => v
  | None => d
  end.

(** The settlement of a promise, or the completion of a [try] body. *)
Inductive Outcome (A : Type) : Type :=
| Fulfilled (v : A)
| Rejected (e : string).
Arguments Fulfilled {A} v.
Arguments Rejected {A} e.

(** ** permissions/endowments/wasm.ts *)

Module Wasm.

(** [PermissionType] is imported from [../Permission]; the source only
    uses its member [Endowment]. *)
Inductive PermissionType : Type :=
| RestrictedMethod
| Endowment.

Definition permissionName : string := "endowment:wasm".

(** [WebAssemblyEndowmentSpecification].  [allowedCaveats] has the
    literal type [null]; [None] is the only value the builder stores. *)
Record WebAssemblyEndowmentSpecification (G : Type) : Type :=
  mkSpecification {
    permissionType : PermissionType;
    targetKey : string;
    allowedCaveats : option (list string);
    endowmentGetter : option G -> list string
  }.
Arguments mkSpecification {G} _ _ _ _.
Arguments permissionType {G} _.
Arguments targetKey {G} _.
Arguments allowedCaveats {G} _.
Arguments endowmentGetter {G} _ _.

(** Both option arguments are optional and of type [any]: a type
    parameter, with [None] for an omitted argument. *)
Definition specificationBuilder {B G : Type} (_builderOptions : option B)
  : WebAssemblyEndowmentSpecification G :=
  {| permissionType := Endowment;
     targetKey := permissionName;
     allowedCaveats := None;
     endowmentGetter := fun _getterOptions => ["WebAssembly"] |}.

Record Builder (B G : Type) : Type :=
  mkBuilder {
    builder_targetKey : string;
    builder_specificationBuilder :
      option B -> WebAssemblyEndowmentSpecification G
  }.
Arguments mkBuilder {B G} _ _.
Arguments builder_targetKey {B G} _.
Arguments builder_specificationBuilder {B G} _ _.

Definition webAssemblyEndowmentBuilder {B G : Type} : Builder B G :=
  {| builder_targetKey := permissionName;
     builder_specificationBuilder := specificationBuilder |}.

(** *** permissions/endowments/index.ts *)

Section Registry.

Context {B G : Type}.

(** [networkAccessEndowmentBuilder] of [./network-access], which is not
    among the sources: a frozen object of the same shape as the wasm
    builder, a target key and a specification builder. *)
Variable networkAccessEndowmentBuilder : Builder B G.

(** The object literal with two computed keys: the keys are written in
    order, a later key over an equal earlier one. *)
Definition endowmentPermissionBuilders : gmap string (Builder B G) :=
  <[ builder_targetKey (@webAssemblyEndowmentBuilder B G) :=
       webAssemblyEndowmentBuilder ]>
    (<[ builder_targetKey networkAccessEndowmentBuilder :=
          networkAccessEndowmentBuilder ]> ∅).

End Registry.

End Wasm.

(** ** AddressBookController *)

Module AddressBook.

Record AddressBookEntry : Type :=
  mkEntry {
    address : string;
    name : string;
    chainId : number;
    memo : string
  }.

(** [AddressBookState]: an object used as a map from address to entry. *)
Record AddressBookState : Type :=
  mkState { addressBook : gmap string AddressBookEntry }.

(** The controller object: its state and the notifications it has sent
    to its subscribers, oldest first. *)
Record Controller : Type :=
  mkController {
    state : AddressBookState;
    notified : list AddressBookState
  }.

(** Modelled from the spec: [BaseController.update] of [../BaseController]
    is not among the sources.  The state store "applies partial/full
    replacement updates, and emits a change notification after each
    commit"; [AddressBookState] has the single key [addressBook], so a
    partial update that names it replaces the state. *)
Definition update (next : AddressBookState) (c : Controller) : Controller :=
  {| state := next; notified := notified c ++ [next] |}.

(** [extend(a, b)] of xtend: a fresh object with the keys of [a], then
    those of [b] written over them. *)
Definition extend (a b : gmap string AddressBookEntry)
  : gmap string AddressBookEntry :=
  b ∪ a.

Section WithValidator.

(** [isValidAddress] of ethereumjs-util, a dependency of the
    repository. *)
Variable isValidAddress : string -> bool.

Definition set (address0 name0 : string) (chainId0 : option number)
    (memo0 : option string) (c : Controller) : bool * Controller :=
  let chainId1 := default_param (1 # 1)%Q chainId0 in
  let memo1 := default_param "" memo0 in
  if negb (isValidAddress address0) then (false, c)
  else
    (true,
     update
       {| addressBook :=
            extend (addressBook (state c))
              {[ address0 :=
                   {| address := address0; name := name0;
                      chainId := chainId1; memo := memo1 |} ]} |}
       c).

Definition clear (c : Controller) : Controller :=
  update {| addressBook := ∅ |} c.

Definition delete_entry (address0 : string) (c : Controller) : Controller :=
  update {| addressBook := delete address0 (addressBook (state c)) |} c.

(** One call of a mutator of the controller, and a sequence of them.
    [delete address] removes the key from the current object in place and
    then updates with a copy of it; the state that results is the one
    [delete_entry] gives.  [notified] lists the states as they were
    sent. *)
Inductive Mutation : Type :=
| DoSet (address0 name0 : string) (chainId0 : option number)
    (memo0 : option string)
| DoDelete (address0 : string)
| DoClear.

Definition mutate (c : Controller) (m : Mutation) : Controller :=
  match m with
  | DoSet a n ch me => (set a n ch me c).2
  | DoDelete a => delete_entry a c
  | DoClear => clear c
  end.

Definition mutate_all (ms : list Mutation) (c : Controller) : Controller :=
  foldl mutate c ms.

(** Whether a mutation goes through to [update]: all do, except a [set]
    with an address the validator rejects. *)
Definition goes_through (m : Mutation) : bool :=
  match m with
  | DoSet a _ _ _ => isValidAddress a
  | _ => true
  end.

(** Every entry is filed under its own address, and that address is one
    the validator accepts. *)
Definition well_keyed (book : gmap string AddressBookEntry) : Prop :=
  forall k e, book !! k = Some e -> address e = k /\ isValidAddress k = true.

End WithValidator.

End AddressBook.

(** ** CurrencyRateController *)

Module CurrencyRate.

Record CurrencyRateState : Type :=
  mkState {
    conversionDate : number;
    conversionRate : number;
    currentCurrency : string;
    nativeCurrency : string;
    pendingCurrentCurrency : option string;
    pendingNativeCurrency : option string;
    usdConversionRate : option number
  }.

Definition defaultState : CurrencyRateState :=
  {| conversionDate := (0 # 1)%Q;
     conversionRate := (0 # 1)%Q;
     currentCurrency := "usd";
     nativeCurrency := "ETH";
     pendingCurrentCurrency := None;
     pendingNativeCurrency := None;
     usdConversionRate := None |}.

(** [Partial<CurrencyRateState>]: every key may be missing. *)
Record PartialState : Type :=
  mkPartial {
    p_conversionDate : option number;
    p_conversionRate : option number;
    p_currentCurrency : option string;
    p_nativeCurrency : option string;
    p_pendingCurrentCurrency : option (option string);
    p_pendingNativeCurrency : option (option string);
    p_usdConversionRate : option number
  }.

Definition emptyPartial : PartialState :=
  mkPartial None None None None None None None.

(** [{ ...d, ...p }]: the keys of [p] written over those of [d]. *)
Definition spread (d : CurrencyRateState) (p : PartialState)
  : CurrencyRateState :=
  {| conversionDate := default_param (conversionDate d) (p_conversionDate p);
     conversionRate := default_param (conversionRate d) (p_conversionRate p);
     currentCurrency := default_param (currentCurrency d) (p_currentCurrency p);
     nativeCurrency := default_param (nativeCurrency d) (p_nativeCurrency p);
     pendingCurrentCurrency :=
       default_param (pendingCurrentCurrency d) (p_pendingCurrentCurrency p);
     pendingNativeCurrency :=
       default_param (pendingNativeCurrency d) (p_pendingNativeCurrency p);
     usdConversionRate :=
       match p_usdConversionRate p with
       | Some r => Some r
       | None => usdConversionRate d
       end |}.

(** What the rate source resolves with. *)
Record FetchResult : Type :=
  mkFetched {
    fetched_conversionDate : number;
    fetched_conversionRate : number;
    fetched_usdConversionRate : option number
  }.

(** Calls of [updateExchangeRate] are numbered in the order they are
    made; timers in the order [setTimeout] creates them. *)
Abbreviation CallId := nat.
Abbreviation TimerId := nat.

(** The rate source: an asynchronous function of [(quote currency, base
    asset, includeUsdRate)] that talks to the network.  Its answer may
    differ from one call to the next, so the embedding also hands it the
    number of the call that asks. *)
Definition RateSource : Type :=
  CallId -> string -> string -> bool -> Outcome FetchResult.

(** Who called [updateExchangeRate].  [poll], [setCurrentCurrency] and
    [setNativeCurrency] wrap the call in [safelyExecute]; the method is
    public and can also be called directly. *)
Inductive Caller : Type :=
| Poll
| SetCurrentCurrency
| SetNativeCurrency
| Direct.

(** The four fields destructured from [this.state] after the lock is
    acquired. *)
Record Snapshot : Type :=
  mkSnapshot {
    snap_currentCurrency : string;
    snap_nativeCurrency : string;
    snap_pendingCurrentCurrency : option string;
    snap_pendingNativeCurrency : option string
  }.

Definition quote_of (sn : Snapshot) : string :=
  js_or (snap_pendingCurrentCurrency sn) (snap_currentCurrency sn).

Definition base_of (sn : Snapshot) : string :=
  js_or (snap_pendingNativeCurrency sn) (snap_nativeCurrency sn).

(** Where a call of [updateExchangeRate] stands. *)
Inductive Pc : Type :=
| AwaitLock
    (* suspended at [await this.mutex.acquire()], in the mutex's queue *)
| Locked
    (* the mutex resolved the promise; the continuation has not run yet *)
| AwaitFetch (sn : Snapshot)
    (* suspended at [await this.fetchExchangeRate(...)] *)
| Settled (o : Outcome (option CurrencyRateState))
    (* returned or threw; the caller's continuation has not run yet *)
| Finished.

Record Call : Type :=
  mkCall { caller : Caller; pc : Pc }.

(** A call is inside the fetch-and-commit cycle from the moment the
    mutex admits it until it releases the lock. *)
Definition in_cycle (k : Call) : bool :=
  match pc k with
  | Locked | AwaitFetch _ => true
  | _ => false
  end.

(** What an observer of the controller sees, oldest first. *)
Inductive Event : Type :=
| StateChanged (st : CurrencyRateState)
    (* the state-changed publication of [update] *)
| Acquire (t : CallId)
| Grant (t : CallId)
| Fetch (t : CallId) (quote base : string) (usd : bool)
    (* [fetchExchangeRate] is invoked *)
| Release (t : CallId)
| Settle (t : CallId) (o : Outcome (option CurrencyRateState))
    (* the promise of [updateExchangeRate] settles *)
| Return (t : CallId) (c : Caller) (o : Outcome unit)
    (* the promise of the method that awaited the call settles *)
| TimerSet (h : TimerId) (due : Z)
| Destroyed.

(** Modelled from the spec: [Mutex] of await-semaphore is a dependency,
    not among the sources.  It is "an exclusive, FIFO-fair lock (only one
    holder at a time; a second caller blocks until the first releases)":
    a count of 1 and a queue of waiters, pushed at the end and taken from
    the front. *)
Record Mutex : Type :=
  mkMutex { count : nat; waiting : list CallId }.

(** The controller object together with the part of the JavaScript
    runtime it lives in (suspended calls, live timers, the clock). *)
Record Sys : Type :=
  mkSys {
    state : CurrencyRateState;
    mutex : Mutex;
    handle : option TimerId;
    interval : Z;
    fetchExchangeRate : RateSource;
    includeUsdRate : bool;
    calls : list Call;
    timers : list (TimerId * Z);
    next_timer : TimerId;
    now : Z;
    trace : list Event
  }.

Definition with_state (v : CurrencyRateState) (s : Sys) : Sys :=
  mkSys v (mutex s) (handle s) (interval s) (fetchExchangeRate s)
    (includeUsdRate s) (calls s) (timers s) (next_timer s) (now s) (trace s).

Definition with_mutex (v : Mutex) (s : Sys) : Sys :=
  mkSys (state s) v (handle s) (interval s) (fetchExchangeRate s)
    (includeUsdRate s) (calls s) (timers s) (next_timer s) (now s) (trace s).

Definition with_handle (v : option TimerId) (s : Sys) : Sys :=
  mkSys (state s) (mutex s) v (interval s) (fetchExchangeRate s)
    (includeUsdRate s) (calls s) (timers s) (next_timer s) (now s) (trace s).

Definition with_calls (v : list Call) (s : Sys) : Sys :=
  mkSys (state s) (mutex s) (handle s) (interval s) (fetchExchangeRate s)
    (includeUsdRate s) v (timers s) (next_timer s) (now s) (trace s).

Definition with_timers (v : list (TimerId * Z)) (n : TimerId) (s : Sys)
  : Sys :=
  mkSys (state s) (mutex s) (handle s) (interval s) (fetchExchangeRate s)
    (includeUsdRate s) (calls s) v n (now s) (trace s).

Definition with_now (v : Z) (s : Sys) : Sys :=
  mkSys (state s) (mutex s) (handle s) (interval s) (fetchExchangeRate s)
    (includeUsdRate s) (calls s) (timers s) (next_timer s) v (trace s).

Definition emit (e : Event) (s : Sys) : Sys :=
  mkSys (state s) (mutex s) (handle s) (interval s) (fetchExchangeRate s)
    (includeUsdRate s) (calls s) (timers s) (next_timer s) (now s)
    (trace s ++ [e]).

Definition set_pc (t : CallId) (p : Pc) (s : Sys) : Sys :=
  match calls s !! t with
  | Some k => with_calls (<[t := mkCall (caller k) p]> (calls s)) s
  | None => s
  end.

(** *** Collaborators *)

(** Modelled from the spec: [BaseController.update] of
    [../base-controller-v2] is not among the sources.  The state store
    "applies partial/full replacement updates, and emits a change
    notification after each commit", the notification "carrying the full
    post-mutation snapshot".  The recipe either edits the draft or
    returns the replacement; both are a function from the old state to
    the next one. *)
Definition update (recipe : CurrencyRateState -> CurrencyRateState)
    (s : Sys) : Sys :=
  let next := recipe (state s) in
  emit (StateChanged next) (with_state next s).

(** Modelled from the spec: [safelyExecute] of [../util] is not among
    the sources.  It is the "non-propagating wrapper" of the spec: it
    awaits the operation and swallows its failure, resolving with
    nothing in that case. *)
Definition safelyExecute {A : Type} (o : Outcome A) : Outcome (option A) :=
  match o with
  | Fulfilled v => Fulfilled (Some v)
  | Rejected _ => Fulfilled None
  end.

(** [await p; rest] inside an async method: a rejection of [p] that is
    not caught rejects the method's own promise. *)
Definition await_then {A B : Type} (o : Outcome A) (rest : A -> Outcome B)
  : Outcome B :=
  match o with
  | Fulfilled v => rest v
  | Rejected e => Rejected e
  end.

(** [Semaphore.sched]: when the count is positive and a waiter is
    queued, take the count, shift the first waiter and resolve its
    promise. *)
Definition sched (s : Sys) : Sys :=
  match count (mutex s), waiting (mutex s) with
  | S n, t :: rest =>
      emit (Grant t) (set_pc t Locked (with_mutex (mkMutex n rest) s))
  | _, _ => s
  end.

(** [Semaphore.acquire]: push the waiter; [sched] runs on the next tick
    (the label [NextTick] below). *)
Definition acquire (t : CallId) (s : Sys) : Sys :=
  emit (Acquire t)
    (with_mutex (mkMutex (count (mutex s)) (waiting (mutex s) ++ [t])) s).

(** The release function handed out by [acquire]: give the count back
    and run [sched] at once. *)
Definition releaseLock (t : CallId) (s : Sys) : Sys :=
  sched
    (emit (Release t)
       (with_mutex (mkMutex (S (count (mutex s))) (waiting (mutex s))) s)).

Definition clearTimeout (h : TimerId) (s : Sys) : Sys :=
  with_timers (filter (fun p => p.1 <> h) (timers s)) (next_timer s) s.

(** [setTimeout(callback, ms)]: a fresh timer due [ms] from now. *)
Definition setTimeout (ms : Z) (s : Sys) : TimerId * Sys :=
  let h := next_timer s in
  (h, emit (TimerSet h (now s + ms))
        (with_timers ((h, now s + ms) :: timers s) (S h) s)).

(** *** updateExchangeRate, one definition per segment *)

(** Up to [await this.mutex.acquire()]. *)
Definition updateExchangeRate_call (c : Caller) (s : Sys) : Sys :=
  let t := length (calls s) in
  acquire t (with_calls (calls s ++ [mkCall c AwaitLock]) s).

(** From the lock to [await this.fetchExchangeRate(...)]: read the four
    fields of [this.state] and invoke the rate source. *)
Definition updateExchangeRate_locked (t : CallId) (s : Sys) : Sys :=
  let sn :=
    {| snap_currentCurrency := currentCurrency (state s);
       snap_nativeCurrency := nativeCurrency (state s);
       snap_pendingCurrentCurrency := pendingCurrentCurrency (state s);
       snap_pendingNativeCurrency := pendingNativeCurrency (state s) |} in
  set_pc t (AwaitFetch sn)
    (emit (Fetch t (quote_of sn) (base_of sn) (includeUsdRate s)) s).

(** The state the recipe of the commit returns. *)
Definition committed (sn : Snapshot) (r : FetchResult) : CurrencyRateState :=
  {| conversionDate := fetched_conversionDate r;
     conversionRate := fetched_conversionRate r;
     currentCurrency := quote_of sn;
     nativeCurrency := base_of sn;
     pendingCurrentCurrency := None;
     pendingNativeCurrency := None;
     usdConversionRate := fetched_usdConversionRate r |}.

(** From the settlement of the fetch to the end: the rest of the [try]
    body, the [finally] block, and the end of the function, which has no
    [return] statement. *)
Definition updateExchangeRate_fetched (t : CallId) (sn : Snapshot)
    (s : Sys) : Sys :=
  let answer :=
    fetchExchangeRate s t (quote_of sn) (base_of sn) (includeUsdRate s) in
  let '(s1, o) :=
    match answer with
    | Fulfilled r => (update (fun _ => committed sn r) s, Fulfilled None)
    | Rejected e => (s, Rejected e)
    end in
  let s2 := releaseLock t s1 in
  emit (Settle t o) (set_pc t (Settled o) s2).

(** *** The methods *)

(** [poll] up to its [await]. *)
Definition poll (s : Sys) : Sys :=
  let s1 :=
    match handle s with
    | Some h => clearTimeout h s
    | None => s
    end in
  updateExchangeRate_call Poll s1.

(** [poll] after its [await]: arm the next timer. *)
Definition poll_resumed (s : Sys) : Sys :=
  let '(h, s1) := setTimeout (interval s) s in
  with_handle (Some h) s1.

Definition setCurrentCurrency (currentCurrency0 : string) (s : Sys) : Sys :=
  let s1 :=
    update
      (fun st =>
         mkState (conversionDate st) (conversionRate st)
           (currentCurrency st) (nativeCurrency st)
           (Some currentCurrency0) (pendingNativeCurrency st)
           (usdConversionRate st))
      s in
  updateExchangeRate_call SetCurrentCurrency s1.

Definition setNativeCurrency (symbol : string) (s : Sys) : Sys :=
  let s1 :=
    update
      (fun st =>
         mkState (conversionDate st) (conversionRate st)
           (currentCurrency st) (nativeCurrency st)
           (pendingCurrentCurrency st) (Some symbol)
           (usdConversionRate st))
      s in
  updateExchangeRate_call SetNativeCurrency s1.

(** Modelled from the spec: [BaseController.destroy] of
    [../base-controller-v2] is not among the sources.  Teardown
    "detach[es] from the State Store"; the embedding records that it
    happened. *)
Definition super_destroy (s : Sys) : Sys := emit Destroyed s.

Definition destroy (s : Sys) : Sys :=
  let s1 := super_destroy s in
  match handle s1 with
  | Some h => clearTimeout h s1
  | None => s1
  end.

(** What runs when the promise of call [t] has settled with [o]: the
    rest of the method that awaited it. *)
Definition resumed (t : CallId) (c : Caller)
    (o : Outcome (option CurrencyRateState)) (s : Sys) : Sys :=
  let s1 := set_pc t Finished s in
  match c with
  | Poll =>
      match await_then (safelyExecute o) (fun _ => Fulfilled tt) with
      | Fulfilled _ => emit (Return t Poll (Fulfilled tt)) (poll_resumed s1)
      | Rejected e => emit (Return t Poll (Rejected e)) s1
      end
  | SetCurrentCurrency | SetNativeCurrency =>
      emit (Return t c (await_then (safelyExecute o) (fun _ => Fulfilled tt)))
        s1
  | Direct => s1
  end.

Section WithDefaultRateSource.

(** [fetchExchangeRate] of [../crypto-compare], the default rate
    source. *)
Variable defaultFetchExchangeRate : RateSource.

(** The constructor, up to the first [await] of the [poll] it starts.
    The messaging system only carries the actions and the
    publications; the actions it registers are the labels
    [CallSetCurrentCurrency] and [CallSetNativeCurrency] below. *)
Definition constructor (state0 : option PartialState)
    (includeUsdRate0 : option bool) (fetchExchangeRate0 : option RateSource)
  : Sys :=
  poll
    {| state := spread defaultState (default_param emptyPartial state0);
       mutex := mkMutex 1 [];
       handle := None;
       interval := 180000;
       fetchExchangeRate :=
         default_param defaultFetchExchangeRate fetchExchangeRate0;
       includeUsdRate := default_param false includeUsdRate0;
       calls := [];
       timers := [];
       next_timer := 0%nat;
       now := 0;
       trace := [] |}.

End WithDefaultRateSource.

(** *** Interleavings *)

(** What can happen next: a method is called from outside, or the event
    loop runs a continuation, a timer or lets time pass. *)
Inductive Label : Type :=
| CallSetCurrentCurrency (code : string)
| CallSetNativeCurrency (symbol : string)
| CallUpdateExchangeRate
| CallPoll
    (* [poll] is public: a call from outside, beside the constructor's
       and the timer's *)
| CallDestroy
| NextTick
    (* the [sched] that [acquire] put on the next tick *)
| Resume (t : CallId)
    (* an admitted call continues after [await this.mutex.acquire()] *)
| FetchSettles (t : CallId)
    (* the rate source answers call [t] *)
| Continue (t : CallId)
    (* the method that awaited call [t] continues *)
| TimerFires (h : TimerId)
| TimePasses (d : Z).

Definition timer_due (h : TimerId) (s : Sys) : bool :=
  existsb (fun p => Nat.eqb p.1 h && Z.leb p.2 (now s)) (timers s).

Definition step (l : Label) (s : Sys) : option Sys :=
  match l with
  | CallSetCurrentCurrency code => Some (setCurrentCurrency code s)
  | CallSetNativeCurrency symbol => Some (setNativeCurrency symbol s)
  | CallUpdateExchangeRate => Some (updateExchangeRate_call Direct s)
  | CallPoll => Some (poll s)
  | CallDestroy => Some (destroy s)
  | NextTick => Some (sched s)
  | Resume t =>
      match calls s !! t with
      | Some (mkCall _ Locked) => Some (updateExchangeRate_locked t s)
      | _ => None
      end
  | FetchSettles t =>
      match calls s !! t with
      | Some (mkCall _ (AwaitFetch sn)) =>
          Some (updateExchangeRate_fetched t sn s)
      | _ => None
      end
  | Continue t =>
      match calls s !! t with
      | Some (mkCall c (Settled o)) => Some (resumed t c o s)
      | _ => None
      end
  | TimerFires h =>
      (* the runtime drops the timer that fires, then runs its callback *)
      if timer_due h s then Some (poll (clearTimeout h s)) else None
  | TimePasses d =>
      if Z.leb 0 d then Some (with_now (now s + d) s) else None
  end.

(** A run: the labels are taken in order; a label that is not enabled
    stops the run. *)
Fixpoint run (ls : list Label) (s : Sys) : option Sys :=
  match ls with
  | [] => Some s
  | l :: ls' =>
      match step l s with
      | Some s' => run ls' s'
      | None => None
      end
  end.

(** *** Reading a trace *)

Definition acquire_order (tr : list Event) : list CallId :=
  omap (fun e => match e with Acquire t => Some t | _ => None end) tr.

Definition grant_order (tr : list Event) : list CallId :=
  omap (fun e => match e with Grant t => Some t | _ => None end) tr.

(** The holder of the lock after one more event, when the event respects
    the lock: a grant needs a free lock, a release comes from the
    holder, and the rate source is invoked by the holder only. *)
Definition lock_event (h : option CallId) (e : Event)
  : option (option CallId) :=
  match e, h with
  | Grant t, None => Some (Some t)
  | Grant _, Some _ => None
  | Release t, Some t' => if Nat.eqb t t' then Some None else None
  | Release _, None => None
  | Fetch t _ _ _, Some t' => if Nat.eqb t t' then Some h else None
  | Fetch _ _ _ _, None => None
  | _, _ => Some h
  end.

(** The holder after a whole trace, [None] when some event broke the
    alternation of grants and releases, or a fetch came from a call that
    did not hold the lock. *)
Fixpoint lock_holder (h : option CallId) (tr : list Event)
  : option (option CallId) :=
  match tr with
  | [] => Some h
  | e :: tr' =>
      match lock_event h e with
      | Some h' => lock_holder h' tr'
      | None => None
      end
  end.

Definition fetches_of (t : CallId) (tr : list Event)
  : list (string * string * bool) :=
  omap (fun e =>
          match e with
          | Fetch t' q b u => if Nat.eqb t' t then Some (q, b, u) else None
          | _ => None
          end) tr.

Definition publications (tr : list Event) : list CurrencyRateState :=
  omap (fun e => match e with StateChanged st => Some st | _ => None end) tr.

(** *** The vocabulary of the proofs *)

(** Events that touch neither the lock nor the rate source. *)
Definition quiet (e : Event) : bool :=
  match e with
  | Acquire _ | Grant _ | Release _ | Fetch _ _ _ _ => false
  | _ => true
  end.

(** Call [t] is inside the fetch-and-commit cycle. *)
Definition cycling (cs : list Call) (t : CallId) : Prop :=
  exists k, cs !! t = Some k /\ in_cycle k = true.

(** [h] is the holder the trace announces: the count and the calls
    inside the cycle agree with it. *)
Definition holder_ok (cs : list Call) (m : Mutex) (h : option CallId)
  : Prop :=
  match h with
  | None => count m = 1%nat /\ forall t, ~ cycling cs t
  | Some t =>
      count m = 0%nat /\ cycling cs t /\ forall t', cycling cs t' -> t' = t
  end.

(** The rate source has been invoked for call [t] exactly when the call
    is past its snapshot, and then with the pair of the snapshot. *)
Definition fetched_ok (u : bool) (tr : list Event) (t : CallId) (k : Call)
  : Prop :=
  match pc k with
  | AwaitLock | Locked => fetches_of t tr = []
  | AwaitFetch sn => fetches_of t tr = [(quote_of sn, base_of sn, u)]
  | Settled _ | Finished => length (fetches_of t tr) = 1%nat
  end.

Record InvC (cs : list Call) (m : Mutex) (tr : list Event) (u : bool)
  : Prop :=
  mkInvC {
    inv_lock : exists h, lock_holder None tr = Some h /\ holder_ok cs m h;
    inv_fifo : acquire_order tr = grant_order tr ++ waiting m;
    inv_waiting :
      forall t, t ∈ waiting m -> exists c, cs !! t = Some (mkCall c AwaitLock);
    inv_nodup : NoDup (waiting m);
    inv_fetch : forall t k, cs !! t = Some k -> fetched_ok u tr t k;
    inv_fresh : forall t, (length cs <= t)%nat -> fetches_of t tr = []
  }.

Definition Inv (s : Sys) : Prop :=
  InvC (calls s) (mutex s) (trace s) (includeUsdRate s).

(** The waiters of the mutex are calls suspended at [acquire]. *)
Definition waiting_ok (s : Sys) : Prop :=
  forall t, t ∈ waiting (mutex s) ->
    exists c, calls s !! t = Some (mkCall c AwaitLock).

(** The only ways a call moves on: the mutex admits it, it resumes and
    invokes the rate source, the rate source answers, its caller
    continues. *)
Definition advance (l : Label) (t : CallId) (p p' : Pc) : Prop :=
  match p with
  | AwaitLock => p' = Locked
  | Locked => l = Resume t /\ exists sn, p' = AwaitFetch sn
  | AwaitFetch _ => l = FetchSettles t /\ exists o, p' = Settled o
  | Settled _ => l = Continue t /\ p' = Finished
  | Finished => False
  end.

(** The labels that are calls of [setCurrentCurrency] and
    [setNativeCurrency]. *)
Definition is_request (l : Label) : bool :=
  match l with
  | CallSetCurrentCurrency _ | CallSetNativeCurrency _ => true
  | _ => false
  end.

(** The fields a commit confirms: everything but the two pending
    fields. *)
Definition same_confirmed (a b : CurrencyRateState) : Prop :=
  conversionDate a = conversionDate b
  /\ conversionRate a = conversionRate b
  /\ currentCurrency a = currentCurrency b
  /\ nativeCurrency a = nativeCurrency b
  /\ usdConversionRate a = usdConversionRate b.

Definition is_done (p : Pc) : bool :=
  match p with
  | Settled _ | Finished => true
  | _ => false
  end.

(** The grant [sched] hands out, if any. *)
Definition granted (m : Mutex) : list Event :=
  match count m, waiting m with
  | S _, t :: _ => [Grant t]
  | _, _ => []
  end.

(** No method that wraps the refresh in [safelyExecute] rejects. *)
Definition not_rejected (e : Event) : Prop :=
  match e with
  | Return _ _ o => o = Fulfilled tt
  | _ => True
  end.

(** *** The spec's own wording, to compare the code with *)

(** The pair resolution as the spec words it: the pending value "if
    present", else the confirmed one. *)
Definition specified_quote (st : CurrencyRateState) : string :=
  match pendingCurrentCurrency st with
  | Some code => code
  | None => currentCurrency st
  end.

Definition specified_base (st : CurrencyRateState) : string :=
  match pendingNativeCurrency st with
  | Some symbol => symbol
  | None => nativeCurrency st
  end.

(** The contract of the refresh as the spec words it: the new state on
    success, nothing and no failure otherwise. *)
Definition specified_result (committed_state : option CurrencyRateState)
  : Outcome (option CurrencyRateState) :=
  Fulfilled committed_state.

(** The refresh interval as the spec words it, "a configuration parameter
    at controller construction": some two constructions differ in it. *)
Definition interval_configurable : Prop :=
  exists (dflt : RateSource) (st st' : option PartialState)
         (usd usd' : option bool) (src src' : option RateSource),
    interval (constructor dflt st usd src)
    <> interval (constructor dflt st' usd' src').

(** *** The poll loop at rest *)

(** What the event loop does on its own, as opposed to a call from
    outside. *)
Definition is_internal (l : Label) : bool :=
  match l with
  | NextTick | Resume _ | FetchSettles _ | Continue _ | TimerFires _
  | TimePasses _ => true
  | _ => false
  end.

(** Nothing is scheduled: no live timer, no waiter, no call under way. *)
Definition quiescent (s : Sys) : Prop :=
  timers s = [] /\ waiting (mutex s) = []
  /\ Forall (fun k => pc k = Finished) (calls s).

(** *** More vocabulary: configuration, progress of a call, the poll loop *)

(** What construction fixes. *)
Definition config (s : Sys) : Z * RateSource * bool :=
  (interval s, fetchExchangeRate s, includeUsdRate s).

(** The call has read its snapshot and invoked the rate source. *)
Definition past_snapshot (p : Pc) : bool :=
  match p with
  | AwaitLock | Locked => false
  | _ => true
  end.

(** The label settles a fetch. *)
Definition is_settlement (l : Label) : bool :=
  match l with
  | FetchSettles _ => true
  | _ => false
  end.

(** The snapshot a call would take of a state. *)
Definition snapshot_of (st : CurrencyRateState) : Snapshot :=
  {| snap_currentCurrency := currentCurrency st;
     snap_nativeCurrency := nativeCurrency st;
     snap_pendingCurrentCurrency := pendingCurrentCurrency st;
     snap_pendingNativeCurrency := pendingNativeCurrency st |}.

(** Call [t] is a refresh of the poll loop that has not run to its end. *)
Definition polling (cs : list Call) (t : CallId) : Prop :=
  exists p, cs !! t = Some (mkCall Poll p) /\ p <> Finished.

(** How many segments a call still has to run. *)
Definition remaining (k : Call) : nat :=
  match pc k with
  | AwaitLock => 4
  | Locked => 3
  | AwaitFetch _ => 2
  | Settled _ => 1
  | Finished => 0
  end.

Definition backlog (s : Sys) : nat := sum_list_with remaining (calls s).

(** The timers of the runtime, the handle of the controller and the
    clock. *)
Definition clockwork (s : Sys)
  : list (TimerId * Z) * option TimerId * TimerId * Z :=
  (timers s, handle s, next_timer s, now s).

(** The call a label starts, if it starts one. *)
Definition spawned (l : Label) : list Call :=
  match l with
  | CallSetCurrentCurrency _ => [mkCall SetCurrentCurrency AwaitLock]
  | CallSetNativeCurrency _ => [mkCall SetNativeCurrency AwaitLock]
  | CallUpdateExchangeRate => [mkCall Direct AwaitLock]
  | CallPoll | TimerFires _ => [mkCall Poll AwaitLock]
  | _ => []
  end.

(** What a pending field holds after the labels when none of them is a
    commit: the last value a request wrote ([setCurrentCurrency] l.111-113,
    [setNativeCurrency] l.123-125), else what it held. *)
Fixpoint pending_quote_after (ls : list Label) (p : option string)
  : option string :=
  match ls with
  | [] => p
  | CallSetCurrentCurrency code :: ls' => pending_quote_after ls' (Some code)
  | _ :: ls' => pending_quote_after ls' p
  end.

Fixpoint pending_base_after (ls : list Label) (p : option string)
  : option string :=
  match ls with
  | [] => p
  | CallSetNativeCurrency symbol :: ls' => pending_base_after ls' (Some symbol)
  | _ :: ls' => pending_base_after ls' p
  end.

(** The label is a call of [poll] from outside. *)
Definition is_direct_poll (l : Label) : bool :=
  match l with
  | CallPoll => true
  | _ => false
  end.

(** Over these labels [poll] is only started by the constructor and by
    its own timer. *)
Definition poll_by_loop_only (ls : list Label) : bool :=
  forallb (fun l => negb (is_direct_poll l)) ls.

(** No live timer has the identifier the next [setTimeout] hands out. *)
Definition timers_fresh (s : Sys) : Prop :=
  forall h due, (h, due) ∈ timers s -> (h < next_timer s)%nat.

(** The poll loop is in one piece: at most one of its refreshes is under
    way, at most one timer is live and it is the one in [this.handle], due
    within one interval, never both a refresh and a timer; and until
    teardown one of the two is there.  A call of [poll] from outside
    starts a second loop and breaks it. *)
Definition poll_loop_ok (s : Sys) : Prop :=
  (forall t1 t2,
      polling (calls s) t1 -> polling (calls s) t2 -> t1 = t2)
  /\ (timers s = []
      \/ exists h due,
           timers s = [(h, due)] /\ handle s = Some h
           /\ due <= now s + interval s
           /\ forall t, ~ polling (calls s) t)
  /\ (Destroyed ∉ trace s ->
      timers s <> [] \/ exists t, polling (calls s) t).

(** Every call suspended at [acquire] is in the queue of the mutex. *)
Definition queued_ok (s : Sys) : Prop :=
  forall t c, calls s !! t = Some (mkCall c AwaitLock) ->
    t ∈ waiting (mutex s).

(** The labels that run a continuation of a call: an admission, a
    resumption, the answer of the rate source, the return to the caller. *)
Definition is_continuation (l : Label) : bool :=
  match l with
  | NextTick | Resume _ | FetchSettles _ | Continue _ => true
  | _ => false
  end.

End CurrencyRate.

(** ** Concrete controllers for the examples *)

Module Scenario.
Import CurrencyRate.

Definition eur_rate : FetchResult :=
  mkFetched (1000 # 1)%Q (91 # 100)%Q None.

(** A rate source that always answers. *)
Definition steady : RateSource := fun _ _ _ _ => Fulfilled eur_rate.

(** A rate source that is down. *)
Definition down : RateSource := fun _ _ _ _ => Rejected "network down".

(** [new CurrencyRateController(messagingSystem)] with the default rate
    source answering, and with it down. *)
Definition fresh : Sys := constructor steady None None None.
Definition offline : Sys := constructor down None None None.

End Scenario.

(** * Theorems *)

(** ** wasm endowment *)

(** C10: for every builder option the specification built by
    [webAssemblyEndowmentBuilder.specificationBuilder] has permission type
    [Endowment], target key ["endowment:wasm"] and [allowedCaveats] null,
    and its [endowmentGetter] returns exactly [["WebAssembly"]] for every
    getter option; two calls with any two options build the same
    specification. *)
Theorem wasm_specification_constant :
  forall (B G : Type) (builderOptions builderOptions' : option B),
    let spec :=
      Wasm.builder_specificationBuilder
        (@Wasm.webAssemblyEndowmentBuilder B G) builderOptions in
    Wasm.permissionType spec = Wasm.Endowment
    /\ Wasm.targetKey spec = "endowment:wasm"
    /\ Wasm.allowedCaveats spec = None
    /\ (forall getterOptions : option G,
          Wasm.endowmentGetter spec getterOptions = ["WebAssembly"])
    /\ spec =
       Wasm.builder_specificationBuilder
         (@Wasm.webAssemblyEndowmentBuilder B G) builderOptions'
    /\ Wasm.builder_targetKey (@Wasm.webAssemblyEndowmentBuilder B G)
       = Wasm.targetKey spec.
Proof.
  intros B G o o' spec. subst spec. cbn.
  repeat split; reflexivity.
Qed.

(** ** Address book *)

Section AddressBookFacts.
Import AddressBook.
Variable isValidAddress : string -> bool.

Lemma extend_lookup_new (a : gmap string AddressBookEntry) k e :
  extend a {[ k := e ]} !! k = Some e.
Proof.
  unfold extend. apply lookup_union_Some_l. apply lookup_singleton_eq.
Qed.

Lemma extend_lookup_other (a : gmap string AddressBookEntry) k k' e :
  k <> k' -> extend a {[ k := e ]} !! k' = a !! k'.
Proof.
  intros Hne. unfold extend.
  rewrite lookup_union_r; [reflexivity|].
  by apply lookup_singleton_ne.
Qed.

Lemma set_rejected_gen addr nm cid mm c :
  isValidAddress addr = false ->
  set isValidAddress addr nm cid mm c = (false, c).
Proof. intros H. unfold set. by rewrite H. Qed.

Lemma set_accepted_gen addr nm cid mm c :
  isValidAddress addr = true ->
  let r := set isValidAddress addr nm cid mm c in
  r.1 = true
  /\ addressBook (state r.2) !! addr =
     Some {| address := addr; name := nm;
             chainId := default_param (1 # 1)%Q cid;
             memo := default_param "" mm |}
  /\ (forall other, other <> addr ->
        addressBook (state r.2) !! other = addressBook (state c) !! other)
  /\ notified r.2 = notified c ++ [state r.2].
Proof.
  intros H r. subst r. unfold set. rewrite H. cbn.
  split; [done|]. split; [apply extend_lookup_new|].
  split; [|done].
  intros other Hne. by apply extend_lookup_other.
Qed.

End AddressBookFacts.

(** C9: when [isValidAddress] rejects the address, [set] returns [false]
    and leaves the controller (state and notifications) as it was; when it
    accepts the address, [set] returns [true] and the address book maps the
    address to the entry built from the arguments, with [chainId] 1 and
    [memo] the empty string when they are omitted. *)
Theorem addressbook_set_spec :
  forall (isValidAddress : string -> bool) (addr nm : string)
         (cid : option number) (mm : option string)
         (c : AddressBook.Controller),
    (isValidAddress addr = false ->
       AddressBook.set isValidAddress addr nm cid mm c = (false, c))
    /\ (isValidAddress addr = true ->
          (AddressBook.set isValidAddress addr nm cid mm c).1 = true
          /\ AddressBook.addressBook
               (AddressBook.state
                  (AddressBook.set isValidAddress addr nm cid mm c).2) !! addr
             = Some (AddressBook.mkEntry addr nm
                       (match cid with Some n => n | None => (1 # 1)%Q end)
                       (match mm with Some m => m | None => "" end))).
Proof.
  intros v addr nm cid mm c. split; intros H.
  - by apply set_rejected_gen.
  - destruct (set_accepted_gen v addr nm cid mm c H) as (H1 & H2 & _).
    split; [exact H1|]. rewrite H2. by destruct cid, mm.
Qed.

(** One address the validator accepts and one it rejects, on an empty
    address book with [chainId] and [memo] omitted. *)
Lemma addressbook_set_spec_witness :
  let valid := String.eqb "0x32Be343B94f860124dC4fEe278FDCBD38C102D88" in
  let c := AddressBook.mkController (AddressBook.mkState ∅) [] in
  AddressBook.set valid "0x123" "Mallory" None None c = (false, c)
  /\ (AddressBook.set valid "0x32Be343B94f860124dC4fEe278FDCBD38C102D88"
        "Alice" None None c).1 = true
  /\ AddressBook.addressBook
       (AddressBook.state
          (AddressBook.set valid "0x32Be343B94f860124dC4fEe278FDCBD38C102D88"
             "Alice" None None c).2)
       !! "0x32Be343B94f860124dC4fEe278FDCBD38C102D88"
     = Some (AddressBook.mkEntry "0x32Be343B94f860124dC4fEe278FDCBD38C102D88"
               "Alice" (1 # 1)%Q "").
Proof.
  intros valid c.
  destruct (addressbook_set_spec valid "0x123" "Mallory" None None c)
    as [Hrejected _].
  destruct (addressbook_set_spec valid
              "0x32Be343B94f860124dC4fEe278FDCBD38C102D88" "Alice" None None c)
    as [_ Haccepted].
  split; [apply Hrejected; reflexivity|].
  apply Haccepted. reflexivity.
Defined.

Import CurrencyRate.

(** ** Currency rate: reading traces *)

Section TraceFacts.

Lemma lock_holder_snoc h tr e :
  lock_holder h (tr ++ [e]) =
  match lock_holder h tr with
  | Some h' => lock_event h' e
  | None => None
  end.
Proof.
  revert h. induction tr as [|e' tr IH]; intros h; cbn.
  - by destruct (lock_event h e).
  - destruct (lock_event h e'); [apply IH | reflexivity].
Qed.

Lemma acquire_order_snoc tr e :
  acquire_order (tr ++ [e]) =
  acquire_order tr ++ match e with Acquire t => [t] | _ => [] end.
Proof. unfold acquire_order. rewrite omap_app. by destruct e. Qed.

Lemma grant_order_snoc tr e :
  grant_order (tr ++ [e]) =
  grant_order tr ++ match e with Grant t => [t] | _ => [] end.
Proof. unfold grant_order. rewrite omap_app. by destruct e. Qed.

Lemma fetches_of_snoc t tr e :
  fetches_of t (tr ++ [e]) =
  fetches_of t tr ++
    match e with
    | Fetch t' q b u => if Nat.eqb t' t then [(q, b, u)] else []
    | _ => []
    end.
Proof.
  unfold fetches_of. rewrite omap_app. destruct e; try done.
  cbn. by destruct (Nat.eqb t0 t).
Qed.

Lemma publications_snoc tr e :
  publications (tr ++ [e]) =
  publications tr ++ match e with StateChanged st => [st] | _ => [] end.
Proof. unfold publications. rewrite omap_app. by destruct e. Qed.

End TraceFacts.

(** ** Currency rate: the invariant of the lock *)

Section LockInvariant.

Lemma holder_ok_ext cs cs' m m' h :
  count m = count m' ->
  (forall t, cycling cs' t <-> cycling cs t) ->
  holder_ok cs m h -> holder_ok cs' m' h.
Proof.
  intros Hc Hl. destruct h as [t|]; cbn.
  - intros (H0 & Hin & Huniq). split; [congruence|]. split.
    + by apply Hl.
    + intros t' Ht'. apply Huniq. by apply Hl.
  - intros (H1 & Hnone). split; [congruence|].
    intros t Ht. apply (Hnone t). by apply Hl.
Qed.

Lemma cycling_snoc cs k t :
  in_cycle k = false -> cycling (cs ++ [k]) t <-> cycling cs t.
Proof.
  intros Hk. unfold cycling. split.
  - intros (k' & Hl & Hin).
    apply lookup_app_Some in Hl as [Hl|[_ Hl]]; [by exists k'|].
    destruct (t - length cs)%nat; cbn in Hl; [|done].
    congruence.
  - intros (k' & Hl & Hin). exists k'. split; [|done].
    by apply lookup_app_l_Some.
Qed.

Lemma cycling_insert cs t k t' :
  (t < length cs)%nat ->
  cycling (<[t := k]> cs) t' <->
  (if decide (t = t') then in_cycle k = true else cycling cs t').
Proof.
  intros Hlt. unfold cycling. case_decide as Hd.
  - subst t'. rewrite list_lookup_insert_eq by done. split.
    + by intros (k' & [= <-] & Hin).
    + intros Hin. by exists k.
  - by rewrite list_lookup_insert_ne.
Qed.

Lemma InvC_quiet cs m tr u e :
  quiet e = true -> InvC cs m tr u -> InvC cs m (tr ++ [e]) u.
Proof.
  intros Hq [Hl Hf Hw Hn Hfe Hfr]. split; try done.
  - destruct Hl as (h & Hh & Hok). exists h. split; [|done].
    rewrite lock_holder_snoc, Hh. by destruct e, h.
  - rewrite acquire_order_snoc, grant_order_snoc, Hf.
    destruct e; try done; by rewrite !app_nil_r.
  - intros t k Hk. specialize (Hfe t k Hk). unfold fetched_ok in *.
    rewrite fetches_of_snoc.
    destruct e; try done; by rewrite app_nil_r.
  - intros t Ht. rewrite fetches_of_snoc, (Hfr t Ht).
    by destruct e.
Qed.

Lemma InvC_acquire cs m tr u c :
  InvC cs m tr u ->
  InvC (cs ++ [mkCall c AwaitLock])
    (mkMutex (count m) (waiting m ++ [length cs]))
    (tr ++ [Acquire (length cs)]) u.
Proof.
  intros [Hl Hf Hw Hn Hfe Hfr]. split; cbn.
  - destruct Hl as (h & Hh & Hok). exists h. split.
    + rewrite lock_holder_snoc, Hh. by destruct h.
    + revert Hok. apply holder_ok_ext; [done|].
      intros t. by apply cycling_snoc.
  - by rewrite acquire_order_snoc, grant_order_snoc, Hf, app_nil_r, app_assoc.
  - intros t [Ht|Ht]%elem_of_app.
    + destruct (Hw t Ht) as (c' & Hc'). exists c'.
      by apply lookup_app_l_Some.
    + apply list_elem_of_singleton in Ht. subst t. exists c.
      by rewrite lookup_app_r, Nat.sub_diag.
  - apply NoDup_app. split; [done|]. split; [|apply NoDup_singleton].
    intros t Ht Ht'. apply list_elem_of_singleton in Ht'. subst t.
    destruct (Hw _ Ht) as (c' & Hc'). apply lookup_lt_Some in Hc'. lia.
  - intros t k Hk. unfold fetched_ok. rewrite fetches_of_snoc, app_nil_r.
    apply lookup_app_Some in Hk as [Hk|[Hge Hk]].
    + by apply Hfe.
    + destruct (t - length cs)%nat eqn:E; [|by destruct n].
      cbn in Hk. injection Hk as <-. cbn. apply Hfr. lia.
  - intros t Ht. rewrite length_app in Ht. cbn in Ht.
    rewrite fetches_of_snoc, app_nil_r. apply Hfr. lia.
Qed.

Lemma InvC_grant cs n t rest tr u c :
  cs !! t = Some (mkCall c AwaitLock) ->
  InvC cs (mkMutex (S n) (t :: rest)) tr u ->
  InvC (<[t := mkCall c Locked]> cs) (mkMutex n rest) (tr ++ [Grant t]) u.
Proof.
  intros Ht [Hl Hf Hw Hn Hfe Hfr]. cbn in *.
  pose proof (lookup_lt_Some _ _ _ Ht) as Hlt.
  apply NoDup_cons in Hn as [Hnotin Hn].
  split; cbn.
  - destruct Hl as (h & Hh & Hok). destruct h as [t0|]; cbn in Hok.
    { destruct Hok as (Hc & _). cbn in Hc. lia. }
    destruct Hok as (Hc & Hnone). cbn in Hc.
    exists (Some t). split; [by rewrite lock_holder_snoc, Hh|].
    cbn. split; [lia|]. split.
    + apply cycling_insert; [done|]. by rewrite decide_True.
    + intros t' Ht'. apply cycling_insert in Ht'; [|done].
      case_decide; [done|]. by destruct (Hnone t').
  - by rewrite acquire_order_snoc, grant_order_snoc, Hf, app_nil_r,
      <- app_assoc.
  - intros t' Ht'. destruct (Hw t') as (c' & Hc'); [by right|].
    exists c'. rewrite list_lookup_insert_ne; [done|].
    intros ->. done.
  - done.
  - intros t' k Hk. unfold fetched_ok. rewrite fetches_of_snoc, app_nil_r.
    destruct (decide (t = t')) as [<-|Hne].
    + rewrite list_lookup_insert_eq in Hk by done. injection Hk as <-.
      cbn. apply (Hfe t _ Ht).
    + rewrite list_lookup_insert_ne in Hk by done. by apply Hfe.
  - intros t' Ht'. rewrite length_insert in Ht'.
    rewrite fetches_of_snoc, app_nil_r. by apply Hfr.
Qed.

Lemma InvC_fetch cs m tr u t c sn :
  cs !! t = Some (mkCall c Locked) ->
  InvC cs m tr u ->
  InvC (<[t := mkCall c (AwaitFetch sn)]> cs) m
    (tr ++ [Fetch t (quote_of sn) (base_of sn) u]) u.
Proof.
  intros Ht [Hl Hf Hw Hn Hfe Hfr].
  pose proof (lookup_lt_Some _ _ _ Ht) as Hlt.
  split.
  - destruct Hl as (h & Hh & Hok). exists h. split.
    + rewrite lock_holder_snoc, Hh.
      assert (cycling cs t) as Hcyc by (by eexists).
      destruct h as [t0|]; cbn in Hok.
      * destruct Hok as (_ & _ & Huniq). rewrite (Huniq t Hcyc).
        cbn. by rewrite Nat.eqb_refl.
      * destruct Hok as (_ & Hnone). by destruct (Hnone t).
    + revert Hok. apply holder_ok_ext; [done|].
      intros t'. rewrite cycling_insert by done. case_decide as Hd.
      * subst t'. split; [|done]. intros _. by eexists.
      * done.
  - by rewrite acquire_order_snoc, grant_order_snoc, Hf, !app_nil_r.
  - intros t' Ht'. destruct (Hw t' Ht') as (c' & Hc'). exists c'.
    rewrite list_lookup_insert_ne; [done|]. intros ->. congruence.
  - done.
  - intros t' k Hk. unfold fetched_ok. rewrite fetches_of_snoc.
    destruct (decide (t = t')) as [<-|Hne].
    + rewrite list_lookup_insert_eq in Hk by done. injection Hk as <-.
      cbn. rewrite Nat.eqb_refl.
      specialize (Hfe t _ Ht). unfold fetched_ok in Hfe. cbn in Hfe.
      by rewrite Hfe.
    + rewrite list_lookup_insert_ne in Hk by done.
      apply Nat.eqb_neq in Hne. rewrite Hne, app_nil_r. by apply Hfe.
  - intros t' Ht'. rewrite length_insert in Ht'.
    rewrite fetches_of_snoc.
    assert (Nat.eqb t t' = false) as -> by (apply Nat.eqb_neq; lia).
    rewrite app_nil_r. by apply Hfr.
Qed.

Lemma InvC_release cs m tr u t c sn o :
  cs !! t = Some (mkCall c (AwaitFetch sn)) ->
  InvC cs m tr u ->
  InvC (<[t := mkCall c (Settled o)]> cs)
    (mkMutex (S (count m)) (waiting m)) (tr ++ [Release t]) u.
Proof.
  intros Ht [Hl Hf Hw Hn Hfe Hfr].
  pose proof (lookup_lt_Some _ _ _ Ht) as Hlt.
  assert (cycling cs t) as Hcyc by (by eexists).
  split; cbn.
  - destruct Hl as (h & Hh & Hok). destruct h as [t0|]; cbn in Hok.
    2: { destruct Hok as (_ & Hnone). by destruct (Hnone t). }
    destruct Hok as (Hc & _ & Huniq).
    assert (t = t0) as <- by (by apply Huniq).
    exists None. split.
    + rewrite lock_holder_snoc, Hh. cbn. by rewrite Nat.eqb_refl.
    + cbn. split; [lia|]. intros t' Ht'.
      apply cycling_insert in Ht'; [|done].
      case_decide as Hd; [done|]. apply Hd. symmetry. by apply Huniq.
  - by rewrite acquire_order_snoc, grant_order_snoc, Hf, !app_nil_r.
  - intros t' Ht'. destruct (Hw t' Ht') as (c' & Hc'). exists c'.
    rewrite list_lookup_insert_ne; [done|]. intros ->. congruence.
  - done.
  - intros t' k Hk. unfold fetched_ok. rewrite fetches_of_snoc, app_nil_r.
    destruct (decide (t = t')) as [<-|Hne].
    + rewrite list_lookup_insert_eq in Hk by done. injection Hk as <-.
      cbn. specialize (Hfe t _ Ht). unfold fetched_ok in Hfe. cbn in Hfe.
      by rewrite Hfe.
    + rewrite list_lookup_insert_ne in Hk by done. by apply Hfe.
  - intros t' Ht'. rewrite length_insert in Ht'.
    rewrite fetches_of_snoc, app_nil_r. by apply Hfr.
Qed.

Lemma InvC_finish cs m tr u t c o :
  cs !! t = Some (mkCall c (Settled o)) ->
  InvC cs m tr u ->
  InvC (<[t := mkCall c Finished]> cs) m tr u.
Proof.
  intros Ht [Hl Hf Hw Hn Hfe Hfr].
  pose proof (lookup_lt_Some _ _ _ Ht) as Hlt.
  split.
  - destruct Hl as (h & Hh & Hok). exists h. split; [done|].
    revert Hok. apply holder_ok_ext; [done|].
    intros t'. rewrite cycling_insert by done. case_decide as Hd; [|done].
    subst t'. split; [done|]. intros (k & Hk & Hin).
    rewrite Ht in Hk. by injection Hk as <-.
  - done.
  - intros t' Ht'. destruct (Hw t' Ht') as (c' & Hc'). exists c'.
    rewrite list_lookup_insert_ne; [done|]. intros ->. congruence.
  - done.
  - intros t' k Hk. unfold fetched_ok.
    destruct (decide (t = t')) as [<-|Hne].
    + rewrite list_lookup_insert_eq in Hk by done. injection Hk as <-.
      cbn. apply (Hfe t _ Ht).
    + rewrite list_lookup_insert_ne in Hk by done. by apply Hfe.
  - intros t' Ht'. rewrite length_insert in Ht'. by apply Hfr.
Qed.

End LockInvariant.

(** ** Currency rate: every step keeps the invariant *)

Section StepFacts.

Lemma set_pc_known t c p0 p s :
  calls s !! t = Some (mkCall c p0) ->
  set_pc t p s = with_calls (<[t := mkCall c p]> (calls s)) s.
Proof. intros H. unfold set_pc. by rewrite H. Qed.

Lemma Inv_frame s s' :
  calls s' = calls s -> mutex s' = mutex s -> trace s' = trace s ->
  includeUsdRate s' = includeUsdRate s ->
  Inv s -> Inv s'.
Proof. unfold Inv. by intros -> -> -> ->. Qed.

Lemma Inv_emit e s : quiet e = true -> Inv s -> Inv (emit e s).
Proof. intros Hq H. unfold Inv. cbn. by apply InvC_quiet. Qed.

Lemma Inv_update f s : Inv s -> Inv (update f s).
Proof.
  intros H. unfold update. apply Inv_emit; [done|].
  revert H. by apply Inv_frame.
Qed.

Lemma Inv_call c s : Inv s -> Inv (updateExchangeRate_call c s).
Proof.
  intros H. unfold Inv, updateExchangeRate_call, acquire. cbn.
  by apply InvC_acquire.
Qed.

Lemma Inv_sched s : Inv s -> Inv (sched s).
Proof.
  intros H. unfold sched.
  destruct (mutex s) as [n w] eqn:Hm. cbn.
  destruct n as [|n]; [done|]. destruct w as [|t rest]; [done|].
  unfold Inv in H. rewrite Hm in H.
  destruct (inv_waiting _ _ _ _ H t) as (c & Hc); [by left|].
  rewrite (set_pc_known t c AwaitLock) by done.
  unfold Inv. cbn. by apply InvC_grant.
Qed.

Lemma Inv_locked t c s :
  calls s !! t = Some (mkCall c Locked) ->
  Inv s -> Inv (updateExchangeRate_locked t s).
Proof.
  intros Ht H. unfold updateExchangeRate_locked.
  rewrite (set_pc_known t c Locked) by done.
  unfold Inv. cbn. by apply InvC_fetch.
Qed.

Lemma Inv_release_settle t c sn o s :
  calls s !! t = Some (mkCall c (AwaitFetch sn)) ->
  Inv s ->
  Inv (emit (Settle t o) (set_pc t (Settled o) (releaseLock t s))).
Proof.
  intros Ht H. unfold releaseLock, sched. cbn.
  destruct (waiting (mutex s)) as [|t' rest] eqn:Hw.
  - rewrite (set_pc_known t c (AwaitFetch sn)) by done.
    unfold Inv. cbn. apply InvC_quiet; [done|].
    rewrite <- Hw. by apply (InvC_release _ _ _ _ t c sn).
  - destruct (inv_waiting _ _ _ _ H t') as (c' & Hc').
    { rewrite Hw. by left. }
    assert (t <> t') as Hne by congruence.
    pose proof (lookup_lt_Some _ _ _ Ht) as Hlt.
    pose proof (lookup_lt_Some _ _ _ Hc') as Hlt'.
    rewrite (set_pc_known t' c' AwaitLock) by done. cbn.
    rewrite (set_pc_known t c (AwaitFetch sn)); cbn.
    2: { by rewrite list_lookup_insert_ne. }
    unfold Inv. cbn. apply InvC_quiet; [done|].
    rewrite list_insert_insert_ne by done.
    apply InvC_grant.
    { by rewrite list_lookup_insert_ne. }
    rewrite <- Hw. by apply (InvC_release _ _ _ _ t c sn).
Qed.

Lemma Inv_fetched t c sn s :
  calls s !! t = Some (mkCall c (AwaitFetch sn)) ->
  Inv s -> Inv (updateExchangeRate_fetched t sn s).
Proof.
  intros Ht H. unfold updateExchangeRate_fetched.
  destruct (fetchExchangeRate s t _ _ _) as [r|e].
  - apply (Inv_release_settle t c sn); [done|]. by apply Inv_update.
  - by apply (Inv_release_settle t c sn).
Qed.

Lemma Inv_clearTimeout h s : Inv s -> Inv (clearTimeout h s).
Proof. by apply Inv_frame. Qed.

Lemma Inv_poll s : Inv s -> Inv (poll s).
Proof.
  intros H. unfold poll. apply Inv_call.
  destruct (handle s); [by apply Inv_clearTimeout | done].
Qed.

Lemma Inv_poll_resumed s : Inv s -> Inv (poll_resumed s).
Proof.
  intros H. unfold poll_resumed, setTimeout. cbn.
  unfold Inv. cbn. by apply InvC_quiet.
Qed.

Lemma Inv_destroy s : Inv s -> Inv (destroy s).
Proof.
  intros H. unfold destroy, super_destroy.
  assert (Inv (emit Destroyed s)) as H' by (by apply Inv_emit).
  destruct (handle (emit Destroyed s)); [by apply Inv_clearTimeout | done].
Qed.

Lemma Inv_resumed t c o s :
  calls s !! t = Some (mkCall c (Settled o)) ->
  Inv s -> Inv (resumed t c o s).
Proof.
  intros Ht H. unfold resumed.
  rewrite (set_pc_known t c (Settled o)) by done.
  assert (Inv (with_calls (<[t:=mkCall c Finished]> (calls s)) s)) as H'.
  { unfold Inv. cbn. by apply (InvC_finish _ _ _ _ t c o). }
  destruct c.
  - destruct (await_then _ _).
    + apply Inv_emit; [done|]. by apply Inv_poll_resumed.
    + by apply Inv_emit.
  - by apply Inv_emit.
  - by apply Inv_emit.
  - done.
Qed.

Theorem step_Inv l s s' : Inv s -> step l s = Some s' -> Inv s'.
Proof.
  intros H Hs. destruct l; cbn in Hs.
  - injection Hs as <-. unfold setCurrentCurrency.
    by apply Inv_call, Inv_update.
  - injection Hs as <-. unfold setNativeCurrency.
    by apply Inv_call, Inv_update.
  - injection Hs as <-. by apply Inv_call.
  - injection Hs as <-. by apply Inv_poll.
  - injection Hs as <-. by apply Inv_destroy.
  - injection Hs as <-. by apply Inv_sched.
  - destruct (calls s !! t) as [[c p]|] eqn:Ht; [|done].
    destruct p; try done. injection Hs as <-. by apply (Inv_locked t c).
  - destruct (calls s !! t) as [[c p]|] eqn:Ht; [|done].
    destruct p; try done. injection Hs as <-. by apply (Inv_fetched t c).
  - destruct (calls s !! t) as [[c p]|] eqn:Ht; [|done].
    destruct p; try done. injection Hs as <-. by apply Inv_resumed.
  - destruct (timer_due h s); [|done]. injection Hs as <-.
    by apply Inv_poll, Inv_clearTimeout.
  - destruct (Z.leb 0 d); [|done]. injection Hs as <-.
    revert H. by apply Inv_frame.
Qed.

Lemma run_Inv ls s s' : Inv s -> run ls s = Some s' -> Inv s'.
Proof.
  revert s. induction ls as [|l ls IH]; intros s H Hr; cbn in Hr.
  - by injection Hr as <-.
  - destruct (step l s) as [s1|] eqn:Hs; [|done].
    apply (IH s1); [|done]. by apply (step_Inv l s).
Qed.

Lemma constructor_Inv d st usd src : Inv (constructor d st usd src).
Proof.
  unfold constructor. apply Inv_poll. unfold Inv. cbn.
  split; cbn; try done.
  - exists None. split; [done|]. cbn. split; [done|].
    intros t (k & Hk & _). done.
  - intros t Ht. by apply elem_of_nil in Ht.
  - apply NoDup_nil_2.
Qed.

End StepFacts.

(** ** Currency rate: what each segment does to the state and the calls *)

Section Progress.

Lemma state_set_pc t p s : state (set_pc t p s) = state s.
Proof. unfold set_pc. by destruct (calls s !! t). Qed.

Lemma state_sched s : state (sched s) = state s.
Proof.
  unfold sched. destruct (count (mutex s)); [done|].
  destruct (waiting (mutex s)); [done|]. cbn. by rewrite state_set_pc.
Qed.

Lemma state_releaseLock t s : state (releaseLock t s) = state s.
Proof. unfold releaseLock. by rewrite state_sched. Qed.

Lemma state_poll s : state (poll s) = state s.
Proof. unfold poll. by destruct (handle s). Qed.

Lemma state_destroy s : state (destroy s) = state s.
Proof. unfold destroy, super_destroy. cbn. by destruct (handle s). Qed.

Lemma state_resumed t c o s : state (resumed t c o s) = state s.
Proof.
  unfold resumed. destruct c; cbn; try apply state_set_pc.
  destruct (await_then _ _); cbn; apply state_set_pc.
Qed.

Lemma state_fetched t sn s :
  state (updateExchangeRate_fetched t sn s) =
  match fetchExchangeRate s t (quote_of sn) (base_of sn) (includeUsdRate s)
  with
  | Fulfilled r => committed sn r
  | Rejected _ => state s
  end.
Proof.
  unfold updateExchangeRate_fetched.
  destruct (fetchExchangeRate s t _ _ _); cbv zeta beta iota;
    change (state (emit ?e ?x)) with (state x);
    by rewrite state_set_pc, state_releaseLock.
Qed.

Lemma Inv_waiting_ok s : Inv s -> waiting_ok s.
Proof. intros H. exact (inv_waiting _ _ _ _ H). Qed.

Lemma calls_set_pc_eq t c p0 p s :
  calls s !! t = Some (mkCall c p0) ->
  calls (set_pc t p s) !! t = Some (mkCall c p).
Proof.
  intros H. rewrite (set_pc_known t c p0) by done. cbn.
  apply list_lookup_insert_eq. by apply lookup_lt_Some in H.
Qed.

Lemma calls_set_pc_ne t t' p s :
  t <> t' -> calls (set_pc t' p s) !! t = calls s !! t.
Proof.
  intros Hne. unfold set_pc. destruct (calls s !! t'); [|done].
  cbn. by rewrite list_lookup_insert_ne.
Qed.

(** [sched] moves at most the first waiter, from the queue to the lock. *)
Lemma calls_sched t c p s :
  waiting_ok s ->
  calls s !! t = Some (mkCall c p) ->
  exists p', calls (sched s) !! t = Some (mkCall c p')
             /\ (p' = p \/ (p = AwaitLock /\ p' = Locked)).
Proof.
  intros Hw Ht. unfold sched.
  destruct (count (mutex s)); [by exists p; auto|].
  destruct (waiting (mutex s)) as [|t' rest] eqn:E; [by exists p; auto|].
  cbn. destruct (Hw t') as (c' & Hc'); [rewrite E; by left|].
  destruct (decide (t = t')) as [->|Hne].
  - rewrite Ht in Hc'. injection Hc' as -> ->.
    exists Locked. split; [|by right].
    by apply (calls_set_pc_eq t' c' AwaitLock).
  - exists p. split; [|by left]. by rewrite calls_set_pc_ne.
Qed.

Lemma calls_call t k c s :
  calls s !! t = Some k ->
  calls (updateExchangeRate_call c s) !! t = Some k.
Proof. intros H. cbn. by apply lookup_app_l_Some. Qed.

Lemma calls_poll t k s :
  calls s !! t = Some k -> calls (poll s) !! t = Some k.
Proof.
  intros H. unfold poll. apply calls_call. by destruct (handle s).
Qed.

Lemma calls_destroy s : calls (destroy s) = calls s.
Proof. unfold destroy, super_destroy. cbn. by destruct (handle s). Qed.

Lemma calls_resumed t c o s :
  calls s !! t = Some (mkCall c (Settled o)) ->
  calls (resumed t c o s) = <[t := mkCall c Finished]> (calls s).
Proof.
  intros Ht. unfold resumed.
  rewrite (set_pc_known t c (Settled o)) by done.
  destruct c; cbn; try done. by destruct (await_then _ _).
Qed.

Lemma calls_locked t c s :
  calls s !! t = Some (mkCall c Locked) ->
  exists sn,
    calls (updateExchangeRate_locked t s) =
    <[t := mkCall c (AwaitFetch sn)]> (calls s)
    /\ snap_currentCurrency sn = currentCurrency (state s)
    /\ snap_nativeCurrency sn = nativeCurrency (state s)
    /\ snap_pendingCurrentCurrency sn = pendingCurrentCurrency (state s)
    /\ snap_pendingNativeCurrency sn = pendingNativeCurrency (state s).
Proof.
  intros Ht. unfold updateExchangeRate_locked.
  rewrite (set_pc_known t c Locked) by done. cbn. by eexists.
Qed.

(** The call that releases ends up [Settled]; the others are where they
    were, except for the first waiter, which may get the lock. *)
Lemma calls_release_settle t0 c0 sn o s :
  waiting_ok s ->
  calls s !! t0 = Some (mkCall c0 (AwaitFetch sn)) ->
  let s' := emit (Settle t0 o) (set_pc t0 (Settled o) (releaseLock t0 s)) in
  calls s' !! t0 = Some (mkCall c0 (Settled o))
  /\ forall t c p, t <> t0 -> calls s !! t = Some (mkCall c p) ->
       exists p', calls s' !! t = Some (mkCall c p')
                  /\ (p' = p \/ (p = AwaitLock /\ p' = Locked)).
Proof.
  intros Hw Ht0 s'. subst s'.
  change (calls (emit ?e ?x)) with (calls x).
  unfold releaseLock.
  set (s2 := emit (Release t0)
               (with_mutex (mkMutex (S (count (mutex s)))
                              (waiting (mutex s))) s)).
  assert (waiting_ok s2) as Hw2 by (intros t Hin; by apply Hw).
  assert (calls s2 = calls s) as Hc2 by done.
  split.
  - destruct (calls_sched t0 c0 (AwaitFetch sn) s2 Hw2) as (p' & Hp' & Hor).
    { by rewrite Hc2. }
    by apply (calls_set_pc_eq t0 c0 p').
  - intros t c p Hne Ht. rewrite calls_set_pc_ne by done.
    apply calls_sched; [done|]. by rewrite Hc2.
Qed.

Lemma calls_fetched t0 c0 sn s :
  waiting_ok s ->
  calls s !! t0 = Some (mkCall c0 (AwaitFetch sn)) ->
  let s' := updateExchangeRate_fetched t0 sn s in
  calls s' !! t0 =
    Some (mkCall c0
            (Settled
               match fetchExchangeRate s t0 (quote_of sn) (base_of sn)
                       (includeUsdRate s) with
               | Fulfilled _ => Fulfilled None
               | Rejected e => Rejected e
               end))
  /\ forall t c p, t <> t0 -> calls s !! t = Some (mkCall c p) ->
       exists p', calls s' !! t = Some (mkCall c p')
                  /\ (p' = p \/ (p = AwaitLock /\ p' = Locked)).
Proof.
  intros Hw Ht0 s'. subst s'. unfold updateExchangeRate_fetched.
  destruct (fetchExchangeRate s t0 _ _ _) as [r|e]; cbv zeta beta iota.
  - exact (calls_release_settle t0 c0 sn (Fulfilled None)
             (update (fun _ => committed sn r) s) Hw Ht0).
  - exact (calls_release_settle t0 c0 sn (Rejected e) s Hw Ht0).
Qed.

End Progress.

(** ** Currency rate: how a call advances, and what a step writes *)

Section Advance.

Lemma step_call l s s' t c p :
  Inv s -> step l s = Some s' -> calls s !! t = Some (mkCall c p) ->
  exists p', calls s' !! t = Some (mkCall c p')
             /\ (p' = p \/ advance l t p p').
Proof.
  intros HI Hs Ht. pose proof (Inv_waiting_ok s HI) as Hw.
  assert (forall p',
            (p' = p \/ p = AwaitLock /\ p' = Locked) ->
            p' = p \/ advance l t p p') as Hadm.
  { intros p' [->|[-> ->]]; [by left | by right]. }
  destruct l; cbn in Hs.
  - injection Hs as <-. exists p. split; [|by left].
    unfold setCurrentCurrency. by apply calls_call.
  - injection Hs as <-. exists p. split; [|by left].
    unfold setNativeCurrency. by apply calls_call.
  - injection Hs as <-. exists p. split; [|by left]. by apply calls_call.
  - injection Hs as <-. exists p. split; [|by left]. by apply calls_poll.
  - injection Hs as <-. exists p. split; [|by left].
    by rewrite calls_destroy.
  - injection Hs as <-.
    destruct (calls_sched t c p s Hw Ht) as (p' & Hp' & Hor).
    exists p'. split; [done|]. by apply Hadm.
  - destruct (calls s !! t0) as [[c0 p0]|] eqn:Ht0; [|done].
    destruct p0; try done. injection Hs as <-.
    destruct (calls_locked t0 c0 s Ht0) as (sn & Hcalls & _).
    rewrite Hcalls. destruct (decide (t0 = t)) as [->|Hne].
    + rewrite Ht in Ht0. injection Ht0 as -> ->.
      exists (AwaitFetch sn). split.
      * apply list_lookup_insert_eq. by apply lookup_lt_Some in Ht.
      * right. cbn. split; [done|]. by exists sn.
    + exists p. split; [|by left]. by rewrite list_lookup_insert_ne.
  - destruct (calls s !! t0) as [[c0 p0]|] eqn:Ht0; [|done].
    destruct p0 as [| |sn| |]; try done. injection Hs as <-.
    destruct (calls_fetched t0 c0 sn s Hw Ht0) as (Hself & Hothers).
    destruct (decide (t = t0)) as [->|Hne].
    + rewrite Ht in Ht0. injection Ht0 as -> ->.
      eexists. split; [exact Hself|]. right. cbn. split; [done|].
      by eexists.
    + destruct (Hothers t c p Hne Ht) as (p' & Hp' & Hor).
      exists p'. split; [done|]. by apply Hadm.
  - destruct (calls s !! t0) as [[c0 p0]|] eqn:Ht0; [|done].
    destruct p0 as [| | |o|]; try done. injection Hs as <-.
    rewrite (calls_resumed t0 c0 o s Ht0).
    destruct (decide (t0 = t)) as [->|Hne].
    + rewrite Ht in Ht0. injection Ht0 as -> ->.
      exists Finished. split.
      * apply list_lookup_insert_eq. by apply lookup_lt_Some in Ht.
      * by right.
    + exists p. split; [|by left]. by rewrite list_lookup_insert_ne.
  - destruct (timer_due h s); [|done]. injection Hs as <-.
    exists p. split; [|by left]. by apply calls_poll.
  - destruct (Z.leb 0 d); [|done]. injection Hs as <-.
    exists p. by split; [|left].
Qed.

Lemma same_confirmed_refl a : same_confirmed a a.
Proof. by repeat split. Qed.

Lemma same_confirmed_trans a b c :
  same_confirmed a b -> same_confirmed b c -> same_confirmed a c.
Proof.
  intros (?&?&?&?&?) (?&?&?&?&?). repeat split; congruence.
Qed.

(** Outside the settlement of a fetch, a step writes at most a pending
    field, and only when it is a currency-change request. *)
Lemma step_state l s s' :
  step l s = Some s' ->
  (forall t, l <> FetchSettles t) ->
  same_confirmed (state s) (state s')
  /\ (is_request l = false -> state s' = state s).
Proof.
  intros Hs Hl. destruct l; cbn in Hs.
  - injection Hs as <-. split; [by repeat split | done].
  - injection Hs as <-. split; [by repeat split | done].
  - injection Hs as <-. split; [apply same_confirmed_refl | done].
  - injection Hs as <-. rewrite state_poll.
    split; [apply same_confirmed_refl | done].
  - injection Hs as <-. rewrite state_destroy.
    split; [apply same_confirmed_refl | done].
  - injection Hs as <-. rewrite state_sched.
    split; [apply same_confirmed_refl | done].
  - destruct (calls s !! t) as [[c0 p0]|]; [|done].
    destruct p0; try done. injection Hs as <-.
    unfold updateExchangeRate_locked. rewrite state_set_pc. cbn.
    split; [apply same_confirmed_refl | done].
  - by destruct (Hl t).
  - destruct (calls s !! t) as [[c0 p0]|]; [|done].
    destruct p0; try done. injection Hs as <-. rewrite state_resumed.
    split; [apply same_confirmed_refl | done].
  - destruct (timer_due h s); [|done]. injection Hs as <-.
    rewrite state_poll. cbn. split; [apply same_confirmed_refl | done].
  - destruct (Z.leb 0 d); [|done]. injection Hs as <-. cbn.
    split; [apply same_confirmed_refl | done].
Qed.

Lemma run_done ls s s' t c p :
  Inv s -> run ls s = Some s' ->
  calls s !! t = Some (mkCall c p) -> is_done p = true ->
  exists p', calls s' !! t = Some (mkCall c p') /\ is_done p' = true.
Proof.
  revert s p. induction ls as [|l ls IH]; intros s p HI Hr Ht Hd; cbn in Hr.
  - injection Hr as <-. by exists p.
  - destruct (step l s) as [s1|] eqn:Hs; [|done].
    destruct (step_call l s s1 t c p HI Hs Ht) as (p1 & Hp1 & Hor).
    apply (IH s1 p1); [by apply (step_Inv l s) | done | done |].
    destruct Hor as [->|Hadv]; [done|].
    destruct p; try done. cbn in Hadv. by destruct Hadv as [_ ->].
Qed.

(** While call [t] awaits the rate source, no step writes a confirmed
    field: the only step that could is the settlement of a fetch, and
    the call whose fetch settles holds the lock, so it is [t] itself. *)
Lemma run_while_fetching ls s s' t c sn c' sn' :
  Inv s -> run ls s = Some s' ->
  calls s !! t = Some (mkCall c (AwaitFetch sn)) ->
  calls s' !! t = Some (mkCall c' (AwaitFetch sn')) ->
  c' = c /\ sn' = sn
  /\ same_confirmed (state s) (state s')
  /\ (forallb (fun l => negb (is_request l)) ls = true -> state s' = state s).
Proof.
  revert s. induction ls as [|l ls IH]; intros s HI Hr Ht Ht'; cbn in Hr.
  - injection Hr as <-. rewrite Ht in Ht'. injection Ht' as <- <-.
    split; [done|]. split; [done|]. split; [apply same_confirmed_refl|done].
  - destruct (step l s) as [s1|] eqn:Hs; [|done].
    pose proof (step_Inv l s s1 HI Hs) as HI1.
    destruct (step_call l s s1 t c _ HI Hs Ht) as (p1 & Hp1 & Hor).
    destruct Hor as [->|Hadv].
    + assert (forall t0, l <> FetchSettles t0) as Hl.
      { intros t0 ->. cbn in Hs.
        destruct (calls s !! t0) as [[c0 p0]|] eqn:Ht0; [|done].
        destruct p0 as [| |sn0| |]; try done.
        assert (t0 = t) as ->.
        { destruct (inv_lock _ _ _ _ HI) as (h & _ & Hok).
          assert (cycling (calls s) t0) as H0 by (by eexists).
          assert (cycling (calls s) t) as H1 by (by eexists).
          destruct h as [th|]; cbn in Hok.
          - destruct Hok as (_ & _ & Huniq).
            by rewrite (Huniq t0 H0), (Huniq t H1).
          - destruct Hok as (_ & Hnone). by destruct (Hnone t). }
        rewrite Ht in Ht0. injection Ht0 as <- <-. injection Hs as <-.
        destruct (calls_fetched t c sn s (Inv_waiting_ok s HI) Ht)
          as (Hself & _).
        rewrite Hself in Hp1. done. }
      destruct (step_state l s s1 Hs Hl) as (Hconf & Hsame).
      destruct (IH s1 HI1 Hr Hp1 Ht') as (-> & -> & Hconf' & Hsame').
      split; [done|]. split; [done|]. split.
      * by apply (same_confirmed_trans _ (state s1)).
      * cbn. intros [Hq Hqs]%andb_true_iff.
        rewrite (Hsame' Hqs). apply Hsame. by apply negb_true_iff.
    + cbn in Hadv. destruct Hadv as (_ & o & ->).
      destruct (run_done ls s1 s' t c (Settled o) HI1 Hr Hp1 eq_refl)
        as (p' & Hp' & Hd).
      rewrite Ht' in Hp'. by injection Hp' as <- <-.
Qed.

End Advance.

(** ** Currency rate: what each segment adds to the trace *)

Section TraceGrowth.

Lemma trace_set_pc t p s : trace (set_pc t p s) = trace s.
Proof. unfold set_pc. by destruct (calls s !! t). Qed.

Lemma trace_sched s : trace (sched s) = trace s ++ granted (mutex s).
Proof.
  unfold sched, granted. destruct (count (mutex s)).
  - by rewrite app_nil_r.
  - destruct (waiting (mutex s)); [by rewrite app_nil_r|].
    cbn. by rewrite trace_set_pc.
Qed.

Lemma trace_releaseLock t s :
  trace (releaseLock t s) =
  trace s ++ Release t ::
    granted (mkMutex (S (count (mutex s))) (waiting (mutex s))).
Proof. unfold releaseLock. rewrite trace_sched. cbn. by rewrite <- app_assoc. Qed.

Lemma publications_app a b :
  publications (a ++ b) = publications a ++ publications b.
Proof. apply omap_app. Qed.

Lemma publications_cons e tr :
  publications (e :: tr) =
  match e with
  | StateChanged st => st :: publications tr
  | _ => publications tr
  end.
Proof. by destruct e. Qed.

Lemma publications_granted m : publications (granted m) = [].
Proof. unfold granted. destruct (count m); [done|]. by destruct (waiting m). Qed.

Lemma trace_update f s :
  trace (update f s) = trace s ++ [StateChanged (f (state s))].
Proof. reflexivity. Qed.

Lemma calls_update f s : calls (update f s) = calls s.
Proof. reflexivity. Qed.

Lemma trace_call c s :
  trace (updateExchangeRate_call c s) = trace s ++ [Acquire (length (calls s))].
Proof. reflexivity. Qed.

Lemma trace_poll s : trace (poll s) = trace s ++ [Acquire (length (calls s))].
Proof. unfold poll. by destruct (handle s). Qed.

Lemma trace_destroy s : trace (destroy s) = trace s ++ [Destroyed].
Proof. unfold destroy, super_destroy. cbn. by destruct (handle s). Qed.

Lemma trace_fetched t sn s :
  trace (updateExchangeRate_fetched t sn s) =
  trace s ++
    match fetchExchangeRate s t (quote_of sn) (base_of sn) (includeUsdRate s)
    with
    | Fulfilled r =>
        StateChanged (committed sn r) :: Release t ::
          granted (mkMutex (S (count (mutex s))) (waiting (mutex s)))
          ++ [Settle t (Fulfilled None)]
    | Rejected e =>
        Release t ::
          granted (mkMutex (S (count (mutex s))) (waiting (mutex s)))
          ++ [Settle t (Rejected e)]
    end.
Proof.
  unfold updateExchangeRate_fetched.
  destruct (fetchExchangeRate s t _ _ _); cbv zeta beta iota;
    change (trace (emit ?e ?x)) with (trace x ++ [e]);
    rewrite trace_set_pc, trace_releaseLock; cbn;
    by rewrite <- !app_assoc.
Qed.

(** [safelyExecute] never rejects, so neither does what awaits it. *)
Lemma await_safelyExecute {A : Type} (o : Outcome A) :
  await_then (safelyExecute o) (fun _ => Fulfilled tt) = Fulfilled tt.
Proof. by destruct o. Qed.

Lemma trace_resumed t c o s :
  trace (resumed t c o s) =
  trace s ++
    match c with
    | Poll =>
        [TimerSet (next_timer s) (now s + interval s);
         Return t Poll (Fulfilled tt)]
    | SetCurrentCurrency => [Return t SetCurrentCurrency (Fulfilled tt)]
    | SetNativeCurrency => [Return t SetNativeCurrency (Fulfilled tt)]
    | Direct => []
    end.
Proof.
  unfold resumed. rewrite await_safelyExecute.
  destruct c; cbn; rewrite ?trace_set_pc, ?app_nil_r; try done.
  unfold set_pc. destruct (calls s !! t); cbn; by rewrite <- app_assoc.
Qed.

Lemma step_trace l s s' :
  step l s = Some s' ->
  exists new, trace s' = trace s ++ new /\ Forall not_rejected new.
Proof.
  intros Hs. destruct l; cbn in Hs.
  - injection Hs as <-. eexists. split.
    + cbn. rewrite <- app_assoc. reflexivity.
    + by repeat constructor.
  - injection Hs as <-. eexists. split.
    + cbn. rewrite <- app_assoc. reflexivity.
    + by repeat constructor.
  - injection Hs as <-. eexists. split; [reflexivity|].
    by repeat constructor.
  - injection Hs as <-. rewrite trace_poll. eexists. split; [done|].
    by repeat constructor.
  - injection Hs as <-. rewrite trace_destroy. eexists. split; [done|].
    by repeat constructor.
  - injection Hs as <-. rewrite trace_sched. eexists. split; [done|].
    unfold granted. destruct (count (mutex s)); [constructor|].
    destruct (waiting (mutex s)); by repeat constructor.
  - destruct (calls s !! t) as [[c0 p0]|]; [|done].
    destruct p0; try done. injection Hs as <-.
    unfold updateExchangeRate_locked. rewrite trace_set_pc. cbn.
    eexists. split; [done|]. by repeat constructor.
  - destruct (calls s !! t) as [[c0 p0]|]; [|done].
    destruct p0; try done. injection Hs as <-. rewrite trace_fetched.
    eexists. split; [done|].
    destruct (fetchExchangeRate s t _ _ _); repeat constructor;
      apply Forall_app; (split; [|by repeat constructor]);
      unfold granted; cbn; destruct (waiting (mutex s));
      by repeat constructor.
  - destruct (calls s !! t) as [[c0 p0]|]; [|done].
    destruct p0; try done. injection Hs as <-. rewrite trace_resumed.
    eexists. split; [done|]. destruct c0; by repeat constructor.
  - destruct (timer_due h s); [|done]. injection Hs as <-.
    rewrite trace_poll. eexists. split; [done|]. by repeat constructor.
  - destruct (Z.leb 0 d); [|done]. injection Hs as <-.
    exists []. by rewrite app_nil_r.
Qed.

Lemma run_trace ls s s' :
  run ls s = Some s' ->
  exists new, trace s' = trace s ++ new /\ Forall not_rejected new.
Proof.
  revert s. induction ls as [|l ls IH]; intros s Hr; cbn in Hr.
  - injection Hr as <-. exists []. by rewrite app_nil_r.
  - destruct (step l s) as [s1|] eqn:Hs; [|done].
    destruct (step_trace l s s1 Hs) as (n1 & H1 & F1).
    destruct (IH s1 Hr) as (n2 & H2 & F2).
    exists (n1 ++ n2). split.
    + by rewrite H2, H1, app_assoc.
    + by apply Forall_app.
Qed.

End TraceGrowth.

(** ** Currency rate: reachable states *)

Section Reachability.

Lemma reachable_Inv dflt st usd src ls s :
  run ls (constructor dflt st usd src) = Some s -> Inv s.
Proof. apply run_Inv, constructor_Inv. Qed.

Lemma cycling_unique s t1 t2 :
  Inv s -> cycling (calls s) t1 -> cycling (calls s) t2 -> t1 = t2.
Proof.
  intros HI H1 H2. destruct (inv_lock _ _ _ _ HI) as (h & _ & Hok).
  destruct h as [t|]; cbn in Hok.
  - destruct Hok as (_ & _ & Huniq). by rewrite (Huniq t1), (Huniq t2).
  - destruct Hok as (_ & Hnone). by destruct (Hnone t1).
Qed.

End Reachability.

(** C1: in every state any interleaving of timer ticks, currency-change
    requests, direct refreshes and teardown can reach, at most one call of
    [updateExchangeRate] is inside its fetch-and-commit cycle; over the
    whole trace grants and releases of the lock alternate, the rate source
    is only ever invoked by the call that holds the lock, and the lock is
    granted in the order in which the calls asked for it. *)
Theorem refresh_cycles_serialized :
  forall (dflt : RateSource)
         (st : option PartialState) (usd : option bool)
         (src : option RateSource)
         (ls : list Label) (s : Sys),
    run ls (constructor dflt st usd src) = Some s ->
    (forall t1 t2,
        cycling (calls s) t1 ->
        cycling (calls s) t2 -> t1 = t2)
    /\ (exists h,
          lock_holder None (trace s) = Some h
          /\ forall t, cycling (calls s) t <-> h = Some t)
    /\ grant_order (trace s)
         `prefix_of` acquire_order (trace s).
Proof.
  intros dflt st usd src ls s Hr.
  pose proof (reachable_Inv _ _ _ _ _ _ Hr) as HI.
  split; [|split].
  - intros t1 t2. by apply cycling_unique.
  - destruct (inv_lock _ _ _ _ HI) as (h & Hh & Hok).
    exists h. split; [done|]. intros t. destruct h as [t0|]; cbn in Hok.
    + destruct Hok as (_ & Hin & Huniq). split.
      * intros Ht. by rewrite (Huniq t Ht).
      * by intros [= ->].
    + destruct Hok as (_ & Hnone). split; [|done].
      intros Ht. by destruct (Hnone t).
  - exists (waiting (mutex s)).
    exact (inv_fifo _ _ _ _ HI).
Qed.

(** A run with a timer tick, two currency-change requests and a direct
    refresh queued behind the first fetch. *)
Lemma refresh_cycles_serialized_witness :
  exists s,
    run
      [NextTick; Resume 0;
       CallSetCurrentCurrency "eur";
       CallSetNativeCurrency "BTC";
       CallUpdateExchangeRate;
       FetchSettles 0; Continue 0;
       Resume 1; FetchSettles 1;
       Resume 2]
      Scenario.fresh = Some s
    /\ (forall t1 t2,
          cycling (calls s) t1 ->
          cycling (calls s) t2 -> t1 = t2)
    /\ (exists h,
          lock_holder None (trace s) = Some h
          /\ forall t, cycling (calls s) t <-> h = Some t)
    /\ grant_order (trace s)
         `prefix_of` acquire_order (trace s).
Proof.
  eexists. split; [vm_compute; reflexivity|].
  apply (refresh_cycles_serialized Scenario.steady None None None
           [NextTick; Resume 0;
            CallSetCurrentCurrency "eur";
            CallSetNativeCurrency "BTC";
            CallUpdateExchangeRate;
            FetchSettles 0; Continue 0;
            Resume 1; FetchSettles 1;
            Resume 2]).
  vm_compute. reflexivity.
Defined.

(** C2: when the rate source answers call [t], the settlement step
    replaces the state in one go: the quote and base that were handed to
    the rate source become [currentCurrency] and [nativeCurrency], the
    date and the rates come from the answer, both pending fields are
    null.  The step publishes exactly one state, the complete new one,
    before the lock is released; no state in between is published. *)
Theorem successful_fetch_commits_once :
  forall (dflt : RateSource) (st : option PartialState) (usd : option bool)
         (src : option RateSource) (ls : list Label) (s : Sys)
         (t : CallId) (c : Caller) (sn : Snapshot) (r : FetchResult),
    run ls (constructor dflt st usd src) = Some s ->
    calls s !! t = Some (mkCall c (AwaitFetch sn)) ->
    fetchExchangeRate s t (quote_of sn) (base_of sn) (includeUsdRate s)
      = Fulfilled r ->
    exists s' quote base tail,
      step (FetchSettles t) s = Some s'
      /\ fetches_of t (trace s) = [(quote, base, includeUsdRate s)]
      /\ state s' =
         {| conversionDate := fetched_conversionDate r;
            conversionRate := fetched_conversionRate r;
            currentCurrency := quote;
            nativeCurrency := base;
            pendingCurrentCurrency := None;
            pendingNativeCurrency := None;
            usdConversionRate := fetched_usdConversionRate r |}
      /\ trace s' = trace s ++ StateChanged (state s') :: Release t :: tail
      /\ publications tail = [].
Proof.
  intros dflt st usd src ls s t c sn r Hr Ht Hf.
  pose proof (reachable_Inv _ _ _ _ _ _ Hr) as HI.
  exists (updateExchangeRate_fetched t sn s), (quote_of sn), (base_of sn).
  eexists. split; [cbn; by rewrite Ht|]. split.
  { exact (inv_fetch _ _ _ _ HI t _ Ht). }
  rewrite state_fetched, trace_fetched, Hf. split; [done|].
  split; [reflexivity|].
  by rewrite publications_app, publications_granted.
Qed.

Lemma successful_fetch_commits_once_witness :
  exists s s' quote base tail,
    run [NextTick; Resume 0; CallSetCurrentCurrency "eur"] Scenario.fresh
      = Some s
    /\ step (FetchSettles 0) s = Some s'
    /\ fetches_of 0 (trace s) = [(quote, base, includeUsdRate s)]
    /\ state s' =
       {| conversionDate := (1000 # 1)%Q;
          conversionRate := (91 # 100)%Q;
          currentCurrency := quote;
          nativeCurrency := base;
          pendingCurrentCurrency := None;
          pendingNativeCurrency := None;
          usdConversionRate := None |}
    /\ trace s' = trace s ++ StateChanged (state s') :: Release 0 :: tail
    /\ publications tail = [].
Proof.
  pose (s := setCurrentCurrency "eur"
               (updateExchangeRate_locked 0 (sched Scenario.fresh))).
  assert (run [NextTick; Resume 0; CallSetCurrentCurrency "eur"]
            Scenario.fresh = Some s) as Hr by (vm_compute; reflexivity).
  destruct (successful_fetch_commits_once Scenario.steady None None None
              _ s 0 Poll (mkSnapshot "usd" "ETH" None None)
              Scenario.eur_rate Hr)
    as (s' & quote & base & tail & H); [reflexivity | reflexivity |].
  exists s, s', quote, base, tail. split; [exact Hr | exact H].
Defined.

(** ** Currency rate: the release of the lock, and the pending fields *)

Section Release.

Lemma mutex_set_pc t p s : mutex (set_pc t p s) = mutex s.
Proof. unfold set_pc. by destruct (calls s !! t). Qed.

Lemma mutex_sched s :
  mutex (sched s) =
  match count (mutex s), waiting (mutex s) with
  | S n, _ :: rest => mkMutex n rest
  | _, _ => mutex s
  end.
Proof.
  unfold sched. destruct (count (mutex s)); [done|].
  destruct (waiting (mutex s)); [done|].
  change (mutex (emit ?e ?x)) with (mutex x). by rewrite mutex_set_pc.
Qed.

Lemma mutex_fetched t sn s :
  mutex (updateExchangeRate_fetched t sn s) =
  match waiting (mutex s) with
  | [] => mkMutex (S (count (mutex s))) []
  | _ :: rest => mkMutex (count (mutex s)) rest
  end.
Proof.
  unfold updateExchangeRate_fetched.
  destruct (fetchExchangeRate s t _ _ _); cbv zeta beta iota;
    change (mutex (emit ?e ?x)) with (mutex x);
    rewrite mutex_set_pc; unfold releaseLock; rewrite mutex_sched; cbn;
    by destruct (waiting (mutex s)).
Qed.

(** On release the first waiter gets the lock at once. *)
Lemma release_grants_head t t' rest c' s :
  waiting (mutex s) = t' :: rest ->
  calls s !! t' = Some (mkCall c' AwaitLock) ->
  calls (releaseLock t s) !! t' = Some (mkCall c' Locked).
Proof.
  intros Hw Ht'. unfold releaseLock, sched. cbn. rewrite Hw.
  change (calls (emit ?e ?x)) with (calls x).
  by apply (calls_set_pc_eq t' c' AwaitLock).
Qed.

Lemma fetched_grants_head t sn t' rest c' s :
  t <> t' ->
  waiting (mutex s) = t' :: rest ->
  calls s !! t' = Some (mkCall c' AwaitLock) ->
  calls (updateExchangeRate_fetched t sn s) !! t'
  = Some (mkCall c' Locked).
Proof.
  intros Hne Hw Ht'. unfold updateExchangeRate_fetched.
  destruct (fetchExchangeRate s t _ _ _); cbv zeta beta iota;
    change (calls (emit ?e ?x)) with (calls x);
    rewrite calls_set_pc_ne by done;
    by apply (release_grants_head t t' rest c').
Qed.

(** While call [t] awaits the rate source, the next step leaves it
    waiting and is not the settlement of a fetch. *)
Lemma still_fetching l ls s s1 s' t c sn c' sn' :
  Inv s -> step l s = Some s1 -> run ls s1 = Some s' ->
  calls s !! t = Some (mkCall c (AwaitFetch sn)) ->
  calls s' !! t = Some (mkCall c' (AwaitFetch sn')) ->
  calls s1 !! t = Some (mkCall c (AwaitFetch sn))
  /\ forall t0, l <> FetchSettles t0.
Proof.
  intros HI Hs Hr Ht Ht'.
  pose proof (step_Inv l s s1 HI Hs) as HI1.
  destruct (step_call l s s1 t c _ HI Hs Ht) as (p1 & Hp1 & Hor).
  destruct Hor as [->|Hadv].
  - split; [done|]. intros t0 ->. cbn in Hs.
    destruct (calls s !! t0) as [[c0 p0]|] eqn:Ht0; [|done].
    destruct p0 as [| |sn0| |]; try done.
    assert (t0 = t) as ->.
    { apply (cycling_unique s); [done| |]; by eexists. }
    rewrite Ht in Ht0. injection Ht0 as <- <-. injection Hs as <-.
    destruct (calls_fetched t c sn s (Inv_waiting_ok s HI) Ht) as (Hself & _).
    rewrite Hself in Hp1. done.
  - cbn in Hadv. destruct Hadv as (_ & o & ->).
    destruct (run_done ls s1 s' t c (Settled o) HI1 Hr Hp1 eq_refl)
      as (p' & Hp' & Hd).
    rewrite Ht' in Hp'. by injection Hp' as <- <-.
Qed.

(** Outside the settlement of a fetch a pending field is written by the
    request for it, and by nothing else. *)
Lemma step_pending l s s' :
  step l s = Some s' -> (forall t, l <> FetchSettles t) ->
  pendingCurrentCurrency (state s')
  = pending_quote_after [l] (pendingCurrentCurrency (state s))
  /\ pendingNativeCurrency (state s')
     = pending_base_after [l] (pendingNativeCurrency (state s)).
Proof.
  intros Hs Hl. destruct (step_state l s s' Hs Hl) as (_ & Hsame).
  destruct l; try (by rewrite Hsame).
  - cbn in Hs. by injection Hs as <-.
  - cbn in Hs. by injection Hs as <-.
Qed.

Lemma pending_quote_after_cons l ls p :
  pending_quote_after (l :: ls) p
  = pending_quote_after ls (pending_quote_after [l] p).
Proof. by destruct l. Qed.

Lemma pending_base_after_cons l ls p :
  pending_base_after (l :: ls) p
  = pending_base_after ls (pending_base_after [l] p).
Proof. by destruct l. Qed.

(** While call [t] awaits the rate source, the pending fields hold what
    the requests that came in meanwhile wrote. *)
Lemma run_pending_while_fetching ls s s' t c sn c' sn' :
  Inv s -> run ls s = Some s' ->
  calls s !! t = Some (mkCall c (AwaitFetch sn)) ->
  calls s' !! t = Some (mkCall c' (AwaitFetch sn')) ->
  pendingCurrentCurrency (state s')
  = pending_quote_after ls (pendingCurrentCurrency (state s))
  /\ pendingNativeCurrency (state s')
     = pending_base_after ls (pendingNativeCurrency (state s)).
Proof.
  revert s. induction ls as [|l ls IH]; intros s HI Hr Ht Ht'; cbn in Hr.
  - by injection Hr as <-.
  - destruct (step l s) as [s1|] eqn:Hs; [|done].
    destruct (still_fetching l ls s s1 s' t c sn c' sn' HI Hs Hr Ht Ht')
      as (Ht1 & Hl).
    destruct (step_pending l s s1 Hs Hl) as (Hq & Hb).
    destruct (IH s1 (step_Inv l s s1 HI Hs) Hr Ht1 Ht') as (-> & ->).
    by rewrite Hq, Hb, <- pending_quote_after_cons, <- pending_base_after_cons.
Qed.

End Release.

(** C3 (amended): take any call of [updateExchangeRate] from the moment it
    reads its snapshot ([Resume t], in state [s0]) through whatever the
    event loop interleaves while the fetch is pending ([ls]) to the moment
    the rate source rejects.  The call commits nothing: neither its
    snapshot step nor its settlement step writes any field of the state,
    and the settlement publishes nothing.
    [currentCurrency], [nativeCurrency], [conversionRate] and
    [conversionDate] are what they were before the fetch, whatever was
    interleaved.  Each pending field is as captured in the snapshot unless
    a currency-change request wrote it while the fetch was pending, and
    then it holds what the last such request wrote.
    The mutex is released: the call held it ([count] 0), the trace records
    the release, the call has left the cycle and settles with the
    rejection of the rate source; with nobody waiting the mutex is free
    again ([count] 1, no holder), otherwise the first waiter is taken off
    the queue, is granted the lock in the same step and is the new
    holder. *)
Theorem failed_fetch_commits_nothing :
  forall (dflt : RateSource) (st : option PartialState) (usd : option bool)
         (src : option RateSource) (ls0 : list Label) (s0 s1 : Sys)
         (t : CallId) (ls : list Label) (s : Sys) (c : Caller)
         (sn : Snapshot) (e : string),
    run ls0 (constructor dflt st usd src) = Some s0 ->
    step (Resume t) s0 = Some s1 ->
    run ls s1 = Some s ->
    calls s !! t = Some (mkCall c (AwaitFetch sn)) ->
    fetchExchangeRate s t (quote_of sn) (base_of sn) (includeUsdRate s)
      = Rejected e ->
    exists s' tail,
      step (FetchSettles t) s = Some s'
      /\ state s1 = state s0
      /\ state s' = state s
      /\ publications (trace s') = publications (trace s)
      /\ currentCurrency (state s') = currentCurrency (state s0)
      /\ nativeCurrency (state s') = nativeCurrency (state s0)
      /\ conversionRate (state s') = conversionRate (state s0)
      /\ conversionDate (state s') = conversionDate (state s0)
      /\ snap_pendingCurrentCurrency sn = pendingCurrentCurrency (state s0)
      /\ snap_pendingNativeCurrency sn = pendingNativeCurrency (state s0)
      /\ (forallb (fun l => negb (is_request l)) ls = true ->
          pendingCurrentCurrency (state s') = snap_pendingCurrentCurrency sn
          /\ pendingNativeCurrency (state s') = snap_pendingNativeCurrency sn)
      /\ trace s' = trace s ++ Release t :: tail
      /\ ~ cycling (calls s') t
      /\ (exists h, lock_holder None (trace s') = Some h /\ h <> Some t)
      /\ calls s' !! t = Some (mkCall c (Settled (Rejected e)))
      /\ pendingCurrentCurrency (state s')
         = pending_quote_after ls (snap_pendingCurrentCurrency sn)
      /\ pendingNativeCurrency (state s')
         = pending_base_after ls (snap_pendingNativeCurrency sn)
      /\ count (mutex s) = 0%nat
      /\ lock_holder None (trace s) = Some (Some t)
      /\ match waiting (mutex s) with
         | [] =>
             mutex s' = mkMutex 1 []
             /\ lock_holder None (trace s') = Some None
             /\ tail = [Settle t (Rejected e)]
         | t' :: rest =>
             mutex s' = mkMutex 0 rest
             /\ lock_holder None (trace s') = Some (Some t')
             /\ (exists c', calls s !! t' = Some (mkCall c' AwaitLock)
                            /\ calls s' !! t' = Some (mkCall c' Locked))
             /\ tail = [Grant t'; Settle t (Rejected e)]
         end.
Proof.
  intros dflt st usd src ls0 s0 s1 t ls s c sn e Hr0 Hres Hr Ht Hf.
  pose proof (reachable_Inv _ _ _ _ _ _ Hr0) as HI0.
  pose proof (step_Inv _ _ _ HI0 Hres) as HI1.
  pose proof (run_Inv _ _ _ HI1 Hr) as HI.
  cbn in Hres.
  destruct (calls s0 !! t) as [[c0 p0]|] eqn:Ht0; [|done].
  destruct p0; try done. injection Hres as <-.
  destruct (calls_locked t c0 s0 Ht0) as (sn0 & Hcalls & Hcc & Hnc & Hpc & Hpn).
  assert (calls (updateExchangeRate_locked t s0) !! t
          = Some (mkCall c0 (AwaitFetch sn0))) as Ht1.
  { rewrite Hcalls. apply list_lookup_insert_eq.
    by apply lookup_lt_Some in Ht0. }
  assert (state (updateExchangeRate_locked t s0) = state s0) as Hst1.
  { unfold updateExchangeRate_locked. by rewrite state_set_pc. }
  destruct (run_pending_while_fetching ls _ s t c0 sn0 c sn HI1 Hr Ht1 Ht)
    as (Hpq & Hpb).
  destruct (run_while_fetching ls _ s t c0 sn0 c sn HI1 Hr Ht1 Ht)
    as (-> & -> & Hconf & Hsame).
  rewrite Hst1 in Hconf, Hsame, Hpq, Hpb.
  destruct Hconf as (Hd & Hrate & Hcur & Hnat & _).
  destruct (calls_fetched t c0 sn0 s (Inv_waiting_ok s HI) Ht) as (Hself & _).
  rewrite Hf in Hself.
  assert (~ cycling (calls (updateExchangeRate_fetched t sn0 s)) t) as Hout.
  { intros (k & Hk & Hin). rewrite Hself in Hk. by injection Hk as <-. }
  assert (Inv (updateExchangeRate_fetched t sn0 s)) as HI'.
  { by apply (Inv_fetched t c0). }
  assert (count (mutex s) = 0%nat
          /\ lock_holder None (trace s) = Some (Some t)) as (Hcount & Hheld).
  { destruct (inv_lock _ _ _ _ HI) as (h & Hh & Hok).
    assert (cycling (calls s) t) as Hcyc by (by eexists).
    destruct h as [th|]; cbn in Hok.
    - destruct Hok as (Hc & _ & Huniq). by rewrite <- (Huniq t Hcyc) in Hh.
    - destruct Hok as (_ & Hnone). by destruct (Hnone t). }
  exists (updateExchangeRate_fetched t sn0 s). eexists.
  split; [cbn; by rewrite Ht|].
  split; [done|]. split; [by rewrite state_fetched, Hf|]. split.
  { rewrite trace_fetched, Hf, publications_app, publications_cons,
      publications_app, publications_granted. cbn. by rewrite app_nil_r. }
  rewrite state_fetched, Hf.
  repeat (split; [congruence|]).
  split. { intros Hq. rewrite (Hsame Hq). split; congruence. }
  split; [by rewrite trace_fetched, Hf|]. split; [done|]. split.
  { destruct (inv_lock _ _ _ _ HI') as (h & Hh & Hok).
    exists h. split; [done|]. intros ->. cbn in Hok.
    by destruct Hok as (_ & Hin & _). }
  split; [done|].
  split; [by rewrite Hpq, Hpc|]. split; [by rewrite Hpb, Hpn|].
  split; [done|]. split; [done|].
  destruct (inv_lock _ _ _ _ HI') as (h & Hh & Hok).
  rewrite mutex_fetched, Hcount in Hok. unfold granted. cbn.
  rewrite mutex_fetched, Hcount.
  destruct (waiting (mutex s)) as [|t' rest] eqn:Hw.
  - split; [done|]. split; [|done].
    destruct h as [th|]; cbn in Hok; [|done]. by destruct Hok as (Hc & _).
  - destruct (inv_waiting _ _ _ _ HI t') as (c' & Hk'); [rewrite Hw; by left|].
    assert (t <> t') as Hne by congruence.
    pose proof (fetched_grants_head t sn0 t' rest c' s Hne Hw Hk') as Hk1.
    split; [done|]. split; [|split; [by exists c'|done]].
    destruct h as [th|]; cbn in Hok.
    + destruct Hok as (_ & _ & Huniq). rewrite <- (Huniq t') in Hh; [done|].
      by eexists.
    + by destruct Hok as (Hc & _).
Qed.

(** The poll's first refresh fails while a direct refresh is queued
    behind it and time passes: the lock goes to the queued refresh. *)
Lemma failed_fetch_commits_nothing_witness :
  exists s0 s1 s s' tail,
    run [NextTick] Scenario.offline = Some s0
    /\ step (Resume 0) s0 = Some s1
    /\ run [CallUpdateExchangeRate; TimePasses 5000] s1 = Some s
    /\ step (FetchSettles 0) s = Some s'
    /\ state s1 = state s0
    /\ state s' = state s
    /\ publications (trace s') = publications (trace s)
    /\ currentCurrency (state s') = currentCurrency (state s0)
    /\ nativeCurrency (state s') = nativeCurrency (state s0)
    /\ conversionRate (state s') = conversionRate (state s0)
    /\ conversionDate (state s') = conversionDate (state s0)
    /\ pendingCurrentCurrency (state s') = pendingCurrentCurrency (state s0)
    /\ pendingNativeCurrency (state s') = pendingNativeCurrency (state s0)
    /\ trace s' = trace s ++ Release 0 :: tail
    /\ ~ cycling (calls s') 0
    /\ (exists h, lock_holder None (trace s') = Some h /\ h <> Some 0%nat)
    /\ calls s' !! 0%nat
       = Some (mkCall Poll (Settled (Rejected "network down")))
    /\ mutex s' = mkMutex 0 []
    /\ lock_holder None (trace s') = Some (Some 1%nat)
    /\ tail = [Grant 1; Settle 0 (Rejected "network down")].
Proof.
  pose (s0 := sched Scenario.offline).
  pose (s1 := updateExchangeRate_locked 0 s0).
  pose (s := with_now 5000 (updateExchangeRate_call Direct s1)).
  assert (run [NextTick] Scenario.offline = Some s0) as Hr0
    by (vm_compute; reflexivity).
  assert (step (Resume 0) s0 = Some s1) as Hres by (vm_compute; reflexivity).
  assert (run [CallUpdateExchangeRate; TimePasses 5000] s1 = Some s) as Hr
    by (vm_compute; reflexivity).
  destruct (failed_fetch_commits_nothing Scenario.down None None None
              [NextTick] s0 s1 0 [CallUpdateExchangeRate; TimePasses 5000] s
              Poll (mkSnapshot "usd" "ETH" None None) "network down"
              Hr0 Hres Hr)
    as (s' & tail & H1 & H1' & H2 & H3 & H4 & H5 & H6 & H7 & H8 & H9 & H10
        & H11 & H12 & H12' & H13 & _ & _ & _ & _ & H14);
    [reflexivity | reflexivity |].
  destruct (H10 eq_refl) as [Hp1 Hp2].
  change (waiting (mutex s)) with [1%nat] in H14.
  destruct H14 as (H15 & H16 & _ & H17).
  exists s0, s1, s, s', tail.
  repeat (split; [first [assumption | congruence]|]). assumption.
Defined.

(** C3 as the spec words it does not hold: the pending fields are not
    always "exactly as captured".  A [setCurrentCurrency] that arrives
    while the failing fetch is pending writes [pendingCurrentCurrency]
    outside the lock; the snapshot of the failing call held none, and
    after the failure the field holds the request. *)
Lemma failed_fetch_keeps_request_made_meanwhile :
  exists s0 s1 s s' sn,
    run [NextTick] Scenario.offline = Some s0
    /\ step (Resume 0) s0 = Some s1
    /\ run [CallSetCurrentCurrency "eur"] s1 = Some s
    /\ calls s !! 0%nat = Some (mkCall Poll (AwaitFetch sn))
    /\ fetchExchangeRate s 0%nat (quote_of sn) (base_of sn)
         (includeUsdRate s)
       = Rejected "network down"
    /\ step (FetchSettles 0) s = Some s'
    /\ pendingCurrentCurrency (state s0) = None
    /\ snap_pendingCurrentCurrency sn = None
    /\ pendingCurrentCurrency (state s') = Some "eur"
    /\ pendingCurrentCurrency (state s') <> snap_pendingCurrentCurrency sn.
Proof.
  eexists _, _, _, _, _. split; [vm_compute; reflexivity|].
  split; [vm_compute; reflexivity|]. split; [vm_compute; reflexivity|].
  split; [vm_compute; reflexivity|]. split; [reflexivity|].
  split; [vm_compute; reflexivity|]. split; [reflexivity|].
  split; [reflexivity|]. split; [reflexivity|]. vm_compute. discriminate.
Qed.

(** C4 (amended): the pair handed to the rate source is resolved from the
    state read when the admitted call resumes: the quote is
    [pendingCurrentCurrency] when that is present and not the empty
    string, else [currentCurrency]; the base is [pendingNativeCurrency]
    when that is present and not the empty string, else
    [nativeCurrency]. *)
Theorem fetch_pair_skips_empty_pending :
  forall (s : Sys) (t : CallId) (c : Caller),
    calls s !! t = Some (mkCall c Locked) ->
    exists s' quote base,
      step (Resume t) s = Some s'
      /\ trace s' = trace s ++ [Fetch t quote base (includeUsdRate s)]
      /\ quote =
         match pendingCurrentCurrency (state s) with
         | Some code =>
             if decide (code = "") then currentCurrency (state s) else code
         | None => currentCurrency (state s)
         end
      /\ base =
         match pendingNativeCurrency (state s) with
         | Some symbol =>
             if decide (symbol = "") then nativeCurrency (state s) else symbol
         | None => nativeCurrency (state s)
         end
      /\ state s' = state s.
Proof.
  intros s t c Ht. eexists _, _, _.
  split; [cbn; rewrite Ht; reflexivity|].
  unfold updateExchangeRate_locked. rewrite trace_set_pc, state_set_pc.
  split; [reflexivity|]. unfold quote_of, base_of, js_or. cbn.
  split; [|split; [|done]].
  - destruct (pendingCurrentCurrency (state s)) as [[|a code]|]; done.
  - destruct (pendingNativeCurrency (state s)) as [[|a symbol]|]; done.
Qed.

Lemma fetch_pair_skips_empty_pending_witness :
  exists s s' quote base,
    run [CallSetNativeCurrency "BTC"; NextTick] Scenario.fresh = Some s
    /\ step (Resume 0) s = Some s'
    /\ trace s' = trace s ++ [Fetch 0 quote base false]
    /\ quote = "usd" /\ base = "BTC"
    /\ state s' = state s.
Proof.
  pose (s := sched (setNativeCurrency "BTC" Scenario.fresh)).
  destruct (fetch_pair_skips_empty_pending s 0 Poll)
    as (s' & quote & base & H1 & H2 & H3 & H4 & H5); [reflexivity|].
  exists s, s', quote, base.
  split; [vm_compute; reflexivity|].
  split; [exact H1|]. split; [exact H2|].
  split; [exact H3|]. split; [exact H4 | exact H5].
Defined.

(** C4 as stated fails: after [setCurrentCurrency("")] the pending quote is
    present (it is the empty string, not null), yet the rate source is
    asked for the confirmed quote ["usd"], not for the pending one. *)
Lemma empty_pending_quote_is_not_fetched :
  exists s s',
    run [CallSetCurrentCurrency ""; NextTick] Scenario.fresh = Some s
    /\ step (Resume 0) s = Some s'
    /\ pendingCurrentCurrency (state s) = Some ""
    /\ specified_quote (state s) = ""
    /\ fetches_of 0 (trace s') = [("usd", "ETH", false)]
    /\ fetches_of 0 (trace s')
       <> [(specified_quote (state s), specified_base (state s), false)].
Proof.
  eexists _, _. split; [vm_compute; reflexivity|].
  split; [vm_compute; reflexivity|].
  split; [reflexivity|]. split; [reflexivity|].
  split; [reflexivity|]. vm_compute. discriminate.
Qed.

(** C5: [setCurrentCurrency(code)] is one synchronous step that is always
    enabled: it writes [pendingCurrentCurrency = code] and nothing else,
    publishes the new state, and only then asks for the lock; the rate
    source has not been invoked for the refresh it starts.
    [setNativeCurrency(symbol)] does the same on [pendingNativeCurrency].
    When the refresh such a request started has settled, however it
    settled, the request returns normally; and no trace ever holds a
    rejected return. *)
Theorem currency_request_writes_pending_first :
  forall (dflt : RateSource) (st : option PartialState) (usd : option bool)
         (src : option RateSource) (ls : list Label) (s : Sys)
         (code symbol : string),
    run ls (constructor dflt st usd src) = Some s ->
    (exists s',
        step (CallSetCurrentCurrency code) s = Some s'
        /\ state s' =
           mkState (conversionDate (state s)) (conversionRate (state s))
             (currentCurrency (state s)) (nativeCurrency (state s))
             (Some code) (pendingNativeCurrency (state s))
             (usdConversionRate (state s))
        /\ trace s' =
           trace s ++ [StateChanged (state s'); Acquire (length (calls s))]
        /\ calls s' = calls s ++ [mkCall SetCurrentCurrency AwaitLock]
        /\ fetches_of (length (calls s)) (trace s') = [])
    /\ (exists s',
          step (CallSetNativeCurrency symbol) s = Some s'
          /\ state s' =
             mkState (conversionDate (state s)) (conversionRate (state s))
               (currentCurrency (state s)) (nativeCurrency (state s))
               (pendingCurrentCurrency (state s)) (Some symbol)
               (usdConversionRate (state s))
          /\ trace s' =
             trace s ++ [StateChanged (state s'); Acquire (length (calls s))]
          /\ calls s' = calls s ++ [mkCall SetNativeCurrency AwaitLock]
          /\ fetches_of (length (calls s)) (trace s') = [])
    /\ (forall t c o,
          (c = SetCurrentCurrency \/ c = SetNativeCurrency) ->
          calls s !! t = Some (mkCall c (Settled o)) ->
          exists s',
            step (Continue t) s = Some s'
            /\ trace s' = trace s ++ [Return t c (Fulfilled tt)])
    /\ (forall t c o, Return t c o ∈ trace s -> o = Fulfilled tt).
Proof.
  intros dflt st usd src ls s code symbol Hr.
  pose proof (reachable_Inv _ _ _ _ _ _ Hr) as HI.
  assert (fetches_of (length (calls s)) (trace s) = []) as Hfresh.
  { by apply (inv_fresh _ _ _ _ HI). }
  split; [|split; [|split]].
  - eexists. split; [reflexivity|]. split; [reflexivity|].
    unfold setCurrentCurrency. rewrite trace_call, trace_update, calls_update.
    split; [by rewrite <- app_assoc|]. split; [reflexivity|].
    by rewrite !fetches_of_snoc, Hfresh.
  - eexists. split; [reflexivity|]. split; [reflexivity|].
    unfold setNativeCurrency. rewrite trace_call, trace_update, calls_update.
    split; [by rewrite <- app_assoc|]. split; [reflexivity|].
    by rewrite !fetches_of_snoc, Hfresh.
  - intros t c o Hc Ht. eexists. split; [cbn; by rewrite Ht|].
    rewrite trace_resumed. by destruct Hc as [-> | ->].
  - intros t c o Hin.
    destruct (run_trace _ _ _ Hr) as (new & Hnew & Hall).
    rewrite Hnew in Hin. apply elem_of_app in Hin as [Hin|Hin].
    + unfold constructor in Hin. rewrite trace_poll in Hin. cbn in Hin.
      apply list_elem_of_singleton in Hin. done.
    + rewrite Forall_forall in Hall. exact (Hall _ Hin).
Qed.

(** Both requests made while the first fetch is pending; the refresh of
    the first request then fails and the request still returns. *)
Lemma currency_request_writes_pending_first_witness :
  exists s s1 s2,
    run [NextTick; Resume 0; CallSetCurrentCurrency "eur"; FetchSettles 0;
         Resume 1; FetchSettles 1] Scenario.offline = Some s
    /\ step (CallSetCurrentCurrency "gbp") s = Some s1
    /\ pendingCurrentCurrency (state s1) = Some "gbp"
    /\ trace s1 = trace s ++ [StateChanged (state s1); Acquire 2]
    /\ fetches_of 2 (trace s1) = []
    /\ step (Continue 1) s = Some s2
    /\ trace s2 = trace s ++ [Return 1 SetCurrentCurrency (Fulfilled tt)]
    /\ (forall t c o, Return t c o ∈ trace s -> o = Fulfilled tt).
Proof.
  pose (s :=
          updateExchangeRate_fetched 1
            (mkSnapshot "usd" "ETH" (Some "eur") None)
            (updateExchangeRate_locked 1
               (updateExchangeRate_fetched 0
                  (mkSnapshot "usd" "ETH" None None)
                  (setCurrentCurrency "eur"
                     (updateExchangeRate_locked 0
                        (sched Scenario.offline)))))).
  assert (run [NextTick; Resume 0; CallSetCurrentCurrency "eur";
               FetchSettles 0; Resume 1; FetchSettles 1] Scenario.offline
          = Some s) as Hr by (vm_compute; reflexivity).
  destruct (currency_request_writes_pending_first Scenario.down None None
              None _ s "gbp" "BTC" Hr)
    as ((s1 & A1 & A2 & A3 & A4 & A5) & _ & Hcont & Hall).
  destruct (Hcont 1%nat SetCurrentCurrency (Rejected "network down"))
    as (s2 & B1 & B2); [by left | vm_compute; reflexivity |].
  exists s, s1, s2.
  split; [exact Hr|]. split; [exact A1|].
  split; [rewrite A2; reflexivity|].
  split; [exact A3|]. split; [exact A5|].
  split; [exact B1|]. split; [exact B2 | exact Hall].
Defined.

(** ** The poll loop *)

(** Whatever the refresh of a tick did, the poll arms the next timer. *)
Lemma poll_rearms_after_any_outcome s t o :
  calls s !! t = Some (mkCall Poll (Settled o)) ->
  exists s',
    step (Continue t) s = Some s'
    /\ handle s' = Some (next_timer s)
    /\ timers s' = (next_timer s, now s + interval s) :: timers s
    /\ trace s' =
       trace s ++ [TimerSet (next_timer s) (now s + interval s);
                   Return t Poll (Fulfilled tt)].
Proof.
  intros Ht. eexists. split; [cbn; by rewrite Ht|].
  rewrite trace_resumed. unfold resumed. rewrite await_safelyExecute.
  rewrite (set_pc_known t Poll (Settled o)) by done. by cbn.
Qed.

(** An armed timer that is due fires, and the tick starts a refresh. *)
Lemma due_timer_ticks s h due :
  (h, due) ∈ timers s -> due <= now s ->
  exists s',
    step (TimerFires h) s = Some s'
    /\ calls s' = calls s ++ [mkCall Poll AwaitLock].
Proof.
  intros Hin Hdue. cbn.
  assert (timer_due h s = true) as ->.
  { unfold timer_due. apply existsb_exists. exists (h, due).
    split; [by apply list_elem_of_In|]. cbn.
    rewrite Nat.eqb_refl. by apply Z.leb_le. }
  eexists. split; [reflexivity|].
  unfold poll. cbn. by destruct (handle s).
Qed.

Lemma quiescent_step l s s' :
  quiescent s -> is_internal l = true -> step l s = Some s' ->
  quiescent s' /\ trace s' = trace s.
Proof.
  intros (Ht & Hw & Hc) Hl Hs.
  assert (forall t c p, calls s !! t = Some (mkCall c p) -> p = Finished)
    as Hfin.
  { intros t c p Hk. rewrite Forall_lookup in Hc. exact (Hc t _ Hk). }
  destruct l; try done; cbn in Hs.
  - injection Hs as <-. unfold sched. rewrite Hw.
    by destruct (count (mutex s)).
  - destruct (calls s !! t) as [[c p]|] eqn:Hk; [|done].
    by rewrite (Hfin _ _ _ Hk) in Hs.
  - destruct (calls s !! t) as [[c p]|] eqn:Hk; [|done].
    by rewrite (Hfin _ _ _ Hk) in Hs.
  - destruct (calls s !! t) as [[c p]|] eqn:Hk; [|done].
    by rewrite (Hfin _ _ _ Hk) in Hs.
  - unfold timer_due in Hs. by rewrite Ht in Hs.
  - destruct (Z.leb 0 d); [|done]. by injection Hs as <-.
Qed.

(** The part of teardown that holds: [destroy] called while the loop is at
    rest between two ticks (its timer armed, no refresh under way) cancels
    the timer, and the event loop on its own then never invokes the rate
    source again, however much time passes. *)
Lemma destroy_at_rest_stops_polling s h due ls s' :
  handle s = Some h -> timers s = [(h, due)] ->
  waiting (mutex s) = [] -> Forall (fun k => pc k = Finished) (calls s) ->
  forallb is_internal ls = true ->
  run ls (destroy s) = Some s' ->
  trace s' = trace s ++ [Destroyed].
Proof.
  intros Hh Ht Hw Hc Hls Hr.
  assert (quiescent (destroy s)) as Hq.
  { unfold quiescent, destroy, super_destroy. cbn. rewrite Hh. cbn.
    rewrite Ht. cbn. rewrite decide_False by (intros H; by apply H).
    done. }
  rewrite <- trace_destroy.
  revert Hq Hls Hr. generalize (destroy s). clear.
  induction ls as [|l ls IH]; intros s0 Hq Hls Hr; cbn in Hr.
  - by injection Hr as <-.
  - cbn in Hls. apply andb_true_iff in Hls as [Hl Hls].
    destruct (step l s0) as [s1|] eqn:Hs; [|done].
    destruct (quiescent_step l s0 s1 Hq Hl Hs) as (Hq1 & <-).
    by apply IH.
Qed.

(** C6, the code at the failing input: [destroy] is called while the
    first refresh of the poll is awaiting the rate source.  [this.handle]
    is still undefined, so nothing is cancelled; when the refresh settles
    the poll arms a timer all the same, and once the interval has elapsed
    the timer fires and the rate source is invoked again. *)
Theorem destroy_during_refresh_keeps_polling :
  exists s,
    run [NextTick; Resume 0; CallDestroy; FetchSettles 0; Continue 0;
         TimePasses 180000; TimerFires 0; NextTick; Resume 1]
      Scenario.fresh = Some s
    /\ trace s =
       [Acquire 0; Grant 0; Fetch 0 "usd" "ETH" false;
        Destroyed;
        StateChanged
          (mkState (1000 # 1)%Q (91 # 100)%Q "usd" "ETH" None None None);
        Release 0; Settle 0 (Fulfilled None);
        TimerSet 0 180000; Return 0 Poll (Fulfilled tt);
        Acquire 1; Grant 1; Fetch 1 "usd" "ETH" false].
Proof.
  eexists. split; vm_compute; reflexivity.
Qed.

(** ** What the refresh returns *)

(** C7 (amended): when the rate source answers, [updateExchangeRate]
    commits and its promise resolves with no value; when the rate source
    rejects, its promise rejects with the same error.  The error stops at
    [safelyExecute]: the method that awaited the refresh ([poll],
    [setCurrentCurrency], [setNativeCurrency]) then returns normally. *)
Theorem refresh_resolves_void_or_rejects :
  forall (dflt : RateSource) (st : option PartialState) (usd : option bool)
         (src : option RateSource) (ls : list Label) (s : Sys)
         (t : CallId) (c : Caller) (sn : Snapshot),
    run ls (constructor dflt st usd src) = Some s ->
    calls s !! t = Some (mkCall c (AwaitFetch sn)) ->
    exists s' o,
      step (FetchSettles t) s = Some s'
      /\ calls s' !! t = Some (mkCall c (Settled o))
      /\ match fetchExchangeRate s t (quote_of sn) (base_of sn)
                 (includeUsdRate s) with
         | Fulfilled r => o = Fulfilled None /\ state s' = committed sn r
         | Rejected e => o = Rejected e /\ state s' = state s
         end
      /\ (exists s'',
            step (Continue t) s' = Some s''
            /\ (c <> Direct ->
                exists mid,
                  trace s'' = trace s' ++ mid ++ [Return t c (Fulfilled tt)])).
Proof.
  intros dflt st usd src ls s t c sn Hr Ht.
  pose proof (reachable_Inv _ _ _ _ _ _ Hr) as HI.
  destruct (calls_fetched t c sn s (Inv_waiting_ok s HI) Ht) as (Hself & _).
  exists (updateExchangeRate_fetched t sn s). eexists.
  split; [cbn; by rewrite Ht|]. split; [exact Hself|].
  rewrite state_fetched. split.
  { by destruct (fetchExchangeRate s t _ _ _). }
  eexists. split; [cbn; by rewrite Hself|].
  intros Hc. rewrite trace_resumed. destruct c; try done.
  - by eexists [_].
  - by exists [].
  - by exists [].
Qed.

Lemma refresh_resolves_void_or_rejects_witness :
  exists s s' o,
    run [NextTick; Resume 0] Scenario.fresh = Some s
    /\ step (FetchSettles 0) s = Some s'
    /\ calls s' !! 0%nat = Some (mkCall Poll (Settled o))
    /\ o = Fulfilled None
    /\ state s' =
       mkState (1000 # 1)%Q (91 # 100)%Q "usd" "ETH" None None None.
Proof.
  pose (s := updateExchangeRate_locked 0 (sched Scenario.fresh)).
  assert (run [NextTick; Resume 0] Scenario.fresh = Some s) as Hr
    by (vm_compute; reflexivity).
  destruct (refresh_resolves_void_or_rejects Scenario.steady None None None
              _ s 0 Poll (mkSnapshot "usd" "ETH" None None) Hr)
    as (s' & o & H1 & H2 & H3 & _); [reflexivity|].
  exists s, s', o. split; [exact Hr|]. split; [exact H1|].
  split; [exact H2|]. exact H3.
Defined.

(** C7 as stated fails on both counts.  After a successful fetch and
    commit the promise of the refresh holds no value, not the new state;
    and a direct call of [updateExchangeRate] whose fetch fails is
    rejected with the error of the rate source instead of failing
    silently. *)
Lemma refresh_returns_no_state_and_rejects_aloud :
  (exists s s',
      run [NextTick; Resume 0] Scenario.fresh = Some s
      /\ step (FetchSettles 0) s = Some s'
      /\ calls s' !! 0%nat = Some (mkCall Poll (Settled (Fulfilled None)))
      /\ Fulfilled None <> specified_result (Some (state s')))
  /\ (exists s s',
        run [NextTick; Resume 0; FetchSettles 0; Continue 0;
             CallUpdateExchangeRate; NextTick; Resume 1]
          Scenario.offline = Some s
        /\ step (FetchSettles 1) s = Some s'
        /\ calls s' !! 1%nat
           = Some (mkCall Direct (Settled (Rejected "network down")))
        /\ Rejected "network down" <> specified_result None).
Proof.
  split.
  - eexists _, _. split; [vm_compute; reflexivity|].
    split; [vm_compute; reflexivity|]. split; [reflexivity|]. discriminate.
  - eexists _, _. split; [vm_compute; reflexivity|].
    split; [vm_compute; reflexivity|]. split; [reflexivity|]. discriminate.
Qed.

(** ** Construction *)

Lemma constructor_interval_value dflt st usd src :
  interval (constructor dflt st usd src) = 180000.
Proof. unfold constructor, poll. reflexivity. Qed.

(** C8 (amended): the constructor takes the initial partial state, the
    include-USD-rate flag (false when omitted) and the rate source (the
    crypto-compare one when omitted); the refresh interval is not among
    its parameters and is 180000 ms in every controller. *)
Theorem constructor_fixes_interval :
  forall (dflt : RateSource) (st : option PartialState) (usd : option bool)
         (src : option RateSource),
    let s := constructor dflt st usd src in
    interval s = 180000
    /\ state s =
       spread defaultState
         (match st with Some p => p | None => emptyPartial end)
    /\ includeUsdRate s = (match usd with Some b => b | None => false end)
    /\ fetchExchangeRate s = (match src with Some f => f | None => dflt end)
    /\ handle s = None
    /\ calls s = [mkCall Poll AwaitLock].
Proof.
  intros dflt st usd src s. subst s. unfold constructor, poll. cbn.
  by destruct st, usd, src.
Qed.

(** C8 as stated fails: no two constructions differ in the interval, so
    the interval is not something construction configures. *)
Lemma interval_is_not_configurable : ~ interval_configurable.
Proof.
  intros (dflt & st & st' & usd & usd' & src & src' & Hne).
  apply Hne. by rewrite !constructor_interval_value.
Qed.

(** * Further properties of the code *)

(** ** Address book: delete, clear and sequences of mutations *)

Section AddressBookMore.
Import AddressBook.
Variable isValidAddress : string -> bool.

Lemma set_book addr nm cid mm c :
  addressBook (state (set isValidAddress addr nm cid mm c).2) =
  if isValidAddress addr
  then <[addr := mkEntry addr nm (default_param (1 # 1)%Q cid)
                   (default_param "" mm)]> (addressBook (state c))
  else addressBook (state c).
Proof.
  unfold set. destruct (isValidAddress addr); cbn; [|done].
  unfold extend. by rewrite <- insert_union_singleton_l.
Qed.

Lemma mutate_notified m c :
  notified (mutate isValidAddress c m) =
  notified c ++
    (if goes_through isValidAddress m
     then [state (mutate isValidAddress c m)] else []).
Proof.
  destruct m as [a n ch me| |]; cbn; try done.
  unfold set. destruct (isValidAddress a); cbn; [done|].
  by rewrite app_nil_r.
Qed.

Lemma mutate_well_keyed m c :
  well_keyed isValidAddress (addressBook (state c)) ->
  well_keyed isValidAddress
    (addressBook (state (mutate isValidAddress c m))).
Proof.
  intros Hwk. destruct m as [a n ch me|a|]; cbn.
  - rewrite set_book. destruct (isValidAddress a) eqn:Hv; [|done].
    intros k e Hk. destruct (decide (a = k)) as [<-|Hne].
    + rewrite lookup_insert_eq in Hk. by injection Hk as <-.
    + rewrite lookup_insert_ne in Hk by done. by apply Hwk.
  - intros k e Hk. apply lookup_delete_Some in Hk as [_ Hk]. by apply Hwk.
  - intros k e Hk. by rewrite lookup_empty in Hk.
Qed.

End AddressBookMore.

(** X1: [delete(address)] removes that address and nothing else: afterwards
    the address is absent, every other address maps to what it mapped to
    before, and one notification is sent.  Deleting an address that is
    not in the book leaves the book as it was, yet still notifies. *)
Theorem addressbook_delete_removes_one :
  forall (addr : string) (c : AddressBook.Controller),
    let c' := AddressBook.delete_entry addr c in
    AddressBook.addressBook (AddressBook.state c') !! addr = None
    /\ (forall other, other <> addr ->
          AddressBook.addressBook (AddressBook.state c') !! other
          = AddressBook.addressBook (AddressBook.state c) !! other)
    /\ (AddressBook.addressBook (AddressBook.state c) !! addr = None ->
        AddressBook.addressBook (AddressBook.state c')
        = AddressBook.addressBook (AddressBook.state c))
    /\ length (AddressBook.notified c')
       = S (length (AddressBook.notified c)).
Proof.
  intros addr c c'. subst c'. cbn. split; [apply lookup_delete_eq|].
  split; [intros other Hne; by apply lookup_delete_ne|].
  split; [apply delete_id|].
  rewrite length_app. cbn. lia.
Qed.

Lemma addressbook_delete_removes_one_witness :
  let c := AddressBook.mkController (AddressBook.mkState ∅) [] in
  AddressBook.addressBook
    (AddressBook.state (AddressBook.delete_entry "0x123" c))
  = AddressBook.addressBook (AddressBook.state c).
Proof.
  intros c.
  destruct (addressbook_delete_removes_one "0x123" c) as (_ & _ & H & _).
  apply H. reflexivity.
Defined.

(** X2: adding an address that the book does not hold and deleting it
    again gives back the book as it was; the two calls send two
    notifications. *)
Theorem addressbook_set_then_delete :
  forall (isValidAddress : string -> bool) (addr nm : string)
         (cid : option number) (mm : option string)
         (c : AddressBook.Controller),
    isValidAddress addr = true ->
    AddressBook.addressBook (AddressBook.state c) !! addr = None ->
    let c' :=
      AddressBook.delete_entry addr
        (AddressBook.set isValidAddress addr nm cid mm c).2 in
    AddressBook.state c' = AddressBook.state c
    /\ length (AddressBook.notified c')
       = S (S (length (AddressBook.notified c))).
Proof.
  intros v addr nm cid mm c Hv Hnone c'. subst c'. split.
  - destruct (AddressBook.state c) as [book] eqn:Hst. cbn in *.
    unfold AddressBook.set. rewrite Hv. cbn. rewrite Hst. cbn. f_equal.
    unfold AddressBook.extend. rewrite <- insert_union_singleton_l.
    rewrite delete_insert_eq. by apply delete_id.
  - unfold AddressBook.set. rewrite Hv. cbn. rewrite !length_app. cbn. lia.
Qed.

Lemma addressbook_set_then_delete_witness :
  let valid := String.eqb "0x32Be343B94f860124dC4fEe278FDCBD38C102D88" in
  let c := AddressBook.mkController (AddressBook.mkState ∅) [] in
  AddressBook.state
    (AddressBook.delete_entry "0x32Be343B94f860124dC4fEe278FDCBD38C102D88"
       (AddressBook.set valid "0x32Be343B94f860124dC4fEe278FDCBD38C102D88"
          "Alice" None None c).2)
  = AddressBook.state c.
Proof.
  intros valid c.
  apply (addressbook_set_then_delete valid
           "0x32Be343B94f860124dC4fEe278FDCBD38C102D88" "Alice" None None c);
    reflexivity.
Defined.

(** X3: the last [set] of an address wins: setting an accepted address
    twice leaves the book exactly as the second call alone would, with no
    trace of the first name, chain id or memo. *)
Theorem addressbook_last_set_wins :
  forall (isValidAddress : string -> bool) (addr nm1 nm2 : string)
         (cid1 cid2 : option number) (mm1 mm2 : option string)
         (c : AddressBook.Controller),
    AddressBook.state
      (AddressBook.set isValidAddress addr nm2 cid2 mm2
         (AddressBook.set isValidAddress addr nm1 cid1 mm1 c).2).2
    = AddressBook.state (AddressBook.set isValidAddress addr nm2 cid2 mm2 c).2.
Proof.
  intros v addr nm1 nm2 cid1 cid2 mm1 mm2 c.
  unfold AddressBook.set. destruct (v addr); cbn; [|done].
  f_equal. unfold AddressBook.extend.
  rewrite <- !insert_union_singleton_l. apply insert_insert_eq.
Qed.

(** X4: calls of [set] on two different addresses commute: either order
    gives the same book. *)
Theorem addressbook_sets_commute :
  forall (isValidAddress : string -> bool) (a1 a2 n1 n2 : string)
         (cid1 cid2 : option number) (mm1 mm2 : option string)
         (c : AddressBook.Controller),
    a1 <> a2 ->
    AddressBook.state
      (AddressBook.set isValidAddress a2 n2 cid2 mm2
         (AddressBook.set isValidAddress a1 n1 cid1 mm1 c).2).2
    = AddressBook.state
        (AddressBook.set isValidAddress a1 n1 cid1 mm1
           (AddressBook.set isValidAddress a2 n2 cid2 mm2 c).2).2.
Proof.
  intros v a1 a2 n1 n2 cid1 cid2 mm1 mm2 c Hne.
  unfold AddressBook.set. destruct (v a1), (v a2); cbn; try done.
  f_equal. unfold AddressBook.extend.
  rewrite <- !insert_union_singleton_l. by apply insert_insert_ne.
Qed.

Lemma addressbook_sets_commute_witness :
  let valid := fun _ : string => true in
  let c := AddressBook.mkController (AddressBook.mkState ∅) [] in
  AddressBook.state
    (AddressBook.set valid "0xB" "Bob" None None
       (AddressBook.set valid "0xA" "Alice" None None c).2).2
  = AddressBook.state
      (AddressBook.set valid "0xA" "Alice" None None
         (AddressBook.set valid "0xB" "Bob" None None c).2).2.
Proof.
  intros valid c.
  apply (addressbook_sets_commute valid "0xA" "0xB" "Alice" "Bob"
           None None None None c).
  discriminate.
Defined.

(** X5: whatever sequence of [set], [delete] and [clear] is applied to a
    book whose entries are filed under their own, accepted addresses, the
    book stays that way: no call stores an entry under another address or
    under an address the validator rejects. *)
Theorem addressbook_stays_well_keyed :
  forall (isValidAddress : string -> bool)
         (ms : list AddressBook.Mutation) (c : AddressBook.Controller),
    AddressBook.well_keyed isValidAddress
      (AddressBook.addressBook (AddressBook.state c)) ->
    AddressBook.well_keyed isValidAddress
      (AddressBook.addressBook
         (AddressBook.state (AddressBook.mutate_all isValidAddress ms c))).
Proof.
  intros v ms. induction ms as [|m ms IH]; intros c Hwk; cbn; [done|].
  apply IH. by apply mutate_well_keyed.
Qed.

Lemma addressbook_stays_well_keyed_witness :
  let valid := String.eqb "0xA" in
  AddressBook.well_keyed valid
    (AddressBook.addressBook
       (AddressBook.state
          (AddressBook.mutate_all valid
             [AddressBook.DoSet "0xA" "Alice" None None;
              AddressBook.DoSet "bogus" "Eve" None None;
              AddressBook.DoDelete "0xZ"]
             (AddressBook.mkController (AddressBook.mkState ∅) [])))).
Proof.
  intros valid.
  apply (addressbook_stays_well_keyed valid).
  intros k e Hk. cbn in Hk. by rewrite lookup_empty in Hk.
Defined.

(** X6: the controller notifies once for every mutation that goes through
    and never for a rejected [set]: after any sequence of calls the number
    of notifications has grown by the number of calls other than rejected
    [set]s, and when it has grown at all the last notification carries
    the current state. *)
Theorem addressbook_notifies_per_mutation :
  forall (isValidAddress : string -> bool)
         (ms : list AddressBook.Mutation) (c : AddressBook.Controller),
    let c' := AddressBook.mutate_all isValidAddress ms c in
    let sent := filter (fun m => AddressBook.goes_through isValidAddress m
                                 = true) ms in
    length (AddressBook.notified c')
    = (length (AddressBook.notified c) + length sent)%nat
    /\ (sent <> [] ->
        last (AddressBook.notified c') = Some (AddressBook.state c'))
    /\ (sent = [] -> c' = c).
Proof.
  intros v ms. induction ms as [|m ms IH]; intros c c' sent; subst c' sent.
  - cbn. split; [lia|]. by split.
  - cbn [AddressBook.mutate_all foldl].
    fold (AddressBook.mutate_all v ms (AddressBook.mutate v c m)).
    destruct (IH (AddressBook.mutate v c m)) as (Hlen & Hlast & Hsame).
    rewrite filter_cons. rewrite (mutate_notified v m c) in Hlen.
    destruct (AddressBook.goes_through v m) eqn:Hg.
    + rewrite decide_True by done. split.
      { rewrite Hlen, length_app. cbn. lia. }
      split; [|done]. intros _.
      destruct (filter _ ms) as [|m' rest] eqn:Hf.
      * rewrite (Hsame eq_refl), (mutate_notified v m c), Hg.
        by rewrite last_snoc.
      * by apply Hlast.
    + rewrite decide_False by (by intros ?). split.
      { rewrite Hlen, length_app. cbn. lia. }
      assert (AddressBook.mutate v c m = c) as Hc.
      { destruct m as [a n ch me| |]; try done. cbn in *.
        unfold AddressBook.set. by rewrite Hg. }
      rewrite Hc in *. by split.
Qed.

(** ** The registry of endowment builders *)

(** X7: whatever the network-access builder is, every builder in
    [endowmentPermissionBuilders] is filed under its own target key, the
    key ["endowment:wasm"] resolves to the wasm builder (also when the
    network-access builder claims the same key: the later entry of the
    object literal wins), and the registry holds no third key. *)
Theorem endowment_registry_keyed :
  forall (B G : Type) (net : Wasm.Builder B G),
    let registry := Wasm.endowmentPermissionBuilders net in
    (forall key b, registry !! key = Some b -> Wasm.builder_targetKey b = key)
    /\ registry !! "endowment:wasm" = Some Wasm.webAssemblyEndowmentBuilder
    /\ (Wasm.builder_targetKey net <> "endowment:wasm" ->
        registry !! Wasm.builder_targetKey net = Some net)
    /\ (forall key, key <> "endowment:wasm" ->
        key <> Wasm.builder_targetKey net -> registry !! key = None).
Proof.
  intros B G net registry. subst registry.
  unfold Wasm.endowmentPermissionBuilders. cbn.
  split; [|split; [|split]].
  - intros key b Hk.
    apply lookup_insert_Some in Hk as [[<- <-]|[Hne Hk]]; [done|].
    apply lookup_insert_Some in Hk as [[<- <-]|[_ Hk]]; [done|].
    by rewrite lookup_empty in Hk.
  - apply lookup_insert_eq.
  - intros Hne. rewrite lookup_insert_ne by done. apply lookup_insert_eq.
  - intros key H1 H2. rewrite !lookup_insert_ne by done. apply lookup_empty.
Qed.

(** ** Currency rate: what no step changes, and invariants of runs *)

Section Invariants.

Lemma config_set_pc t p s : config (set_pc t p s) = config s.
Proof. unfold set_pc. by destruct (calls s !! t). Qed.

Lemma config_sched s : config (sched s) = config s.
Proof.
  unfold sched. destruct (count (mutex s)); [done|].
  destruct (waiting (mutex s)); [done|].
  change (config (emit ?e ?x)) with (config x). by rewrite config_set_pc.
Qed.

Lemma config_releaseLock t s : config (releaseLock t s) = config s.
Proof. unfold releaseLock. by rewrite config_sched. Qed.

Lemma config_poll s : config (poll s) = config s.
Proof. unfold poll. by destruct (handle s). Qed.

Lemma config_destroy s : config (destroy s) = config s.
Proof. unfold destroy, super_destroy. cbn. by destruct (handle s). Qed.

Lemma config_resumed t c o s : config (resumed t c o s) = config s.
Proof.
  unfold resumed. rewrite await_safelyExecute.
  destruct c;
    change (config (emit ?e ?x)) with (config x);
    apply config_set_pc.
Qed.

Lemma config_fetched t sn s :
  config (updateExchangeRate_fetched t sn s) = config s.
Proof.
  unfold updateExchangeRate_fetched.
  destruct (fetchExchangeRate s t _ _ _); cbv zeta beta iota;
    change (config (emit ?e ?x)) with (config x);
    by rewrite config_set_pc, config_releaseLock.
Qed.

Lemma step_config l s s' : step l s = Some s' -> config s' = config s.
Proof.
  intros Hs. destruct l; cbn in Hs.
  - by injection Hs as <-.
  - by injection Hs as <-.
  - by injection Hs as <-.
  - injection Hs as <-. apply config_poll.
  - injection Hs as <-. apply config_destroy.
  - injection Hs as <-. apply config_sched.
  - destruct (calls s !! t) as [[c0 p0]|]; [|done].
    destruct p0; try done. injection Hs as <-.
    unfold updateExchangeRate_locked. by rewrite config_set_pc.
  - destruct (calls s !! t) as [[c0 p0]|]; [|done].
    destruct p0; try done. injection Hs as <-. apply config_fetched.
  - destruct (calls s !! t) as [[c0 p0]|]; [|done].
    destruct p0; try done. injection Hs as <-. apply config_resumed.
  - destruct (timer_due h s); [|done]. injection Hs as <-.
    by rewrite config_poll.
  - destruct (Z.leb 0 d); [|done]. by injection Hs as <-.
Qed.

(** A property that the constructor establishes and every step keeps
    holds after every run. *)
Lemma run_invariant (P : Sys -> Prop) :
  (forall l s s', Inv s -> P s -> step l s = Some s' -> P s') ->
  forall ls s s', Inv s -> P s -> run ls s = Some s' -> P s'.
Proof.
  intros Hstep ls. induction ls as [|l ls IH]; intros s s' HI HP Hr;
    cbn in Hr.
  - by injection Hr as <-.
  - destruct (step l s) as [s1|] eqn:Hs; [|done].
    apply (IH s1); [by apply (step_Inv l s) | by apply (Hstep l s) | done].
Qed.

(** The same over the runs whose labels all pass a test. *)
Lemma run_invariant_where (ok : Label -> bool) (P : Sys -> Prop) :
  (forall l s s', ok l = true -> Inv s -> P s -> step l s = Some s' -> P s') ->
  forall ls s s',
    forallb ok ls = true -> Inv s -> P s -> run ls s = Some s' -> P s'.
Proof.
  intros Hstep ls. induction ls as [|l ls IH]; intros s s' Hok HI HP Hr;
    cbn in Hr.
  - by injection Hr as <-.
  - cbn in Hok. apply andb_true_iff in Hok as [Hl Hls].
    destruct (step l s) as [s1|] eqn:Hs; [|done].
    apply (IH s1);
      [done | by apply (step_Inv l s) | by apply (Hstep l s) | done].
Qed.

Lemma run_config ls s s' : run ls s = Some s' -> config s' = config s.
Proof.
  revert s. induction ls as [|l ls IH]; intros s Hr; cbn in Hr.
  - by injection Hr as <-.
  - destruct (step l s) as [s1|] eqn:Hs; [|done].
    rewrite (IH s1 Hr). by apply (step_config l).
Qed.

Lemma config_fields s s' :
  config s' = config s ->
  interval s' = interval s /\ fetchExchangeRate s' = fetchExchangeRate s
  /\ includeUsdRate s' = includeUsdRate s.
Proof. unfold config. by intros [= -> -> ->]. Qed.

Lemma fetches_of_elem t q b u tr :
  (q, b, u) ∈ fetches_of t tr <-> Fetch t q b u ∈ tr.
Proof.
  unfold fetches_of. rewrite list_elem_of_omap. split.
  - intros (e & He & Hm). destruct e; try done.
    destruct (Nat.eqb t0 t) eqn:E; [|done].
    apply Nat.eqb_eq in E. subst t0. by injection Hm as -> -> ->.
  - intros He. exists (Fetch t q b u). split; [done|].
    by rewrite Nat.eqb_refl.
Qed.

End Invariants.

(** X8: a call of [updateExchangeRate] invokes the rate source at most
    once, never before it has been admitted and has resumed, and exactly
    once by the time it awaits the answer or has settled; a call number
    that has not been issued has no fetch. *)
Theorem rate_source_invoked_once_per_call :
  forall (dflt : RateSource) (st : option PartialState) (usd : option bool)
         (src : option RateSource) (ls : list Label) (s : Sys) (t : CallId),
    run ls (constructor dflt st usd src) = Some s ->
    match calls s !! t with
    | Some k =>
        length (fetches_of t (trace s))
        = (if past_snapshot (pc k) then 1 else 0)%nat
    | None => fetches_of t (trace s) = []
    end.
Proof.
  intros dflt st usd src ls s t Hr.
  pose proof (reachable_Inv _ _ _ _ _ _ Hr) as HI.
  destruct (calls s !! t) as [k|] eqn:Hk.
  - pose proof (inv_fetch _ _ _ _ HI t k Hk) as Hf. unfold fetched_ok in Hf.
    destruct (pc k); cbn; by rewrite ?Hf.
  - apply (inv_fresh _ _ _ _ HI). by apply lookup_ge_None.
Qed.

Lemma rate_source_invoked_once_per_call_witness :
  exists s,
    run [NextTick; Resume 0; CallUpdateExchangeRate; FetchSettles 0]
      Scenario.fresh = Some s
    /\ length (fetches_of 0 (trace s)) = 1%nat
    /\ length (fetches_of 1 (trace s)) = 0%nat.
Proof.
  pose (s := updateExchangeRate_fetched 0 (mkSnapshot "usd" "ETH" None None)
               (updateExchangeRate_call Direct
                  (updateExchangeRate_locked 0 (sched Scenario.fresh)))).
  assert (run [NextTick; Resume 0; CallUpdateExchangeRate; FetchSettles 0]
            Scenario.fresh = Some s) as Hr by (vm_compute; reflexivity).
  exists s. split; [exact Hr|]. split.
  - exact (rate_source_invoked_once_per_call Scenario.steady None None None
             _ s 0 Hr).
  - exact (rate_source_invoked_once_per_call Scenario.steady None None None
             _ s 1 Hr).
Defined.

Section Publications.

Lemma same_confirmed_sym a b : same_confirmed a b -> same_confirmed b a.
Proof. intros (?&?&?&?&?). by repeat split. Qed.

(** A step either leaves the state alone and publishes nothing, or
    publishes the state it leaves behind as its only publication. *)
Lemma step_publishes l s s' :
  step l s = Some s' ->
  (state s' = state s /\ publications (trace s') = publications (trace s))
  \/ publications (trace s') = publications (trace s) ++ [state s'].
Proof.
  intros Hs. destruct l; cbn in Hs.
  - injection Hs as <-. right. unfold setCurrentCurrency.
    by rewrite trace_call, trace_update, !publications_app, app_nil_r.
  - injection Hs as <-. right. unfold setNativeCurrency.
    by rewrite trace_call, trace_update, !publications_app, app_nil_r.
  - injection Hs as <-. left. split; [done|].
    by rewrite trace_call, publications_app, app_nil_r.
  - injection Hs as <-. left. rewrite state_poll, trace_poll.
    split; [done|]. by rewrite publications_app, app_nil_r.
  - injection Hs as <-. left. rewrite state_destroy, trace_destroy.
    split; [done|]. by rewrite publications_app, app_nil_r.
  - injection Hs as <-. left. rewrite state_sched, trace_sched.
    split; [done|].
    by rewrite publications_app, publications_granted, app_nil_r.
  - destruct (calls s !! t) as [[c0 p0]|]; [|done].
    destruct p0; try done. injection Hs as <-. left.
    unfold updateExchangeRate_locked. rewrite state_set_pc, trace_set_pc.
    split; [done|]. cbn. by rewrite publications_app, app_nil_r.
  - destruct (calls s !! t) as [[c0 p0]|]; [|done].
    destruct p0 as [| |sn| |]; try done. injection Hs as <-.
    rewrite state_fetched, trace_fetched.
    destruct (fetchExchangeRate s t _ _ _).
    + right. rewrite publications_app, !publications_cons,
        publications_app, publications_granted. done.
    + left. split; [done|].
      rewrite publications_app, !publications_cons,
        publications_app, publications_granted. cbn. by rewrite app_nil_r.
  - destruct (calls s !! t) as [[c0 p0]|]; [|done].
    destruct p0; try done. injection Hs as <-. left.
    rewrite state_resumed, trace_resumed. split; [done|].
    rewrite publications_app. destruct c0; cbn; by rewrite app_nil_r.
  - destruct (timer_due h s); [|done]. injection Hs as <-. left.
    rewrite state_poll, trace_poll. split; [done|].
    by rewrite publications_app, app_nil_r.
  - destruct (Z.leb 0 d); [|done]. injection Hs as <-. by left.
Qed.

End Publications.

(** X9: subscribers are never stale.  In every reachable state the state
    of the controller is the last one it published, or the initial state
    when it has published nothing yet: every write of the state is
    published, by requests and by commits alike. *)
Theorem last_publication_is_current_state :
  forall (dflt : RateSource) (st : option PartialState) (usd : option bool)
         (src : option RateSource) (ls : list Label) (s : Sys),
    run ls (constructor dflt st usd src) = Some s ->
    last (state (constructor dflt st usd src) :: publications (trace s))
    = Some (state s).
Proof.
  intros dflt st usd src ls s Hr.
  apply (run_invariant
           (fun s0 =>
              last (state (constructor dflt st usd src)
                      :: publications (trace s0)) = Some (state s0)))
    with (ls := ls) (s := constructor dflt st usd src); [| | |exact Hr].
  - intros l s0 s1 _ HP Hs.
    destruct (step_publishes l s0 s1 Hs) as [[-> ->] | ->]; [done|].
    by rewrite app_comm_cons, last_snoc.
  - apply constructor_Inv.
  - unfold constructor. by rewrite trace_poll.
Qed.

Lemma last_publication_is_current_state_witness :
  exists s,
    run [CallSetNativeCurrency "BTC"; NextTick; Resume 0; FetchSettles 0]
      Scenario.fresh = Some s
    /\ last (publications (trace s)) = Some (state s).
Proof.
  pose (s := updateExchangeRate_fetched 0
               (mkSnapshot "usd" "ETH" None (Some "BTC"))
               (updateExchangeRate_locked 0
                  (sched (setNativeCurrency "BTC" Scenario.fresh)))).
  assert (run [CallSetNativeCurrency "BTC"; NextTick; Resume 0;
               FetchSettles 0] Scenario.fresh = Some s) as Hr
    by (vm_compute; reflexivity).
  exists s. split; [exact Hr|].
  pose proof (last_publication_is_current_state Scenario.steady None None
                None _ s Hr) as H.
  exact H.
Defined.

(** X10: the rate on display always belongs to the pair on display.  In
    every reachable state either the confirmed fields are still those the
    controller was constructed with, or [currentCurrency] and
    [nativeCurrency] are a pair that was handed to the rate source, and
    [conversionRate], [conversionDate] and [usdConversionRate] are what the
    rate source answered for exactly that pair. *)
Theorem confirmed_rate_matches_confirmed_pair :
  forall (dflt : RateSource) (st : option PartialState) (usd : option bool)
         (src : option RateSource) (ls : list Label) (s : Sys),
    run ls (constructor dflt st usd src) = Some s ->
    same_confirmed (state s) (state (constructor dflt st usd src))
    \/ exists t r,
         Fetch t (currentCurrency (state s)) (nativeCurrency (state s))
           (includeUsdRate s) ∈ trace s
         /\ fetchExchangeRate s t (currentCurrency (state s))
              (nativeCurrency (state s)) (includeUsdRate s) = Fulfilled r
         /\ conversionRate (state s) = fetched_conversionRate r
         /\ conversionDate (state s) = fetched_conversionDate r
         /\ usdConversionRate (state s) = fetched_usdConversionRate r.
Proof.
  intros dflt st usd src ls s Hr.
  apply (run_invariant
           (fun s0 =>
              same_confirmed (state s0) (state (constructor dflt st usd src))
              \/ exists t r,
                   Fetch t (currentCurrency (state s0))
                     (nativeCurrency (state s0)) (includeUsdRate s0)
                     ∈ trace s0
                   /\ fetchExchangeRate s0 t (currentCurrency (state s0))
                        (nativeCurrency (state s0)) (includeUsdRate s0)
                      = Fulfilled r
                   /\ conversionRate (state s0) = fetched_conversionRate r
                   /\ conversionDate (state s0) = fetched_conversionDate r
                   /\ usdConversionRate (state s0)
                      = fetched_usdConversionRate r))
    with (ls := ls) (s := constructor dflt st usd src); [| | |exact Hr].
  - intros l s0 s1 HI HP Hs.
    destruct (config_fields _ _ (step_config l s0 s1 Hs)) as (_ & Hsrc & Hu).
    destruct (step_trace l s0 s1 Hs) as (new & Htr & _).
    rewrite Hsrc, Hu, Htr.
    destruct (is_settlement l) eqn:Hl.
    + destruct l; try done. cbn in Hs.
      destruct (calls s0 !! t) as [[c0 p0]|] eqn:Ht; [|done].
      destruct p0 as [| |sn| |]; try done. injection Hs as <-.
      rewrite state_fetched.
      destruct (fetchExchangeRate s0 t _ _ _) as [r|e] eqn:Hf.
      * right. exists t, r. cbn. split; [|by rewrite Hf].
        apply elem_of_app. left. apply fetches_of_elem.
        pose proof (inv_fetch _ _ _ _ HI t _ Ht) as Hfe.
        unfold fetched_ok in Hfe. cbn in Hfe. rewrite Hfe.
        by apply list_elem_of_singleton.
      * destruct HP as [HP|(t' & r & Hin & HP)]; [by left|].
        right. exists t', r. split; [|done]. apply elem_of_app. by left.
    + assert (forall t, l <> FetchSettles t) as Hne by (by intros t ->).
      destruct (step_state l s0 s1 Hs Hne) as ((Hd & Hra & Hc & Hn & Hus) & _).
      destruct HP as [HP|(t' & r & Hin & Hans & H1 & H2 & H3)].
      * left. apply (same_confirmed_trans _ (state s0)); [|done].
        by apply same_confirmed_sym.
      * right. exists t', r. rewrite <- Hd, <- Hra, <- Hc, <- Hn, <- Hus.
        split; [|done]. apply elem_of_app. by left.
  - apply constructor_Inv.
  - left. apply same_confirmed_refl.
Qed.

Lemma confirmed_rate_matches_confirmed_pair_witness :
  exists s t r,
    run [CallSetCurrentCurrency "eur"; NextTick; Resume 0; FetchSettles 0]
      Scenario.fresh = Some s
    /\ currentCurrency (state s) = "eur"
    /\ Fetch t "eur" "ETH" false ∈ trace s
    /\ Scenario.steady t "eur" "ETH" false = Fulfilled r
    /\ conversionRate (state s) = fetched_conversionRate r.
Proof.
  pose (s := updateExchangeRate_fetched 0
               (mkSnapshot "usd" "ETH" (Some "eur") None)
               (updateExchangeRate_locked 0
                  (sched (setCurrentCurrency "eur" Scenario.fresh)))).
  assert (run [CallSetCurrentCurrency "eur"; NextTick; Resume 0;
               FetchSettles 0] Scenario.fresh = Some s) as Hr
    by (vm_compute; reflexivity).
  destruct (confirmed_rate_matches_confirmed_pair Scenario.steady None None
              None _ s Hr) as [(_ & _ & Hc & _)|(t & r & H1 & H2 & H3 & _)].
  - vm_compute in Hc. discriminate.
  - exists s, t, r. split; [exact Hr|]. split; [reflexivity|].
    split; [exact H1|]. split; [exact H2 | exact H3].
Defined.

(** X11: only the settlement of a fetch writes a confirmed field.  Over
    any run without a settlement (requests, direct refreshes, teardown,
    ticks, admissions, continuations, time), [conversionDate],
    [conversionRate], [currentCurrency], [nativeCurrency] and
    [usdConversionRate] end as they began. *)
Theorem confirmed_fields_written_by_settlement_only :
  forall (ls : list Label) (s s' : Sys),
    run ls s = Some s' ->
    forallb (fun l => negb (is_settlement l)) ls = true ->
    same_confirmed (state s) (state s').
Proof.
  induction ls as [|l ls IH]; intros s s' Hr Hls; cbn in Hr.
  - injection Hr as <-. apply same_confirmed_refl.
  - destruct (step l s) as [s1|] eqn:Hs; [|done].
    cbn in Hls. apply andb_true_iff in Hls as [Hl Hls].
    apply (same_confirmed_trans _ (state s1)); [|by apply IH].
    apply (step_state l s s1 Hs). intros t ->. done.
Qed.

Lemma confirmed_fields_written_by_settlement_only_witness :
  exists s',
    run [NextTick; Resume 0; CallSetCurrentCurrency "eur"; CallDestroy;
         TimePasses 7]
      Scenario.fresh = Some s'
    /\ same_confirmed (state Scenario.fresh) (state s').
Proof.
  pose (s' := with_now 7
                (destroy
                   (setCurrentCurrency "eur"
                      (updateExchangeRate_locked 0
                         (sched Scenario.fresh))))).
  assert (run [NextTick; Resume 0; CallSetCurrentCurrency "eur"; CallDestroy;
               TimePasses 7] Scenario.fresh = Some s') as Hr
    by (vm_compute; reflexivity).
  exists s'. split; [exact Hr|].
  exact (confirmed_fields_written_by_settlement_only _ _ _ Hr eq_refl).
Defined.

(** ** Currency rate: requests and refreshes from end to end *)

Section EndToEnd.

Lemma run_cons l ls s :
  run (l :: ls) s =
  match step l s with
  | Some s' => run ls s'
  | None => None
  end.
Proof. reflexivity. Qed.

Lemma step_Resume t c s :
  calls s !! t = Some (mkCall c Locked) ->
  step (Resume t) s = Some (updateExchangeRate_locked t s).
Proof. intros H. cbn. by rewrite H. Qed.

Lemma step_FetchSettles t c sn s :
  calls s !! t = Some (mkCall c (AwaitFetch sn)) ->
  step (FetchSettles t) s = Some (updateExchangeRate_fetched t sn s).
Proof. intros H. cbn. by rewrite H. Qed.

Lemma step_Continue t c o s :
  calls s !! t = Some (mkCall c (Settled o)) ->
  step (Continue t) s = Some (resumed t c o s).
Proof. intros H. cbn. by rewrite H. Qed.

Lemma js_or_truthy code d : code <> "" -> js_or (Some code) d = code.
Proof. intros H. by destruct code. Qed.

Lemma locked_snapshot t c s :
  calls s !! t = Some (mkCall c Locked) ->
  let s' := updateExchangeRate_locked t s in
  calls s' !! t = Some (mkCall c (AwaitFetch (snapshot_of (state s))))
  /\ state s' = state s /\ config s' = config s /\ mutex s' = mutex s
  /\ trace s' =
     trace s ++ [Fetch t (quote_of (snapshot_of (state s)))
                   (base_of (snapshot_of (state s))) (includeUsdRate s)].
Proof.
  intros Ht s'. subst s'. unfold updateExchangeRate_locked.
  fold (snapshot_of (state s)).
  rewrite state_set_pc, config_set_pc, trace_set_pc.
  split; [|split; [done|split; [done|split; [|done]]]].
  - by apply (calls_set_pc_eq t c Locked).
  - rewrite (set_pc_known t c Locked) by done. done.
Qed.

(** The first waiter of a free lock is admitted at the next tick, resumes
    and invokes the rate source for the pair of the state as it is. *)
Lemma head_admitted s n t rest c :
  mutex s = mkMutex (S n) (t :: rest) ->
  calls s !! t = Some (mkCall c AwaitLock) ->
  exists s3,
    run [NextTick; Resume t] s = Some s3
    /\ calls s3 !! t = Some (mkCall c (AwaitFetch (snapshot_of (state s))))
    /\ state s3 = state s /\ config s3 = config s
    /\ mutex s3 = mkMutex n rest
    /\ (forall t', t' <> t -> calls s3 !! t' = calls s !! t')
    /\ trace s3 =
       trace s ++ [Grant t;
                   Fetch t (quote_of (snapshot_of (state s)))
                     (base_of (snapshot_of (state s))) (includeUsdRate s)].
Proof.
  intros Hm Ht.
  assert (sched s = emit (Grant t)
                      (with_calls (<[t := mkCall c Locked]> (calls s))
                         (with_mutex (mkMutex n rest) s))) as Hsched.
  { unfold sched. rewrite Hm. cbn.
    by rewrite (set_pc_known t c AwaitLock). }
  assert (calls (sched s) !! t = Some (mkCall c Locked)) as Ht2.
  { rewrite Hsched. cbn. apply list_lookup_insert_eq.
    by apply lookup_lt_Some in Ht. }
  destruct (locked_snapshot t c (sched s) Ht2) as (H1 & H2 & H3 & H4 & H5).
  exists (updateExchangeRate_locked t (sched s)).
  split. { rewrite run_cons. cbn [step]. rewrite run_cons.
           by rewrite (step_Resume t c). }
  rewrite state_sched in *. rewrite config_sched in H3.
  split; [done|]. split; [done|]. split; [done|].
  split. { rewrite H4, Hsched. done. }
  split.
  - intros t' Hne. unfold updateExchangeRate_locked.
    rewrite calls_set_pc_ne by done.
    change (calls (sched s) !! t' = calls s !! t').
    rewrite Hsched. cbn. by rewrite list_lookup_insert_ne.
  - rewrite H5, Hsched. cbn. rewrite <- app_assoc. cbn.
    destruct (config_fields _ _ (config_sched s)) as (_ & _ & Hu).
    rewrite Hsched in Hu. cbn in Hu. done.
Qed.

Lemma run_app l1 l2 s :
  run (l1 ++ l2) s =
  match run l1 s with
  | Some s' => run l2 s'
  | None => None
  end.
Proof.
  revert s. induction l1 as [|l l1 IH]; intros s; cbn; [done|].
  destruct (step l s); [apply IH | done].
Qed.

End EndToEnd.

(** X12: a request made while the lock is free and nobody waits is
    honoured by its own refresh.  After [setCurrentCurrency(code)] with a
    non-empty code, the next tick admits the refresh, the rate source is
    asked for [code] against the current base, and when it answers the
    state holds [code] as [currentCurrency] with the answer's date and
    rates and both pending fields null; when it rejects, the state is
    the one the request left, with [code] still pending. *)
Theorem idle_request_is_honoured :
  forall (s : Sys) (code : string),
    mutex s = mkMutex 1 [] ->
    code <> "" ->
    let t := length (calls s) in
    let base :=
      js_or (pendingNativeCurrency (state s)) (nativeCurrency (state s)) in
    exists s3 s',
      run [CallSetCurrentCurrency code; NextTick; Resume t] s = Some s3
      /\ trace s3 =
         trace (setCurrentCurrency code s)
           ++ [Grant t; Fetch t code base (includeUsdRate s)]
      /\ step (FetchSettles t) s3 = Some s'
      /\ match fetchExchangeRate s t code base (includeUsdRate s) with
         | Fulfilled r =>
             state s' =
             mkState (fetched_conversionDate r) (fetched_conversionRate r)
               code base None None (fetched_usdConversionRate r)
         | Rejected _ =>
             state s' = state (setCurrentCurrency code s)
             /\ pendingCurrentCurrency (state s') = Some code
         end.
Proof.
  intros s code Hm Hcode t base. subst t base.
  set (s1 := setCurrentCurrency code s).
  assert (mutex s1 = mkMutex 1 [length (calls s)]) as Hm1.
  { subst s1. unfold setCurrentCurrency, updateExchangeRate_call, acquire.
    cbn. by rewrite Hm. }
  assert (calls s1 !! length (calls s)
          = Some (mkCall SetCurrentCurrency AwaitLock)) as Ht1.
  { subst s1. cbn. by rewrite lookup_app_r, Nat.sub_diag. }
  destruct (head_admitted s1 0 _ [] _ Hm1 Ht1)
    as (s3 & Hr & Ht3 & Hst & Hcfg & _ & _ & Htr).
  destruct (config_fields _ _ Hcfg) as (_ & Hsrc & Hu).
  assert (quote_of (snapshot_of (state s1)) = code) as Hq.
  { subst s1. unfold quote_of. cbn. by apply js_or_truthy. }
  assert (base_of (snapshot_of (state s1))
          = js_or (pendingNativeCurrency (state s))
              (nativeCurrency (state s))) as Hb by done.
  exists s3. eexists.
  split. { rewrite run_cons. cbn [step]. exact Hr. }
  split. { rewrite Htr, Hq, Hb. done. }
  split. { by apply (step_FetchSettles _ SetCurrentCurrency). }
  rewrite state_fetched, Hsrc, Hu, Hq, Hb.
  change (fetchExchangeRate s1) with (fetchExchangeRate s).
  change (includeUsdRate s1) with (includeUsdRate s).
  destruct (fetchExchangeRate s _ _ _ _).
  - unfold committed. by rewrite Hq, Hb.
  - rewrite Hst. done.
Qed.

Lemma idle_request_is_honoured_witness :
  exists s s3 s',
    run [NextTick; Resume 0; FetchSettles 0; Continue 0] Scenario.fresh
      = Some s
    /\ run [CallSetCurrentCurrency "eur"; NextTick; Resume 1] s = Some s3
    /\ step (FetchSettles 1) s3 = Some s'
    /\ state s' =
       mkState (1000 # 1)%Q (91 # 100)%Q "eur" "ETH" None None None.
Proof.
  pose (s := resumed 0 Poll (Fulfilled None)
               (updateExchangeRate_fetched 0
                  (mkSnapshot "usd" "ETH" None None)
                  (updateExchangeRate_locked 0 (sched Scenario.fresh)))).
  assert (run [NextTick; Resume 0; FetchSettles 0; Continue 0]
            Scenario.fresh = Some s) as Hr by (vm_compute; reflexivity).
  destruct (idle_request_is_honoured s "eur")
    as (s3 & s' & H1 & _ & H3 & H4); [reflexivity | discriminate |].
  exists s, s3, s'. split; [exact Hr|]. split; [exact H1|].
  split; [exact H3 | exact H4].
Defined.

Section Handover.

(** A call that resumes in a state with no pending field asks for the
    confirmed pair. *)
Lemma resume_fetches_pair t c s :
  calls s !! t = Some (mkCall c Locked) ->
  exists s',
    step (Resume t) s = Some s'
    /\ trace s' =
       trace s ++ [Fetch t (quote_of (snapshot_of (state s)))
                     (base_of (snapshot_of (state s))) (includeUsdRate s)].
Proof.
  intros Ht. exists (updateExchangeRate_locked t s).
  split; [by apply (step_Resume t c)|].
  by destruct (locked_snapshot t c s Ht) as (_ & _ & _ & _ & ->).
Qed.

End Handover.

(** X13: a request that arrives while a refresh awaits the rate source is
    lost when that refresh succeeds.  The request writes its code into
    [pendingCurrentCurrency] at once; the commit of the refresh in flight,
    whose snapshot is older, then clears the field and confirms the pair
    of its own snapshot.  When nobody else waits, the request's own
    refresh is admitted at that release and asks the rate source for the
    old pair again, not for the requested code. *)
Theorem request_during_fetch_is_overwritten :
  forall (s : Sys) (t : CallId) (c : Caller) (sn : Snapshot)
         (r : FetchResult) (code : string),
    calls s !! t = Some (mkCall c (AwaitFetch sn)) ->
    waiting (mutex s) = [] ->
    fetchExchangeRate s t (quote_of sn) (base_of sn) (includeUsdRate s)
      = Fulfilled r ->
    exists s' s'',
      run [CallSetCurrentCurrency code; FetchSettles t] s = Some s'
      /\ pendingCurrentCurrency (state (setCurrentCurrency code s))
         = Some code
      /\ state s' = committed sn r
      /\ pendingCurrentCurrency (state s') = None
      /\ step (Resume (length (calls s))) s' = Some s''
      /\ trace s'' =
         trace s' ++ [Fetch (length (calls s)) (quote_of sn) (base_of sn)
                        (includeUsdRate s)].
Proof.
  intros s t c sn r code Ht Hw Hf.
  set (s1 := setCurrentCurrency code s).
  assert (calls s1 !! t = Some (mkCall c (AwaitFetch sn))) as Ht1.
  { subst s1. unfold setCurrentCurrency. by apply calls_call. }
  assert (calls s1 !! length (calls s)
          = Some (mkCall SetCurrentCurrency AwaitLock)) as Hnew.
  { subst s1. cbn. by rewrite lookup_app_r, Nat.sub_diag. }
  assert (waiting (mutex s1) = [length (calls s)]) as Hw1.
  { subst s1. cbn. by rewrite Hw. }
  assert (t <> length (calls s)) as Hne.
  { apply lookup_lt_Some in Ht. lia. }
  set (s' := updateExchangeRate_fetched t sn s1).
  assert (state s' = committed sn r) as Hst.
  { subst s'. rewrite state_fetched.
    change (fetchExchangeRate s1) with (fetchExchangeRate s).
    change (includeUsdRate s1) with (includeUsdRate s). by rewrite Hf. }
  assert (calls s' !! length (calls s)
          = Some (mkCall SetCurrentCurrency Locked)) as Hlocked.
  { subst s'. by apply (fetched_grants_head t sn _ []). }
  destruct (resume_fetches_pair _ _ s' Hlocked) as (s'' & Hres & Htr).
  exists s', s''.
  split. { rewrite run_cons. cbn [step]. rewrite run_cons.
           by rewrite (step_FetchSettles t c sn). }
  split; [done|]. split; [done|]. split; [by rewrite Hst|].
  split; [done|]. rewrite Htr, Hst.
  destruct (config_fields _ _ (config_fetched t sn s1)) as (_ & _ & Hu).
  fold s' in Hu. rewrite Hu. done.
Qed.

Lemma request_during_fetch_is_overwritten_witness :
  exists s s' s'',
    run [NextTick; Resume 0] Scenario.fresh = Some s
    /\ run [CallSetCurrentCurrency "eur"; FetchSettles 0] s = Some s'
    /\ pendingCurrentCurrency (state s') = None
    /\ currentCurrency (state s') = "usd"
    /\ step (Resume 1) s' = Some s''
    /\ trace s'' = trace s' ++ [Fetch 1 "usd" "ETH" false].
Proof.
  pose (s := updateExchangeRate_locked 0 (sched Scenario.fresh)).
  assert (run [NextTick; Resume 0] Scenario.fresh = Some s) as Hr
    by (vm_compute; reflexivity).
  destruct (request_during_fetch_is_overwritten s 0 Poll
              (mkSnapshot "usd" "ETH" None None) Scenario.eur_rate "eur")
    as (s' & s'' & H1 & _ & H3 & H4 & H5 & H6);
    [reflexivity | reflexivity | reflexivity |].
  exists s, s', s''. split; [exact Hr|]. split; [exact H1|].
  split; [exact H4|]. split; [by rewrite H3|].
  split; [exact H5 | exact H6].
Defined.

(** X14: two requests made back to back on an idle controller are
    resolved together.  After [setCurrentCurrency(a)] and
    [setNativeCurrency(b)] with non-empty arguments, the refresh of the
    first request asks the rate source for the pair [(a, b)]; when it
    answers, one commit confirms both and clears both pending fields.  The
    refresh of the second request, admitted at that release, then asks
    for the same pair [(a, b)] once more. *)
Theorem two_requests_one_commit :
  forall (s : Sys) (a b : string),
    mutex s = mkMutex 1 [] ->
    a <> "" -> b <> "" ->
    let t := length (calls s) in
    exists s3 s',
      run [CallSetCurrentCurrency a; CallSetNativeCurrency b; NextTick;
           Resume t] s = Some s3
      /\ fetches_of t (trace s3)
         = fetches_of t (trace s) ++ [(a, b, includeUsdRate s)]
      /\ step (FetchSettles t) s3 = Some s'
      /\ forall r,
           fetchExchangeRate s t a b (includeUsdRate s) = Fulfilled r ->
           state s' =
           mkState (fetched_conversionDate r) (fetched_conversionRate r)
             a b None None (fetched_usdConversionRate r)
           /\ publications (trace s') = publications (trace s3) ++ [state s']
           /\ exists s'',
                step (Resume (S t)) s' = Some s''
                /\ trace s'' =
                   trace s' ++ [Fetch (S t) a b (includeUsdRate s)].
Proof.
  intros s a b Hm Ha Hb t. subst t.
  set (t := length (calls s)).
  set (s2 := setNativeCurrency b (setCurrentCurrency a s)).
  assert (mutex s2 = mkMutex 1 [t; S t]) as Hm2.
  { subst s2 t. cbn. rewrite Hm. cbn. by rewrite length_app, Nat.add_1_r. }
  assert (calls s2 = calls s ++ [mkCall SetCurrentCurrency AwaitLock;
                                 mkCall SetNativeCurrency AwaitLock]) as Hc2.
  { subst s2. cbn. by rewrite <- app_assoc. }
  assert (calls s2 !! t = Some (mkCall SetCurrentCurrency AwaitLock)) as Ht.
  { rewrite Hc2. subst t. by rewrite lookup_app_r, Nat.sub_diag. }
  assert (calls s2 !! S t = Some (mkCall SetNativeCurrency AwaitLock)) as HSt.
  { rewrite Hc2. subst t. rewrite lookup_app_r by lia.
    by replace (S (length (calls s)) - length (calls s))%nat with 1%nat
      by lia. }
  destruct (head_admitted s2 0 t [S t] _ Hm2 Ht)
    as (s3 & Hr & Ht3 & Hst & Hcfg & Hm3 & Hoth & Htr).
  destruct (config_fields _ _ Hcfg) as (_ & Hsrc & Hu).
  assert (quote_of (snapshot_of (state s2)) = a) as Hq.
  { subst s2. unfold quote_of. cbn. by apply js_or_truthy. }
  assert (base_of (snapshot_of (state s2)) = b) as Hbs.
  { subst s2. unfold base_of. cbn. by apply js_or_truthy. }
  set (s' := updateExchangeRate_fetched t (snapshot_of (state s2)) s3).
  exists s3, s'.
  split. { rewrite run_cons. cbn [step]. rewrite run_cons. cbn [step].
           exact Hr. }
  split.
  { rewrite Htr, Hq, Hbs.
    replace (trace s2) with
      (trace s
         ++ [StateChanged (state (setCurrentCurrency a s)); Acquire t;
             StateChanged (state s2); Acquire (S t)]).
    2: { subst s2 t. cbn. rewrite <- !app_assoc. cbn.
         by rewrite length_app, Nat.add_1_r. }
    unfold fetches_of. rewrite !omap_app. cbn.
    by rewrite Nat.eqb_refl, app_nil_r. }
  split; [by apply (step_FetchSettles t SetCurrentCurrency)|].
  intros r Hf.
  assert (fetchExchangeRate s3 t (quote_of (snapshot_of (state s2)))
            (base_of (snapshot_of (state s2))) (includeUsdRate s3)
          = Fulfilled r) as Hf3.
  { rewrite Hsrc, Hu, Hq, Hbs. exact Hf. }
  assert (state s' = committed (snapshot_of (state s2)) r) as Hst'.
  { subst s'. by rewrite state_fetched, Hf3. }
  split. { rewrite Hst'. unfold committed. by rewrite Hq, Hbs. }
  split.
  { subst s'. rewrite Hst', trace_fetched, Hf3, publications_app,
      !publications_cons, publications_app, publications_granted.
    done. }
  assert (calls s' !! S t = Some (mkCall SetNativeCurrency Locked)) as Hl.
  { subst s'. apply (fetched_grants_head t _ (S t) []); [lia| |].
    - by rewrite Hm3.
    - rewrite Hoth by lia. exact HSt. }
  destruct (resume_fetches_pair _ _ s' Hl) as (s'' & Hres & Htr').
  exists s''. split; [done|]. rewrite Htr', Hst'.
  destruct (config_fields _ _
              (config_fetched t (snapshot_of (state s2)) s3)) as (_ & _ & Hu').
  fold s' in Hu'. rewrite Hu', Hu.
  change (quote_of (snapshot_of (committed (snapshot_of (state s2)) r)))
    with (quote_of (snapshot_of (state s2))).
  change (base_of (snapshot_of (committed (snapshot_of (state s2)) r)))
    with (base_of (snapshot_of (state s2))).
  by rewrite Hq, Hbs.
Qed.

Lemma two_requests_one_commit_witness :
  exists s s3 s' s'',
    run [NextTick; Resume 0; FetchSettles 0; Continue 0] Scenario.fresh
      = Some s
    /\ run [CallSetCurrentCurrency "eur"; CallSetNativeCurrency "BTC";
            NextTick; Resume 1] s = Some s3
    /\ step (FetchSettles 1) s3 = Some s'
    /\ state s' =
       mkState (1000 # 1)%Q (91 # 100)%Q "eur" "BTC" None None None
    /\ step (Resume 2) s' = Some s''
    /\ trace s'' = trace s' ++ [Fetch 2 "eur" "BTC" false].
Proof.
  pose (s := resumed 0 Poll (Fulfilled None)
               (updateExchangeRate_fetched 0
                  (mkSnapshot "usd" "ETH" None None)
                  (updateExchangeRate_locked 0 (sched Scenario.fresh)))).
  assert (run [NextTick; Resume 0; FetchSettles 0; Continue 0]
            Scenario.fresh = Some s) as Hr by (vm_compute; reflexivity).
  destruct (two_requests_one_commit s "eur" "BTC")
    as (s3 & s' & H1 & _ & H3 & H4);
    [reflexivity | discriminate | discriminate |].
  destruct (H4 Scenario.eur_rate eq_refl) as (H5 & _ & s'' & H6 & H7).
  exists s, s3, s', s''. split; [exact Hr|]. split; [exact H1|].
  split; [exact H3|]. split; [exact H5|]. split; [exact H6 | exact H7].
Defined.



(** ** Currency rate: the poll loop as a whole *)

Section PollLoop.

Lemma clockwork_set_pc t p s : clockwork (set_pc t p s) = clockwork s.
Proof. unfold set_pc. by destruct (calls s !! t). Qed.

Lemma clockwork_sched s : clockwork (sched s) = clockwork s.
Proof.
  unfold sched. destruct (count (mutex s)); [done|].
  destruct (waiting (mutex s)); [done|].
  change (clockwork (emit ?e ?x)) with (clockwork x).
  by rewrite clockwork_set_pc.
Qed.

Lemma clockwork_fetched t sn s :
  clockwork (updateExchangeRate_fetched t sn s) = clockwork s.
Proof.
  unfold updateExchangeRate_fetched.
  destruct (fetchExchangeRate s t _ _ _); cbv zeta beta iota;
    change (clockwork (emit ?e ?x)) with (clockwork x);
    rewrite clockwork_set_pc; unfold releaseLock;
    by rewrite clockwork_sched.
Qed.

Lemma clockwork_locked t s :
  clockwork (updateExchangeRate_locked t s) = clockwork s.
Proof. unfold updateExchangeRate_locked. by rewrite clockwork_set_pc. Qed.

Lemma clockwork_fields s s' :
  clockwork s' = clockwork s ->
  timers s' = timers s /\ handle s' = handle s
  /\ next_timer s' = next_timer s /\ now s' = now s.
Proof. unfold clockwork. by intros [= -> -> -> ->]. Qed.

Lemma length_calls_set_pc t p s :
  length (calls (set_pc t p s)) = length (calls s).
Proof.
  unfold set_pc. destruct (calls s !! t); [|done]. cbn.
  by rewrite length_insert.
Qed.

Lemma length_calls_sched s : length (calls (sched s)) = length (calls s).
Proof.
  unfold sched. destruct (count (mutex s)); [done|].
  destruct (waiting (mutex s)); [done|].
  change (calls (emit ?e ?x)) with (calls x).
  by rewrite length_calls_set_pc.
Qed.

Lemma length_calls_fetched t sn s :
  length (calls (updateExchangeRate_fetched t sn s)) = length (calls s).
Proof.
  unfold updateExchangeRate_fetched.
  destruct (fetchExchangeRate s t _ _ _); cbv zeta beta iota;
    change (calls (emit ?e ?x)) with (calls x);
    rewrite length_calls_set_pc; unfold releaseLock;
    by rewrite length_calls_sched.
Qed.

Lemma length_calls_resumed t c o s :
  length (calls (resumed t c o s)) = length (calls s).
Proof.
  unfold resumed. rewrite await_safelyExecute.
  destruct c;
    change (length (calls (set_pc t Finished s)) = length (calls s));
    apply length_calls_set_pc.
Qed.

(** A step keeps the calls there are, in place, and appends the call it
    starts. *)
Lemma step_calls_shape l s s' :
  step l s = Some s' ->
  exists cs,
    length cs = length (calls s) /\ calls s' = cs ++ spawned l.
Proof.
  intros Hs. destruct l; cbn in Hs.
  - injection Hs as <-. by exists (calls s).
  - injection Hs as <-. by exists (calls s).
  - injection Hs as <-. by exists (calls s).
  - injection Hs as <-. exists (calls s). split; [done|]. unfold poll. cbn.
    by destruct (handle s).
  - injection Hs as <-. exists (calls s). split; [done|].
    by rewrite calls_destroy, app_nil_r.
  - injection Hs as <-. exists (calls (sched s)).
    split; [apply length_calls_sched | by rewrite app_nil_r].
  - destruct (calls s !! t) as [[c0 p0]|]; [|done].
    destruct p0; try done. injection Hs as <-.
    eexists. split; [|by rewrite app_nil_r].
    unfold updateExchangeRate_locked. by rewrite length_calls_set_pc.
  - destruct (calls s !! t) as [[c0 p0]|]; [|done].
    destruct p0; try done. injection Hs as <-.
    eexists. split; [|by rewrite app_nil_r]. apply length_calls_fetched.
  - destruct (calls s !! t) as [[c0 p0]|]; [|done].
    destruct p0; try done. injection Hs as <-.
    eexists. split; [|by rewrite app_nil_r]. apply length_calls_resumed.
  - destruct (timer_due h s); [|done]. injection Hs as <-.
    exists (calls s). split; [done|]. unfold poll. cbn.
    by destruct (handle s).
  - destruct (Z.leb 0 d); [|done]. injection Hs as <-.
    exists (calls s). by rewrite app_nil_r.
Qed.

(** A refresh of the poll loop that is under way after a step was under
    way before it, unless the step is the tick, or the call of [poll] from
    outside, that started it. *)
Lemma polling_after_step l s s' t :
  Inv s -> step l s = Some s' ->
  polling (calls s') t ->
  (polling (calls s) t /\ l <> Continue t)
  \/ ((l = CallPoll \/ exists h, l = TimerFires h) /\ t = length (calls s)).
Proof.
  intros HI Hs (p' & Hk' & Hp').
  destruct (step_calls_shape l s s' Hs) as (cs & Hlen & Hshape).
  destruct (calls s !! t) as [[c p]|] eqn:Hk.
  - left. destruct (step_call l s s' t c p HI Hs Hk) as (p1 & Hk1 & Hor).
    rewrite Hk' in Hk1. injection Hk1 as <- <-.
    split.
    + exists p. split; [done|]. intros ->.
      destruct Hor as [->|Hadv]; done.
    + intros ->. destruct p as [| | |o|];
        try (cbn in Hs; rewrite Hk in Hs; done).
      rewrite (step_Continue t _ o s Hk) in Hs.
      assert (s' = resumed t Poll o s) as -> by congruence.
      rewrite (calls_resumed t _ o s Hk) in Hk'.
      rewrite list_lookup_insert_eq in Hk' by (by apply lookup_lt_Some in Hk).
      by injection Hk' as <-.
  - right. apply lookup_ge_None in Hk.
    rewrite Hshape, lookup_app_r in Hk' by lia.
    destruct l; cbn in Hk'; try done;
      destruct (t - length cs)%nat eqn:E; cbn in Hk'; try done.
    + split; [by left | lia].
    + split; [right; by eexists | lia].
Qed.

Lemma polling_kept l s s' t :
  Inv s -> step l s = Some s' ->
  polling (calls s) t -> l <> Continue t -> polling (calls s') t.
Proof.
  intros HI Hs (p & Hk & Hp) Hl.
  destruct (step_call l s s' t Poll p HI Hs Hk) as (p1 & Hk1 & Hor).
  exists p1. split; [done|]. destruct Hor as [->|Hadv]; [done|].
  destruct p; cbn in Hadv; try done.
  - by rewrite Hadv.
  - by destruct Hadv as (_ & sn & ->).
  - by destruct Hadv as (_ & o' & ->).
  - by destruct Hadv as [-> _].
Qed.

Lemma polling_started h s s' :
  step (TimerFires h) s = Some s' -> polling (calls s') (length (calls s)).
Proof.
  intros Hs. cbn in Hs. destruct (timer_due h s); [|done].
  injection Hs as <-. exists AwaitLock. split; [|done].
  unfold poll. cbn. destruct (handle s); cbn;
    by rewrite lookup_app_r, Nat.sub_diag.
Qed.

(** What a step does to the timers, the handle and the clock. *)
Lemma step_clockwork l s s' :
  step l s = Some s' ->
  match l with
  | CallPoll | CallDestroy =>
      handle s' = handle s /\ now s' = now s
      /\ timers s' =
         match handle s with
         | Some h => filter (fun p => p.1 <> h) (timers s)
         | None => timers s
         end
  | Continue t =>
      now s' = now s
      /\ ((exists p, calls s !! t = Some (mkCall Poll p))
          /\ handle s' = Some (next_timer s)
          /\ timers s' = (next_timer s, now s + interval s) :: timers s
          \/ (forall p, calls s !! t <> Some (mkCall Poll p))
             /\ handle s' = handle s /\ timers s' = timers s)
  | TimerFires h =>
      timer_due h s = true /\ handle s' = handle s /\ now s' = now s
      /\ timers s' =
         match handle s with
         | Some h' =>
             filter (fun p => p.1 <> h')
               (filter (fun p => p.1 <> h) (timers s))
         | None => filter (fun p => p.1 <> h) (timers s)
         end
  | TimePasses d =>
      0 <= d /\ now s' = now s + d
      /\ handle s' = handle s /\ timers s' = timers s
  | _ => handle s' = handle s /\ timers s' = timers s /\ now s' = now s
  end.
Proof.
  intros Hs. destruct l; cbn in Hs.
  - by injection Hs as <-.
  - by injection Hs as <-.
  - by injection Hs as <-.
  - injection Hs as <-. unfold poll. cbn.
    destruct (handle s) eqn:Hh; cbn; by rewrite ?Hh.
  - injection Hs as <-. unfold destroy, super_destroy. cbn.
    destruct (handle s) eqn:Hh; cbn; by rewrite ?Hh.
  - injection Hs as <-.
    by destruct (clockwork_fields _ _ (clockwork_sched s)) as (-> & -> & _ & ->).
  - destruct (calls s !! t) as [[c0 p0]|]; [|done].
    destruct p0; try done. injection Hs as <-.
    by destruct (clockwork_fields _ _ (clockwork_locked t s))
      as (-> & -> & _ & ->).
  - destruct (calls s !! t) as [[c0 p0]|]; [|done].
    destruct p0 as [| |sn| |]; try done. injection Hs as <-.
    by destruct (clockwork_fields _ _ (clockwork_fetched t sn s))
      as (-> & -> & _ & ->).
  - destruct (calls s !! t) as [[c0 p0]|] eqn:Hk; [|done].
    destruct p0 as [| | |o|]; try done. injection Hs as <-.
    unfold resumed. rewrite await_safelyExecute.
    destruct (clockwork_fields _ _ (clockwork_set_pc t Finished s))
      as (Ht & Hh & Hn & Hnow).
    destruct c0.
    + unfold poll_resumed, setTimeout. cbn. rewrite Hnow. split; [done|].
      left. split; [by eexists|]. rewrite Hn, Ht.
      destruct (config_fields _ _ (config_set_pc t Finished s)) as (-> & _).
      done.
    + cbn. rewrite Hnow. split; [done|]. right. by rewrite Hh, Ht.
    + cbn. rewrite Hnow. split; [done|]. right. by rewrite Hh, Ht.
    + rewrite Hnow. split; [done|]. right. by rewrite Hh, Ht.
  - destruct (timer_due h s) eqn:Hd; [|done]. injection Hs as <-.
    unfold poll. cbn. destruct (handle s) eqn:Hh; cbn; by rewrite ?Hh.
  - destruct (Z.leb 0 d) eqn:Hd; [|done]. injection Hs as <-. cbn.
    split; [by apply Z.leb_le|]. done.
Qed.

End PollLoop.

Section PollLoopInvariant.

Lemma due_timer_is_live h s :
  timer_due h s = true -> exists due, (h, due) ∈ timers s.
Proof.
  unfold timer_due. intros H. apply existsb_exists in H as ([h' due] & Hin & Hb).
  apply andb_true_iff in Hb as [Hh _]. apply Nat.eqb_eq in Hh. cbn in Hh.
  subst h'. exists due. by apply list_elem_of_In.
Qed.

Lemma continue_or_not l t : l = Continue t \/ l <> Continue t.
Proof.
  destruct l; try (by right).
  destruct (decide (t0 = t)) as [->|Hne]; [by left|].
  right. by intros [= ->].
Qed.

(** Every step but a call of [poll] from outside keeps the poll loop in
    one piece. *)
Lemma step_poll_loop l s s' :
  is_direct_poll l = false ->
  Inv s -> poll_loop_ok s -> step l s = Some s' -> poll_loop_ok s'.
Proof.
  intros Hdp HI (Huniq & Htim & Halive) Hs.
  assert (forall t, polling (calls s') t ->
            (polling (calls s) t /\ l <> Continue t)
            \/ ((exists h, l = TimerFires h) /\ t = length (calls s)))
    as Hpas.
  { intros t Hp.
    destruct (polling_after_step l s s' t HI Hs Hp) as [H|[[->|H] Ht]];
      [by left | done | by right]. }
  pose proof (step_clockwork l s s' Hs) as Hclk.
  destruct (config_fields _ _ (step_config l s s' Hs)) as (Hint & _ & _).
  destruct (step_trace l s s' Hs) as (new & Htr & _).
  assert (forall h, l = TimerFires h ->
            exists due, timers s = [(h, due)] /\ handle s = Some h
                        /\ forall t, ~ polling (calls s) t) as Htick.
  { intros h ->. cbn in Hclk. destruct Hclk as (Hdue & _).
    destruct (due_timer_is_live h s Hdue) as (due & Hin).
    destruct Htim as [Ht|(h' & due' & Ht & Hh & _ & Hno)].
    - rewrite Ht in Hin. by apply elem_of_nil in Hin.
    - rewrite Ht in Hin. apply list_elem_of_singleton in Hin.
      injection Hin as -> ->. by exists due'. }
  assert (forall t, (forall h, l <> TimerFires h) ->
            polling (calls s') t -> polling (calls s) t /\ l <> Continue t)
    as Hold.
  { intros t Hl Hp.
    destruct (Hpas t Hp) as [H|[[h ->] _]]; [done|]. by destruct (Hl h). }
  assert ((forall h, l <> TimerFires h) ->
          handle s' = handle s -> timers s' = timers s ->
          now s <= now s' ->
          timers s' = []
          \/ exists h due,
               timers s' = [(h, due)] /\ handle s' = Some h
               /\ due <= now s' + interval s'
               /\ forall t, ~ polling (calls s') t) as Hkeep.
  { intros Hl Hh Ht Hnow.
    destruct Htim as [Hnil|(h & due & Htm & Hhd & Hdue & Hno)].
    - left. by rewrite Ht.
    - right. exists h, due. rewrite Ht, Hh, Hint.
      split; [done|]. split; [done|]. split; [lia|].
      intros t Hp. apply (Hno t). by apply Hold. }
  split; [|split].
  - intros t1 t2 H1 H2.
    destruct (Hpas t1 H1) as [[P1 _]|[[h1 E1] ->]];
      destruct (Hpas t2 H2) as [[P2 _]|[[h2 E2] ->]].
    + by apply Huniq.
    + destruct (Htick h2 E2) as (_ & _ & _ & Hno). by destruct (Hno t1).
    + destruct (Htick h1 E1) as (_ & _ & _ & Hno). by destruct (Hno t2).
    + done.
  - destruct l; cbn in Hclk.
    + destruct Hclk as (Hh & Ht & Hn). apply Hkeep; [done|done|done|lia].
    + destruct Hclk as (Hh & Ht & Hn). apply Hkeep; [done|done|done|lia].
    + destruct Hclk as (Hh & Ht & Hn). apply Hkeep; [done|done|done|lia].
    + done.
    + left. destruct Hclk as (_ & _ & Ht). rewrite Ht.
      destruct Htim as [Hnil|(h & due & Htm & Hhd & _)].
      * rewrite Hnil. by destruct (handle s).
      * rewrite Hhd, Htm. cbn. by rewrite decide_False by (intros H; by apply H).
    + destruct Hclk as (Hh & Ht & Hn). apply Hkeep; [done|done|done|lia].
    + destruct Hclk as (Hh & Ht & Hn). apply Hkeep; [done|done|done|lia].
    + destruct Hclk as (Hh & Ht & Hn). apply Hkeep; [done|done|done|lia].
    + destruct Hclk as (Hn & [((p & Hk) & Hh & Ht)|(Hk & Hh & Ht)]).
      * assert (polling (calls s) t) as Hpt.
        { exists p. split; [done|]. intros ->.
          cbn in Hs. by rewrite Hk in Hs. }
        assert (timers s = []) as Hnil.
        { destruct Htim as [Hnil|(h & due & _ & _ & _ & Hno)]; [done|].
          by destruct (Hno t). }
        right. exists (next_timer s), (now s + interval s).
        rewrite Ht, Hh, Hnil, Hn, Hint.
        split; [done|]. split; [done|]. split; [lia|].
        intros t' Hp'. destruct (Hold t') as (Hp & Hne); [done|done|].
        apply Hne. f_equal. by apply Huniq.
      * apply Hkeep; [done|done|done|lia].
    + left. destruct Hclk as (_ & _ & _ & Ht).
      destruct (Htick h eq_refl) as (due & Htm & Hhd & _).
      rewrite Ht, Hhd, Htm. cbn.
      by rewrite decide_False by (intros H; by apply H).
    + destruct Hclk as (Hd & Hn & Hh & Ht). apply Hkeep; [done|done|done|lia].
  - intros Hnd.
    assert (Destroyed ∉ trace s) as Hnd0.
    { intros H. apply Hnd. rewrite Htr. apply elem_of_app. by left. }
    assert (l <> CallDestroy) as Hld.
    { intros ->. cbn in Hs. injection Hs as <-. apply Hnd.
      rewrite trace_destroy. apply elem_of_app. right.
      by apply list_elem_of_singleton. }
    assert (forall t p, l = Continue t ->
              calls s !! t = Some (mkCall Poll p) -> timers s' <> []) as Hcont.
    { intros t p -> Hk. cbn in Hclk.
      destruct Hclk as (_ & [(_ & _ & Ht)|(Hno & _)]).
      - by rewrite Ht.
      - by destruct (Hno p). }
    destruct (Halive Hnd0) as [Hne|(t0 & Hp0)].
    + destruct l; cbn in Hclk; try done.
      * left. by destruct Hclk as (_ & -> & _).
      * left. by destruct Hclk as (_ & -> & _).
      * left. by destruct Hclk as (_ & -> & _).
      * left. by destruct Hclk as (_ & -> & _).
      * left. by destruct Hclk as (_ & -> & _).
      * left. by destruct Hclk as (_ & -> & _).
      * left. destruct Hclk as (_ & [(_ & _ & Ht)|(_ & _ & Ht)]);
          by rewrite Ht.
      * right. eexists. by apply (polling_started h s).
      * left. by destruct Hclk as (_ & _ & _ & ->).
    + destruct (continue_or_not l t0) as [El|Hne].
      * left. destruct Hp0 as (p & Hk & _). by apply (Hcont t0 p).
      * right. exists t0. by apply (polling_kept l s).
Qed.

End PollLoopInvariant.

Section PollLoopReachable.

Lemma reachable_poll_loop dflt st usd src ls s :
  poll_by_loop_only ls = true ->
  run ls (constructor dflt st usd src) = Some s -> poll_loop_ok s.
Proof.
  intros Hls Hr.
  apply (run_invariant_where (fun l => negb (is_direct_poll l)) poll_loop_ok)
    with (ls := ls) (s := constructor dflt st usd src);
    [|exact Hls| | |exact Hr].
  - intros l s0 s1 Hl HI HP Hs. apply (step_poll_loop l s0); try done.
    by apply negb_true_iff.
  - apply constructor_Inv.
  - unfold poll_loop_ok, constructor, poll. cbn. split; [|split].
    + intros t1 t2 (p1 & H1 & _) (p2 & H2 & _).
      apply lookup_lt_Some in H1. apply lookup_lt_Some in H2.
      cbn in *. lia.
    + by left.
    + intros _. right. exists 0%nat. by exists AwaitLock.
Qed.

Lemma reachable_interval dflt st usd src ls s :
  run ls (constructor dflt st usd src) = Some s -> interval s = 180000.
Proof.
  intros Hr. destruct (config_fields _ _ (run_config _ _ _ Hr)) as (-> & _).
  apply constructor_interval_value.
Qed.

End PollLoopReachable.

(** X16: as long as [poll] is not called from outside, the poll loop
    stays in one piece.  In every state reached by requests, direct
    refreshes, teardown and the event loop, at most one refresh of the poll
    loop is under way; at most one timer is live, it is the one
    [this.handle] holds and it is due within 180000 ms; a live timer and a
    poll refresh under way never coexist; and as long as [destroy] has not
    been called one of the two is there, so the loop is alive. *)
Theorem poll_loop_stays_in_one_piece :
  forall (dflt : RateSource) (st : option PartialState) (usd : option bool)
         (src : option RateSource) (ls : list Label) (s : Sys),
    poll_by_loop_only ls = true ->
    run ls (constructor dflt st usd src) = Some s ->
    (forall t1 t2,
        polling (calls s) t1 -> polling (calls s) t2 -> t1 = t2)
    /\ (timers s = []
        \/ exists h due,
             timers s = [(h, due)] /\ handle s = Some h
             /\ due <= now s + 180000
             /\ forall t, ~ polling (calls s) t)
    /\ (Destroyed ∉ trace s ->
        timers s <> [] \/ exists t, polling (calls s) t).
Proof.
  intros dflt st usd src ls s Hls Hr.
  destruct (reachable_poll_loop _ _ _ _ _ _ Hls Hr) as (H1 & H2 & H3).
  rewrite (reachable_interval _ _ _ _ _ _ Hr) in H2. done.
Qed.

Lemma poll_loop_stays_in_one_piece_witness :
  exists s,
    run [NextTick; Resume 0; CallSetCurrentCurrency "eur"; FetchSettles 0;
         Continue 0; TimePasses 1000]
      Scenario.fresh = Some s
    /\ timers s = [(0%nat, 180000)]
    /\ handle s = Some 0%nat
    /\ (forall t, ~ polling (calls s) t).
Proof.
  pose (s := with_now 1000
               (resumed 0 Poll (Fulfilled None)
                  (updateExchangeRate_fetched 0
                     (mkSnapshot "usd" "ETH" None None)
                     (setCurrentCurrency "eur"
                        (updateExchangeRate_locked 0
                           (sched Scenario.fresh)))))).
  assert (run [NextTick; Resume 0; CallSetCurrentCurrency "eur";
               FetchSettles 0; Continue 0; TimePasses 1000]
            Scenario.fresh = Some s) as Hr by (vm_compute; reflexivity).
  destruct (poll_loop_stays_in_one_piece Scenario.steady None None None
              [NextTick; Resume 0; CallSetCurrentCurrency "eur";
               FetchSettles 0; Continue 0; TimePasses 1000] s)
    as (_ & [Hnil|(h & due & Ht & Hh & _ & Hno)] & _);
    [reflexivity | exact Hr | |].
  - vm_compute in Hnil. discriminate.
  - exists s. split; [exact Hr|]. split; [reflexivity|].
    split; [reflexivity | exact Hno].
Defined.

Section TimerIdentifiers.

Lemma step_TimerFires h s :
  step (TimerFires h) s =
  if timer_due h s then Some (poll (clearTimeout h s)) else None.
Proof. reflexivity. Qed.

(** A step drops timers, or arms the one [setTimeout] numbers next. *)
Lemma step_timers l s s' :
  step l s = Some s' ->
  (next_timer s' = next_timer s /\ timers s' ⊆ timers s)
  \/ (next_timer s' = S (next_timer s)
      /\ timers s' = (next_timer s, now s + interval s) :: timers s).
Proof.
  intros Hs. destruct l; cbn in Hs.
  - injection Hs as <-. by left.
  - injection Hs as <-. by left.
  - injection Hs as <-. by left.
  - injection Hs as <-. left. unfold poll. cbn.
    destruct (handle s); cbn; [|done]. split; [done|].
    apply list_subseteq_filter.
  - injection Hs as <-. left. unfold destroy, super_destroy. cbn.
    destruct (handle s); cbn; [|done]. split; [done|].
    apply list_subseteq_filter.
  - injection Hs as <-. left.
    by destruct (clockwork_fields _ _ (clockwork_sched s))
      as (-> & _ & -> & _).
  - destruct (calls s !! t) as [[c0 p0]|]; [|done].
    destruct p0; try done. injection Hs as <-. left.
    by destruct (clockwork_fields _ _ (clockwork_locked t s))
      as (-> & _ & -> & _).
  - destruct (calls s !! t) as [[c0 p0]|]; [|done].
    destruct p0 as [| |sn| |]; try done. injection Hs as <-. left.
    by destruct (clockwork_fields _ _ (clockwork_fetched t sn s))
      as (-> & _ & -> & _).
  - destruct (calls s !! t) as [[c0 p0]|] eqn:Hk; [|done].
    destruct p0 as [| | |o|]; try done. injection Hs as <-.
    unfold resumed. rewrite await_safelyExecute.
    destruct (clockwork_fields _ _ (clockwork_set_pc t Finished s))
      as (Ht & _ & Hn & Hnow).
    destruct c0.
    + right. unfold poll_resumed, setTimeout. cbn. rewrite Hn, Ht, Hnow.
      destruct (config_fields _ _ (config_set_pc t Finished s)) as (-> & _).
      done.
    + left. cbn. by rewrite Hn, Ht.
    + left. cbn. by rewrite Hn, Ht.
    + left. by rewrite Hn, Ht.
  - destruct (timer_due h s); [|done]. injection Hs as <-. left.
    unfold poll. cbn. split; [by destruct (handle s)|].
    destruct (handle s); cbn.
    + etrans; apply list_subseteq_filter.
    + apply list_subseteq_filter.
  - destruct (Z.leb 0 d); [|done]. injection Hs as <-. by left.
Qed.

Lemma step_timers_fresh l s s' :
  step l s = Some s' -> timers_fresh s -> timers_fresh s'.
Proof.
  intros Hs Hfr h due Hin.
  destruct (step_timers l s s' Hs) as [[-> Hsub]|[-> Ht]].
  - apply (Hfr h due). by apply Hsub.
  - rewrite Ht in Hin. apply elem_of_cons in Hin as [[= -> _]|Hin]; [lia|].
    pose proof (Hfr h due Hin). lia.
Qed.

Lemma reachable_timers_fresh dflt st usd src ls s :
  run ls (constructor dflt st usd src) = Some s -> timers_fresh s.
Proof.
  intros Hr.
  apply (run_invariant timers_fresh)
    with (ls := ls) (s := constructor dflt st usd src); [| | |exact Hr].
  - intros l s0 s1 _ HP Hs. by apply (step_timers_fresh l s0).
  - apply constructor_Inv.
  - intros h due Hin. unfold constructor, poll in Hin. cbn in Hin.
    by apply elem_of_nil in Hin.
Qed.

(** The timer a poll is about to arm is not among the live ones. *)
Lemma fresh_not_due s n :
  timers_fresh s ->
  existsb (fun p => Nat.eqb p.1 (next_timer s) && Z.leb p.2 n) (timers s)
  = false.
Proof.
  intros Hfr. apply not_true_iff_false. intros H.
  apply existsb_exists in H as ([h due] & Hin & Hb).
  apply andb_true_iff in Hb as [Hh _]. apply Nat.eqb_eq in Hh. cbn in Hh.
  apply list_elem_of_In in Hin. pose proof (Hfr h due Hin). lia.
Qed.

End TimerIdentifiers.

(** X17: the tick a poll arms waits for the interval.  When a refresh of a
    poll has settled, the poll arms a timer and keeps it in [this.handle];
    that timer cannot fire while less than 180000 ms have passed, and once
    180000 ms have passed it fires, starts the next refresh of the loop and
    is gone.  As long as [poll] was not called from outside it is the only
    live timer, so that no tick at all comes before the interval is
    over. *)
Theorem next_tick_waits_for_interval :
  forall (dflt : RateSource) (st : option PartialState) (usd : option bool)
         (src : option RateSource) (ls : list Label) (s : Sys)
         (t : CallId) (o : Outcome (option CurrencyRateState)) (d : Z),
    run ls (constructor dflt st usd src) = Some s ->
    calls s !! t = Some (mkCall Poll (Settled o)) ->
    0 <= d ->
    exists s1 s2,
      step (Continue t) s = Some s1
      /\ step (TimePasses d) s1 = Some s2
      /\ handle s1 = Some (next_timer s)
      /\ (next_timer s, now s + 180000) ∈ timers s1
      /\ (d < 180000 -> step (TimerFires (next_timer s)) s2 = None)
      /\ (180000 <= d ->
          exists s3,
            step (TimerFires (next_timer s)) s2 = Some s3
            /\ polling (calls s3) (length (calls s))
            /\ forall due, (next_timer s, due) ∉ timers s3)
      /\ (poll_by_loop_only ls = true ->
          timers s1 = [(next_timer s, now s + 180000)]
          /\ (d < 180000 -> forall h, step (TimerFires h) s2 = None)).
Proof.
  intros dflt st usd src ls s t o d Hr Ht Hd.
  pose proof (reachable_interval _ _ _ _ _ _ Hr) as Hint.
  pose proof (reachable_timers_fresh _ _ _ _ _ _ Hr) as Hfr.
  destruct (poll_rearms_after_any_outcome s t o Ht)
    as (s1 & Hs1 & Hh1 & Ht1 & _).
  pose proof (step_clockwork _ _ _ Hs1) as Hclk. cbn in Hclk.
  destruct Hclk as (Hnow1 & _).
  pose proof (step_calls_shape _ _ _ Hs1) as (cs & Hlen & Hshape).
  cbn in Hshape. rewrite app_nil_r in Hshape.
  rewrite Hint in Ht1.
  assert (forall n,
            timer_due (next_timer s) (with_now n s1)
            = Z.leb (now s + 180000) n) as Hdue.
  { intros n. unfold timer_due. cbn. rewrite Ht1. cbn.
    rewrite Nat.eqb_refl, (fresh_not_due s n Hfr). cbn.
    by rewrite orb_false_r. }
  exists s1, (with_now (now s1 + d) s1).
  split; [done|]. split.
  { cbn. by rewrite (proj2 (Z.leb_le 0 d) Hd). }
  split; [done|]. split; [rewrite Ht1; by left|]. split; [|split].
  - intros Hlt. rewrite step_TimerFires, Hdue, Hnow1.
    by rewrite (proj2 (Z.leb_gt _ _)) by lia.
  - intros Hge. eexists. split.
    + rewrite step_TimerFires, Hdue, Hnow1.
      by rewrite (proj2 (Z.leb_le _ _)) by lia.
    + split.
      * exists AwaitLock. split; [|done]. unfold poll. cbn. rewrite Hh1. cbn.
        rewrite Hshape, <- Hlen. by rewrite lookup_app_r, Nat.sub_diag.
      * intros due Hin. unfold poll in Hin. cbn in Hin. rewrite Hh1 in Hin.
        cbn in Hin. apply list_elem_of_filter in Hin as [Hne _].
        by apply Hne.
  - intros Hls.
    destruct (reachable_poll_loop _ _ _ _ _ _ Hls Hr) as (_ & Htim & _).
    assert (timers s = []) as Hnil.
    { destruct Htim as [Hnil|(h & due & _ & _ & _ & Hno)]; [done|].
      destruct (Hno t). by exists (Settled o). }
    rewrite Hnil in Ht1. split; [done|].
    intros Hlt h. rewrite step_TimerFires. unfold timer_due. cbn.
    rewrite Ht1. cbn. rewrite Hnow1.
    rewrite (proj2 (Z.leb_gt (now s + 180000) (now s + d))) by lia.
    by rewrite andb_false_r.
Qed.

Lemma next_tick_waits_for_interval_witness :
  exists s s1 s2 s3,
    run [NextTick; Resume 0; FetchSettles 0] Scenario.offline = Some s
    /\ step (Continue 0) s = Some s1
    /\ step (TimePasses 180000) s1 = Some s2
    /\ step (TimerFires 0) s2 = Some s3
    /\ polling (calls s3) 1
    /\ timers s1 = [(0%nat, 180000)].
Proof.
  pose (s := updateExchangeRate_fetched 0 (mkSnapshot "usd" "ETH" None None)
               (updateExchangeRate_locked 0 (sched Scenario.offline))).
  assert (run [NextTick; Resume 0; FetchSettles 0] Scenario.offline
          = Some s) as Hr by (vm_compute; reflexivity).
  destruct (next_tick_waits_for_interval Scenario.down None None None _ s 0
              (Rejected "network down") 180000 Hr)
    as (s1 & s2 & H1 & H2 & _ & _ & _ & H4 & H5); [reflexivity | lia |].
  destruct H4 as (s3 & H6 & H7 & _); [lia|].
  destruct H5 as (H8 & _); [reflexivity|].
  exists s, s1, s2, s3. split; [exact Hr|]. split; [exact H1|].
  split; [exact H2|]. split; [exact H6|]. split; [exact H7 | exact H8].
Defined.

(** X21: a call of [poll] from outside while a refresh of the poll loop
    is under way starts a second loop.  [poll] clears the timer in
    [this.handle] and knows nothing of the refresh under way, so afterwards
    two refreshes of [poll] are under way, each of which arms a timer of
    its own when it returns: the poll loop is no longer in one piece. *)
Theorem direct_poll_forks_the_loop :
  forall (dflt : RateSource) (st : option PartialState) (usd : option bool)
         (src : option RateSource) (ls : list Label) (s : Sys) (t : CallId),
    run ls (constructor dflt st usd src) = Some s ->
    polling (calls s) t ->
    exists s',
      step CallPoll s = Some s'
      /\ calls s' = calls s ++ [mkCall Poll AwaitLock]
      /\ polling (calls s') t
      /\ polling (calls s') (length (calls s))
      /\ t <> length (calls s)
      /\ ~ poll_loop_ok s'.
Proof.
  intros dflt st usd src ls s t Hr Hp.
  pose proof (reachable_Inv _ _ _ _ _ _ Hr) as HI.
  assert (calls (poll s) = calls s ++ [mkCall Poll AwaitLock]) as Hcalls.
  { unfold poll. cbn. by destruct (handle s). }
  assert (polling (calls (poll s)) t) as Hp1.
  { by apply (polling_kept CallPoll s). }
  assert (polling (calls (poll s)) (length (calls s))) as Hp2.
  { exists AwaitLock. split; [|done].
    by rewrite Hcalls, lookup_app_r, Nat.sub_diag. }
  assert (t <> length (calls s)) as Hne.
  { destruct Hp as (p & Hk & _). apply lookup_lt_Some in Hk. lia. }
  exists (poll s). split; [done|]. split; [done|]. split; [done|].
  split; [done|]. split; [done|].
  intros (Huniq & _). by apply Hne, Huniq.
Qed.

(** [poll] is called while the constructor's refresh waits for the lock;
    both refreshes finish and two timers are live; [destroy] clears the
    one in [this.handle], and the other still fires. *)
Lemma direct_poll_forks_the_loop_witness :
  exists s1 s2 s3,
    step CallPoll Scenario.fresh = Some s1
    /\ polling (calls s1) 0 /\ polling (calls s1) 1
    /\ run [NextTick; Resume 0; FetchSettles 0; Continue 0;
            Resume 1; FetchSettles 1; Continue 1] s1 = Some s2
    /\ timers s2 = [(1%nat, 180000); (0%nat, 180000)]
    /\ handle s2 = Some 1%nat
    /\ run [CallDestroy; TimePasses 180000; TimerFires 0] s2 = Some s3
    /\ calls s3 !! 2%nat = Some (mkCall Poll AwaitLock).
Proof.
  destruct (direct_poll_forks_the_loop Scenario.steady None None None []
              Scenario.fresh 0 eq_refl)
    as (s1 & H1 & _ & H2 & H3 & _).
  { exists AwaitLock. by split. }
  exists s1. apply Some_inj in H1. subst s1.
  eexists _, _. split; [reflexivity|]. split; [exact H2|].
  split; [exact H3|]. split; [vm_compute; reflexivity|].
  split; [reflexivity|]. split; [reflexivity|].
  split; [vm_compute; reflexivity | reflexivity].
Defined.

(** ** Currency rate: no refresh is ever stuck *)

Section Drain.

Lemma mutex_resumed t c o s : mutex (resumed t c o s) = mutex s.
Proof.
  unfold resumed. rewrite await_safelyExecute.
  destruct c; change (mutex (set_pc t Finished s) = mutex s);
    apply mutex_set_pc.
Qed.

Lemma queued_call c s : queued_ok s -> queued_ok (updateExchangeRate_call c s).
Proof.
  intros HQ t c' Hk. cbn in *. apply elem_of_app.
  apply lookup_app_Some in Hk as [Hk|[Hge Hk]].
  - left. by apply (HQ t c').
  - right. destruct (t - length (calls s))%nat eqn:E; cbn in Hk; [|done].
    apply list_elem_of_singleton. lia.
Qed.

Lemma step_queued l s s' :
  Inv s -> queued_ok s -> step l s = Some s' -> queued_ok s'.
Proof.
  intros HI HQ Hs. pose proof (Inv_waiting_ok s HI) as Hw.
  destruct l; cbn in Hs.
  - injection Hs as <-. unfold setCurrentCurrency. by apply queued_call.
  - injection Hs as <-. unfold setNativeCurrency. by apply queued_call.
  - injection Hs as <-. by apply queued_call.
  - injection Hs as <-. unfold poll. destruct (handle s); by apply queued_call.
  - injection Hs as <-. intros t c Hk. rewrite calls_destroy in Hk.
    unfold destroy, super_destroy. cbn.
    destruct (handle s); by apply (HQ t c).
  - injection Hs as <-. intros t c Hk. rewrite mutex_sched.
    destruct (count (mutex s)) as [|n] eqn:Hc.
    { unfold sched in Hk. rewrite Hc in Hk. by apply (HQ t c). }
    destruct (waiting (mutex s)) as [|t0 rest] eqn:Hwt.
    { unfold sched in Hk. rewrite Hc, Hwt in Hk. apply (HQ t c) in Hk.
      rewrite Hwt in Hk. by apply elem_of_nil in Hk. }
    cbn. destruct (Hw t0) as (c0 & Hk0); [rewrite Hwt; by left|].
    destruct (decide (t = t0)) as [->|Hne].
    + unfold sched in Hk. rewrite Hc, Hwt in Hk.
      change (calls (emit ?e ?x)) with (calls x) in Hk.
      rewrite (calls_set_pc_eq t0 c0 AwaitLock) in Hk by done. done.
    + unfold sched in Hk. rewrite Hc, Hwt in Hk.
      change (calls (emit ?e ?x)) with (calls x) in Hk.
      rewrite calls_set_pc_ne in Hk by done.
      apply (HQ t c) in Hk. rewrite Hwt in Hk.
      apply elem_of_cons in Hk as [?|?]; done.
  - destruct (calls s !! t) as [[c0 p0]|] eqn:Ht; [|done].
    destruct p0; try done. injection Hs as <-. intros t' c Hk.
    destruct (locked_snapshot t c0 s Ht) as (Hself & _ & _ & -> & _).
    destruct (decide (t' = t)) as [->|Hne].
    + rewrite Hself in Hk. done.
    + unfold updateExchangeRate_locked in Hk.
      rewrite calls_set_pc_ne in Hk by done. by apply (HQ t' c).
  - destruct (calls s !! t) as [[c0 p0]|] eqn:Ht; [|done].
    destruct p0 as [| |sn| |]; try done. injection Hs as <-.
    intros t' c Hk.
    destruct (calls_fetched t c0 sn s Hw Ht) as (Hself & Hoth).
    destruct (decide (t' = t)) as [->|Hne]; [by rewrite Hself in Hk|].
    destruct (calls s !! t') as [[c1 p1]|] eqn:Hk1.
    2: { apply lookup_ge_None in Hk1. apply lookup_lt_Some in Hk.
         rewrite length_calls_fetched in Hk. lia. }
    destruct (Hoth t' c1 p1 Hne Hk1) as (p' & Hp' & Hor).
    rewrite Hk in Hp'. injection Hp' as <- <-.
    destruct Hor as [<-|[_ ?]]; [|done].
    pose proof (HQ t' c Hk1) as Hin. rewrite mutex_fetched.
    destruct (waiting (mutex s)) as [|t0 rest] eqn:Hwt.
    { by apply elem_of_nil in Hin. }
    cbn. apply elem_of_cons in Hin as [->|Hin]; [|done].
    destruct (Hw t0) as (c2 & Hk2); [rewrite Hwt; by left|].
    rewrite (fetched_grants_head t sn t0 rest c2 s) in Hk; done.
  - destruct (calls s !! t) as [[c0 p0]|] eqn:Ht; [|done].
    destruct p0 as [| | |o|]; try done. injection Hs as <-.
    intros t' c Hk. rewrite mutex_resumed.
    rewrite (calls_resumed t c0 o s Ht) in Hk.
    destruct (decide (t = t')) as [->|Hne].
    + rewrite list_lookup_insert_eq in Hk by (by apply lookup_lt_Some in Ht).
      done.
    + rewrite list_lookup_insert_ne in Hk by done. by apply (HQ t' c).
  - destruct (timer_due h s); [|done]. injection Hs as <-.
    unfold poll. cbn [handle clearTimeout with_timers].
    destruct (handle s); by apply queued_call.
  - destruct (Z.leb 0 d); [|done]. by injection Hs as <-.
Qed.

Lemma reachable_queued dflt st usd src ls s :
  run ls (constructor dflt st usd src) = Some s -> queued_ok s.
Proof.
  intros Hr.
  apply (run_invariant queued_ok)
    with (ls := ls) (s := constructor dflt st usd src); [| | |exact Hr].
  - intros l s0 s1 HI HP Hs. by apply (step_queued l s0).
  - apply constructor_Inv.
  - unfold constructor, poll. cbn. intros t c Hk. cbn in Hk.
    destruct t; cbn in Hk; [|done]. by apply list_elem_of_singleton.
Qed.

Lemma sum_list_with_lt {A} (f : A -> nat) (cs cs' : list A) :
  length cs = length cs' ->
  (forall i k k', cs !! i = Some k -> cs' !! i = Some k' -> (f k' <= f k)%nat) ->
  (exists i k k',
      cs !! i = Some k /\ cs' !! i = Some k' /\ (f k' < f k)%nat) ->
  (sum_list_with f cs' < sum_list_with f cs)%nat.
Proof.
  revert cs'. induction cs as [|a cs IH]; intros [|a' cs'] Hlen Hle Hlt;
    cbn in *; try done.
  { by destruct Hlt as (i & k & k' & H & _). }
  pose proof (Hle 0%nat a a' eq_refl eq_refl) as H0.
  assert (sum_list_with f cs' <= sum_list_with f cs)%nat as Hrest.
  { clear IH Hlt H0. assert (length cs = length cs') as Hl by lia.
    assert (forall i k k', cs !! i = Some k -> cs' !! i = Some k' ->
                           (f k' <= f k)%nat) as Hle'.
    { intros i k k' H1 H2. by apply (Hle (S i)). }
    clear Hle Hlen. revert cs' Hl Hle'.
    induction cs as [|b cs IH]; intros [|b' cs'] Hl Hle'; cbn in *;
      try done.
    pose proof (Hle' 0%nat b b' eq_refl eq_refl).
    assert (sum_list_with f cs' <= sum_list_with f cs)%nat.
    { apply IH; [lia|]. intros i k k' H1 H2. by apply (Hle' (S i)). }
    lia. }
  destruct Hlt as ([|i] & k & k' & H1 & H2 & Hlt).
  - cbn in H1, H2. injection H1 as <-. injection H2 as <-. lia.
  - assert (sum_list_with f cs' < sum_list_with f cs)%nat.
    { apply IH; [lia| |].
      - intros j x x' Hx Hx'. by apply (Hle (S j)).
      - by exists i, k, k'. }
    lia.
Qed.

Lemma advance_remaining l t c p p' :
  p' = p \/ advance l t p p' ->
  (remaining (mkCall c p') <= remaining (mkCall c p))%nat.
Proof.
  intros [->|Hadv]; [done|]. destruct p; cbn in Hadv.
  - subst p'. cbn. lia.
  - destruct Hadv as (_ & sn & ->). cbn. lia.
  - destruct Hadv as (_ & o & ->). cbn. lia.
  - destruct Hadv as (_ & ->). cbn. lia.
  - done.
Qed.

(** A continuation that moves one call on shortens the backlog. *)
Lemma backlog_decreases l s s' t k k' :
  Inv s -> step l s = Some s' -> spawned l = [] ->
  calls s !! t = Some k -> calls s' !! t = Some k' ->
  (remaining k' < remaining k)%nat ->
  (backlog s' < backlog s)%nat.
Proof.
  intros HI Hs Hsp Hk Hk' Hlt. unfold backlog.
  destruct (step_calls_shape l s s' Hs) as (cs & Hlen & Hshape).
  rewrite Hsp, app_nil_r in Hshape. subst cs.
  apply sum_list_with_lt; [done| |by exists t, k, k'].
  intros i [c p] x' Hi Hi'.
  destruct (step_call l s s' i c p HI Hs Hi) as (p' & Hp' & Hor).
  rewrite Hi' in Hp'. injection Hp' as ->.
  by apply (advance_remaining l i).
Qed.

Lemma backlog_positive s :
  (0 < backlog s)%nat ->
  exists t k, calls s !! t = Some k /\ (0 < remaining k)%nat.
Proof.
  unfold backlog. induction (calls s) as [|a cs IH]; cbn; [lia|].
  intros H. destruct (remaining a) eqn:E.
  - destruct IH as (t & k & Hk & Hr); [lia|]. by exists (S t), k.
  - exists 0%nat, a. split; [done|]. lia.
Qed.

Lemma backlog_zero s t k :
  backlog s = 0%nat -> calls s !! t = Some k -> pc k = Finished.
Proof.
  unfold backlog. revert t. induction (calls s) as [|a cs IH]; intros t;
    cbn; [done|].
  intros H Hk. destruct t as [|t]; cbn in Hk.
  - injection Hk as <-. assert (remaining a = 0%nat) as Ha by lia.
    unfold remaining in Ha. by destruct (pc a).
  - apply (IH t); [lia | done].
Qed.

(** Whenever a call is outstanding, one continuation is enabled that
    moves a call on. *)
Lemma progress s :
  Inv s -> queued_ok s -> (0 < backlog s)%nat ->
  exists l s',
    is_continuation l = true /\ step l s = Some s'
    /\ (backlog s' < backlog s)%nat.
Proof.
  intros HI HQ Hpos. pose proof (Inv_waiting_ok s HI) as Hw.
  assert (forall t c, calls s !! t = Some (mkCall c Locked) ->
            exists l s', is_continuation l = true /\ step l s = Some s'
                         /\ (backlog s' < backlog s)%nat) as HLocked.
  { intros t c Hk. exists (Resume t), (updateExchangeRate_locked t s).
    split; [done|]. split; [by apply (step_Resume t c)|].
    destruct (locked_snapshot t c s Hk) as (Hself & _).
    eapply (backlog_decreases (Resume t) s _ t);
      [exact HI | by apply (step_Resume t c) | done | exact Hk
       | exact Hself | cbn; lia]. }
  assert (forall t c sn, calls s !! t = Some (mkCall c (AwaitFetch sn)) ->
            exists l s', is_continuation l = true /\ step l s = Some s'
                         /\ (backlog s' < backlog s)%nat) as HFetch.
  { intros t c sn Hk.
    exists (FetchSettles t), (updateExchangeRate_fetched t sn s).
    split; [done|]. split; [by apply (step_FetchSettles t c)|].
    destruct (calls_fetched t c sn s Hw Hk) as (Hself & _).
    eapply (backlog_decreases (FetchSettles t) s _ t);
      [exact HI | by apply (step_FetchSettles t c) | done | exact Hk
       | exact Hself | cbn; lia]. }
  destruct (backlog_positive s Hpos) as (t & [c p] & Hk & Hr).
  destruct p as [| |sn|o|]; cbn in Hr; try lia.
  - pose proof (HQ t c Hk) as Hin.
    destruct (waiting (mutex s)) as [|t0 rest] eqn:Hwt.
    { by apply elem_of_nil in Hin. }
    destruct (Hw t0) as (c0 & Hk0); [rewrite Hwt; by left|].
    destruct (inv_lock _ _ _ _ HI) as (h & _ & Hok).
    destruct h as [th|]; cbn in Hok.
    + destruct Hok as (_ & ([ch ph] & Hkh & Hin') & _).
      destruct ph as [| |snh| |]; try done;
        [by apply (HLocked th ch) | by apply (HFetch th ch snh)].
    + destruct Hok as (Hc & _).
      exists NextTick, (sched s). split; [done|]. split; [done|].
      assert (calls (sched s) !! t0 = Some (mkCall c0 Locked)) as Hk0'.
      { unfold sched. rewrite Hc, Hwt.
        change (calls (emit ?e ?x)) with (calls x).
        by apply (calls_set_pc_eq t0 c0 AwaitLock). }
      eapply (backlog_decreases NextTick s _ t0);
        [exact HI | done | done | exact Hk0 | exact Hk0' | cbn; lia].
  - by apply (HLocked t c).
  - by apply (HFetch t c sn).
  - exists (Continue t), (resumed t c o s).
    split; [done|]. split; [by apply (step_Continue t c)|].
    apply (backlog_decreases (Continue t) s _ t
             (mkCall c (Settled o)) (mkCall c Finished) HI);
      [by apply (step_Continue t c) | done | done | | cbn; lia].
    rewrite (calls_resumed t c o s Hk).
    apply list_lookup_insert_eq. by apply lookup_lt_Some in Hk.
Qed.

Lemma drain n s :
  (backlog s <= n)%nat -> Inv s -> queued_ok s ->
  exists ls s',
    forallb is_continuation ls = true
    /\ run ls s = Some s' /\ backlog s' = 0%nat
    /\ Inv s' /\ length (calls s') = length (calls s)
    /\ config s' = config s.
Proof.
  revert s. induction n as [|n IH]; intros s Hn HI HQ.
  - exists [], s. split; [done|]. split; [done|]. split; [lia|].
    split; [done|]. by split.
  - destruct (decide (backlog s = 0%nat)) as [Hz|Hnz].
    { exists [], s. split; [done|]. split; [done|]. split; [done|].
      split; [done|]. by split. }
    destruct (progress s HI HQ) as (l & s1 & Hl & Hs & Hlt); [lia|].
    destruct (IH s1) as (ls & s' & Hls & Hr & Hz & HI' & Hlen & Hcfg).
    + lia.
    + by apply (step_Inv l s).
    + by apply (step_queued l s).
    + exists (l :: ls), s'. split; [cbn; by rewrite Hl, Hls|].
      split; [rewrite run_cons, Hs; done|]. split; [done|].
      split; [done|]. split.
      * rewrite Hlen.
        destruct (step_calls_shape l s s1 Hs) as (cs & Hlc & Hshape).
        rewrite Hshape, length_app, Hlc.
        destruct l; try done; cbn; lia.
      * rewrite Hcfg. by apply (step_config l).
Qed.

End Drain.

(** X18: no refresh is ever stuck.  From every reachable state the event
    loop can run every outstanding call of [updateExchangeRate] to its
    end using continuations only (admission, resumption, the answer of
    the rate source, the return to the caller), whether the rate source
    resolves or rejects: afterwards every call has finished, the lock is
    free with nobody waiting, and no call was added. *)
Theorem refreshes_can_always_finish :
  forall (dflt : RateSource) (st : option PartialState) (usd : option bool)
         (src : option RateSource) (ls0 : list Label) (s : Sys),
    run ls0 (constructor dflt st usd src) = Some s ->
    exists ls s',
      forallb is_continuation ls = true
      /\ run ls s = Some s'
      /\ (forall t k, calls s' !! t = Some k -> pc k = Finished)
      /\ mutex s' = mkMutex 1 []
      /\ length (calls s') = length (calls s).
Proof.
  intros dflt st usd src ls0 s Hr.
  pose proof (reachable_Inv _ _ _ _ _ _ Hr) as HI.
  pose proof (reachable_queued _ _ _ _ _ _ Hr) as HQ.
  destruct (drain (backlog s) s (le_n _) HI HQ)
    as (ls & s' & Hls & Hrun & Hz & HI' & Hlen & _).
  exists ls, s'. split; [done|]. split; [done|].
  assert (forall t k, calls s' !! t = Some k -> pc k = Finished) as Hfin.
  { intros t k Hk. by apply (backlog_zero s' t). }
  split; [done|]. split; [|done].
  assert (waiting (mutex s') = []) as Hw.
  { destruct (waiting (mutex s')) as [|t rest] eqn:Hwt; [done|].
    destruct (inv_waiting _ _ _ _ HI' t) as (c & Hk); [rewrite Hwt; by left|].
    by pose proof (Hfin t _ Hk). }
  destruct (inv_lock _ _ _ _ HI') as (h & _ & Hok).
  destruct h as [th|]; cbn in Hok.
  - destruct Hok as (_ & (k & Hk & Hin) & _).
    pose proof (Hfin th k Hk) as Hp. unfold in_cycle in Hin.
    by rewrite Hp in Hin.
  - destruct Hok as (Hc & _). destruct (mutex s') as [n w]. cbn in *.
    by rewrite Hc, Hw.
Qed.

Lemma refreshes_can_always_finish_witness :
  exists s ls s',
    run [CallSetCurrentCurrency "eur"; NextTick; Resume 0;
         CallUpdateExchangeRate]
      Scenario.offline = Some s
    /\ forallb is_continuation ls = true
    /\ run ls s = Some s'
    /\ (forall t k, calls s' !! t = Some k -> pc k = Finished)
    /\ mutex s' = mkMutex 1 []
    /\ length (calls s') = 3%nat.
Proof.
  pose (s := updateExchangeRate_call Direct
               (updateExchangeRate_locked 0
                  (sched (setCurrentCurrency "eur" Scenario.offline)))).
  assert (run [CallSetCurrentCurrency "eur"; NextTick; Resume 0;
               CallUpdateExchangeRate] Scenario.offline = Some s) as Hr
    by (vm_compute; reflexivity).
  destruct (refreshes_can_always_finish Scenario.down None None None _ s Hr)
    as (ls & s' & H1 & H2 & H3 & H4 & H5).
  exists s, ls, s'. split; [exact Hr|]. split; [exact H1|].
  split; [exact H2|]. split; [exact H3|]. split; [exact H4 | exact H5].
Defined.

(** ** Currency rate: teardown at rest, and what the rate source is asked *)

Section AtRest.

Lemma quiescent_run ls s s' :
  quiescent s -> forallb is_internal ls = true -> run ls s = Some s' ->
  trace s' = trace s /\ state s' = state s /\ quiescent s'.
Proof.
  revert s. induction ls as [|l ls IH]; intros s Hq Hls Hr; cbn in Hr.
  - by injection Hr as <-.
  - cbn in Hls. apply andb_true_iff in Hls as [Hl Hls].
    destruct (step l s) as [s1|] eqn:Hs; [|done].
    destruct (quiescent_step l s s1 Hq Hl Hs) as (Hq1 & Htr).
    destruct (IH s1 Hq1 Hls Hr) as (-> & -> & Hq'). split; [done|].
    split; [|done].
    destruct (step_publishes l s s1 Hs) as [[Hst _]|Hp]; [done|].
    exfalso. rewrite Htr in Hp.
    apply (f_equal length) in Hp. rewrite length_app in Hp. cbn in Hp. lia.
Qed.

(** The rate source is only ever invoked by a refresh that resumes, with
    the flag of the controller. *)
Lemma step_new_fetch l s s' t q b u :
  step l s = Some s' ->
  Fetch t q b u ∈ trace s' ->
  Fetch t q b u ∈ trace s
  \/ (l = Resume t /\ u = includeUsdRate s
      /\ q = quote_of (snapshot_of (state s))
      /\ b = base_of (snapshot_of (state s))).
Proof.
  intros Hs Hin. destruct l; cbn in Hs.
  - injection Hs as <-. left. unfold setCurrentCurrency in Hin.
    rewrite trace_call, trace_update in Hin.
    rewrite !elem_of_app in Hin. destruct Hin as [[?|Hin]|Hin]; [done| |];
      apply list_elem_of_singleton in Hin; done.
  - injection Hs as <-. left. unfold setNativeCurrency in Hin.
    rewrite trace_call, trace_update in Hin.
    rewrite !elem_of_app in Hin. destruct Hin as [[?|Hin]|Hin]; [done| |];
      apply list_elem_of_singleton in Hin; done.
  - injection Hs as <-. left. rewrite trace_call in Hin.
    apply elem_of_app in Hin as [?|Hin]; [done|].
    apply list_elem_of_singleton in Hin. done.
  - injection Hs as <-. left. rewrite trace_poll in Hin.
    apply elem_of_app in Hin as [?|Hin]; [done|].
    apply list_elem_of_singleton in Hin. done.
  - injection Hs as <-. left. rewrite trace_destroy in Hin.
    apply elem_of_app in Hin as [?|Hin]; [done|].
    apply list_elem_of_singleton in Hin. done.
  - injection Hs as <-. left. rewrite trace_sched in Hin.
    apply elem_of_app in Hin as [?|Hin]; [done|].
    unfold granted in Hin. destruct (count (mutex s)).
    { by apply elem_of_nil in Hin. }
    destruct (waiting (mutex s)); [by apply elem_of_nil in Hin|].
    apply list_elem_of_singleton in Hin. done.
  - destruct (calls s !! t0) as [[c0 p0]|] eqn:Hk; [|done].
    destruct p0; try done. injection Hs as <-.
    destruct (locked_snapshot t0 c0 s Hk) as (_ & _ & _ & _ & Htr).
    rewrite Htr in Hin. apply elem_of_app in Hin as [?|Hin]; [by left|].
    apply list_elem_of_singleton in Hin. injection Hin as -> -> -> ->.
    by right.
  - destruct (calls s !! t0) as [[c0 p0]|] eqn:Hk; [|done].
    destruct p0 as [| |sn| |]; try done. injection Hs as <-. left.
    rewrite trace_fetched in Hin.
    apply elem_of_app in Hin as [?|Hin]; [done|]. exfalso.
    assert (Fetch t q b u ∉ granted
              (mkMutex (S (count (mutex s))) (waiting (mutex s)))) as Hg.
    { unfold granted. cbn. destruct (waiting (mutex s)).
      - apply not_elem_of_nil.
      - intros H. by apply list_elem_of_singleton in H. }
    destruct (fetchExchangeRate s t0 _ _ _);
      repeat (apply elem_of_cons in Hin as [?|Hin]; [done|]);
      apply elem_of_app in Hin as [?|Hin]; try done;
      by apply list_elem_of_singleton in Hin.
  - destruct (calls s !! t0) as [[c0 p0]|] eqn:Hk; [|done].
    destruct p0; try done. injection Hs as <-. left.
    rewrite trace_resumed in Hin.
    apply elem_of_app in Hin as [?|Hin]; [done|]. exfalso.
    destruct c0;
      repeat (apply elem_of_cons in Hin as [?|Hin]; [done|]);
      by apply elem_of_nil in Hin.
  - destruct (timer_due h s); [|done]. injection Hs as <-. left.
    rewrite trace_poll in Hin. cbn in Hin.
    apply elem_of_app in Hin as [?|Hin]; [done|].
    apply list_elem_of_singleton in Hin. done.
  - destruct (Z.leb 0 d); [|done]. injection Hs as <-. by left.
Qed.

End AtRest.

(** X19: teardown between two ticks is final, as long as [poll] was not
    called from outside.  When [destroy] is called in a state reached
    without a direct call of [poll] in which no call of
    [updateExchangeRate] is outstanding, then whatever the event loop does
    on its own afterwards and however much time passes, nothing happens
    any more: no timer fires, the rate source is not invoked, nothing is
    published, and the state stays as it was. *)
Theorem destroy_between_ticks_is_final :
  forall (dflt : RateSource) (st : option PartialState) (usd : option bool)
         (src : option RateSource) (ls0 : list Label) (s : Sys)
         (ls : list Label) (s' : Sys),
    poll_by_loop_only ls0 = true ->
    run ls0 (constructor dflt st usd src) = Some s ->
    (forall t k, calls s !! t = Some k -> pc k = Finished) ->
    forallb is_internal ls = true ->
    run ls (destroy s) = Some s' ->
    trace s' = trace s ++ [Destroyed] /\ state s' = state s
    /\ timers s' = [].
Proof.
  intros dflt st usd src ls0 s ls s' Hls0 Hr Hfin Hls Hrun.
  pose proof (reachable_Inv _ _ _ _ _ _ Hr) as HI.
  destruct (reachable_poll_loop _ _ _ _ _ _ Hls0 Hr) as (_ & Htim & _).
  assert (quiescent (destroy s)) as Hq.
  { unfold quiescent. rewrite calls_destroy. split; [|split].
    - unfold destroy, super_destroy. cbn.
      destruct Htim as [Hnil|(h & due & Ht & Hh & _)].
      + destruct (handle s); cbn; by rewrite Hnil.
      + rewrite Hh. cbn. rewrite Ht. cbn.
        by rewrite decide_False by (intros H; by apply H).
    - assert (mutex (destroy s) = mutex s) as ->.
      { unfold destroy, super_destroy. cbn. by destruct (handle s). }
      destruct (waiting (mutex s)) as [|t rest] eqn:Hwt; [done|].
      destruct (inv_waiting _ _ _ _ HI t) as (c & Hk); [rewrite Hwt; by left|].
      by pose proof (Hfin t _ Hk).
    - apply Forall_lookup. intros t k Hk. by apply (Hfin t). }
  destruct (quiescent_run ls _ s' Hq Hls Hrun) as (-> & -> & (Ht' & _)).
  by rewrite trace_destroy, state_destroy.
Qed.

Lemma destroy_between_ticks_is_final_witness :
  exists s s',
    run [NextTick; Resume 0; FetchSettles 0; Continue 0] Scenario.fresh
      = Some s
    /\ run [TimePasses 180000; NextTick; TimePasses 180000] (destroy s)
       = Some s'
    /\ trace s' = trace s ++ [Destroyed]
    /\ state s' = state s.
Proof.
  pose (s := resumed 0 Poll (Fulfilled None)
               (updateExchangeRate_fetched 0
                  (mkSnapshot "usd" "ETH" None None)
                  (updateExchangeRate_locked 0 (sched Scenario.fresh)))).
  pose (s' := with_now 360000 (destroy s)).
  assert (run [NextTick; Resume 0; FetchSettles 0; Continue 0]
            Scenario.fresh = Some s) as Hr by (vm_compute; reflexivity).
  assert (run [TimePasses 180000; NextTick; TimePasses 180000] (destroy s)
          = Some s') as Hrun by (vm_compute; reflexivity).
  destruct (destroy_between_ticks_is_final Scenario.steady None None None
              [NextTick; Resume 0; FetchSettles 0; Continue 0] s
              [TimePasses 180000; NextTick; TimePasses 180000] s')
    as (H1 & H2 & _); [reflexivity | exact Hr | | reflexivity | exact Hrun |].
  - intros t k Hk. destruct t as [|t]; cbn in Hk; [|done].
    by injection Hk as <-.
  - exists s, s'. split; [exact Hr|]. split; [exact Hrun|].
    split; [exact H1 | exact H2].
Defined.

(** X20: the rate source is only ever invoked with the include-USD flag
    the controller was constructed with ([false] when the argument was
    omitted), and the interval, the flag and the rate source of a
    controller never change. *)
Theorem rate_source_gets_construction_flag :
  forall (dflt : RateSource) (st : option PartialState) (usd : option bool)
         (src : option RateSource) (ls : list Label) (s : Sys),
    run ls (constructor dflt st usd src) = Some s ->
    interval s = 180000
    /\ includeUsdRate s = (match usd with Some f => f | None => false end)
    /\ fetchExchangeRate s = (match src with Some f => f | None => dflt end)
    /\ forall t q b u,
         Fetch t q b u ∈ trace s ->
         u = (match usd with Some f => f | None => false end).
Proof.
  intros dflt st usd src ls s Hr.
  destruct (config_fields _ _ (run_config _ _ _ Hr)) as (Hi & Hf & Hu).
  assert (includeUsdRate (constructor dflt st usd src)
          = match usd with Some f => f | None => false end) as Hu0.
  { unfold constructor, poll. cbn. by destruct usd. }
  assert (fetchExchangeRate (constructor dflt st usd src)
          = match src with Some f => f | None => dflt end) as Hf0.
  { unfold constructor, poll. cbn. by destruct src. }
  split; [by rewrite Hi, constructor_interval_value|].
  split; [by rewrite Hu|]. split; [by rewrite Hf|].
  rewrite <- Hu0, <- Hu. clear Hi Hf Hu Hu0 Hf0.
  apply (run_invariant
           (fun s0 => forall t q b u,
                        Fetch t q b u ∈ trace s0 -> u = includeUsdRate s0))
    with (ls := ls) (s := constructor dflt st usd src); [| | |exact Hr].
  - intros l s0 s1 _ HP Hs t q b u Hin.
    destruct (config_fields _ _ (step_config l s0 s1 Hs)) as (_ & _ & ->).
    destruct (step_new_fetch l s0 s1 t q b u Hs Hin) as [Hold|(_ & -> & _)];
      [by apply (HP t q b) | done].
  - apply constructor_Inv.
  - intros t q b u Hin. unfold constructor in Hin.
    rewrite trace_poll in Hin. cbn in Hin.
    apply list_elem_of_singleton in Hin. done.
Qed.

Lemma rate_source_gets_construction_flag_witness :
  exists s,
    run [NextTick; Resume 0; FetchSettles 0; CallSetCurrentCurrency "eur";
         NextTick; Resume 1]
      (constructor Scenario.steady None (Some true) None) = Some s
    /\ includeUsdRate s = true
    /\ (forall t q b u, Fetch t q b u ∈ trace s -> u = true).
Proof.
  pose (s := updateExchangeRate_locked 1
               (sched
                  (setCurrentCurrency "eur"
                     (updateExchangeRate_fetched 0
                        (mkSnapshot "usd" "ETH" None None)
                        (updateExchangeRate_locked 0
                           (sched (constructor Scenario.steady None
                                     (Some true) None))))))).
  assert (run [NextTick; Resume 0; FetchSettles 0;
               CallSetCurrentCurrency "eur"; NextTick; Resume 1]
            (constructor Scenario.steady None (Some true) None) = Some s)
    as Hr by (vm_compute; reflexivity).
  destruct (rate_source_gets_construction_flag Scenario.steady None
              (Some true) None _ s Hr) as (_ & H2 & _ & H4).
  exists s. split; [exact Hr|]. split; [exact H2 | exact H4].
Defined.
